(** * ClawFix: the issue detector, the fix-script composer and the result store

    A shallow embedding of [src/known-issues.js] and [src/routes/diagnose.js].

    - [Js] models the fragment of JavaScript the detection predicates use:
      values as [JSON.parse] builds them, property reads, optional chaining,
      truthiness, string coercion, [+], [parseInt] and [RegExp.prototype.test].
    - [KnownIssues] is the catalog [KNOWN_ISSUES] and [detectIssues].
    - [Diagnose] is [generateFixScript], [analyzeWithAI], the [fixes] map and
      the two route handlers.
    - [Shape] names what the statements talk about: the blocks of a script,
      the invariant of the map, sequences of requests, sample payloads.

    Text that the predicates inspect is a sequence of UTF-16 code units
    ([Js.jsstring]), because [.] and the [i] flag of a regular expression are
    defined on code units.  Catalog and script text is only concatenated,
    compared and searched for an ASCII marker; it is kept as a [string] holding
    the UTF-8 encoding of the source literal. *)

From Stdlib Require Import ZArith NArith List String Ascii Bool Lia DecimalString.
From Stdlib Require DecimalNat DecimalFacts.
Import ListNotations.

Set Implicit Arguments.
Set Warnings "-register-all".

(** ** JavaScript values and coercions *)

Module Js.

Definition jsstring := list N.

(** Code units of an ASCII literal. *)
Definition cu (s : string) : jsstring :=
  map N_of_ascii (list_ascii_of_string s).

(** The outcome of evaluating an expression: a value, or a thrown error
    with its message. *)
Inductive Completion (A : Type) : Type :=
| Normal (a : A)
| Throw (message : string).
Arguments Normal {A} a.
Arguments Throw {A} message.

Definition bind {A B} (c : Completion A) (k : A -> Completion B) : Completion B :=
  match c with
  | Normal a => k a
  | Throw m => Throw m
  end.

(** [try { body } catch { handler }] *)
Definition try_catch {A} (body : Completion A) (handler : string -> Completion A)
  : Completion A :=
  match body with
  | Normal a => Normal a
  | Throw m => handler m
  end.

(** Values.  A payload is what [JSON.parse] returns: [JNull], [JBool],
    [JNum], [JStr], [JArr] and [JObj].  Numbers are the integer-valued ones
    (counts and process ids in the collected payload); [JNaN] only arises
    from [+].  [JUndefined] is what a missing property reads as, and
    [JBuiltin name] is a method inherited from a prototype. *)
Inductive JsVal : Type :=
| JUndefined
| JNull
| JBool (b : bool)
| JNum (n : Z)
| JNaN
| JStr (s : jsstring)
| JArr (elems : list JsVal)
| JObj (props : list (string * JsVal))
| JBuiltin (name : string).

(** ToBoolean *)
Definition truthy (v : JsVal) : bool :=
  match v with
  | JUndefined | JNull | JNaN => false
  | JBool b => b
  | JNum n => negb (n =? 0)%Z
  | JStr s => match s with [] => false | _ => true end
  | JArr _ | JObj _ | JBuiltin _ => true
  end.

(** [a || b] *)
Definition or_else (a b : JsVal) : JsVal := if truthy a then a else b.

Fixpoint own_prop (props : list (string * JsVal)) (k : string) : option JsVal :=
  match props with
  | [] => None
  | (k', v) :: rest => if String.eqb k' k then Some v else own_prop rest k
  end.

(** Of the property names the program reads, the ones an array inherits
    from [Array.prototype]. *)
Definition array_prototype_reads : list string := ["entries"; "every"]%string.

Definition is_nullish (v : JsVal) : bool :=
  match v with JUndefined | JNull => true | _ => false end.

(** [v.k] for the property names the program reads ([system], [config],
    [plugins], [entries], [openclaw-mem0], [enableGraph], [openclaw],
    [gatewayStatus], [gatewayPid], [logs], [errors], [stderr], [agents],
    [defaults], [memorySearch], [query], [hybrid], [enabled],
    [contextPruning], [compaction], [memoryFlush], [workspace], [hasSoul],
    [memoryFiles], [heartbeat], [every]).  None of them is an index or
    [length], and none is inherited by an object, a string, a number, a
    boolean or a function; an array inherits [entries] and [every]. *)
Definition get_prop (v : JsVal) (k : string) : Completion JsVal :=
  match v with
  | JUndefined =>
      Throw ("Cannot read properties of undefined (reading '" ++ k ++ "')")
  | JNull =>
      Throw ("Cannot read properties of null (reading '" ++ k ++ "')")
  | JObj props =>
      Normal (match own_prop props k with Some x => x | None => JUndefined end)
  | JArr _ =>
      Normal (if existsb (String.eqb k) array_prototype_reads
              then JBuiltin k else JUndefined)
  | JBool _ | JNum _ | JNaN | JStr _ | JBuiltin _ => Normal JUndefined
  end.

(** [v?.k]: undefined when [v] is null or undefined, otherwise [v.k];
    it never throws. *)
Definition opt_get (v : JsVal) (k : string) : JsVal :=
  match v with
  | JUndefined | JNull => JUndefined
  | _ => match get_prop v k with Normal x => x | Throw _ => JUndefined end
  end.

(** [a === b] where one operand is a primitive literal (the program
    compares with [true] and with [0]); an object, array or function
    operand is then never equal. *)
Definition strict_equals (a b : JsVal) : bool :=
  match a, b with
  | JUndefined, JUndefined => true
  | JNull, JNull => true
  | JBool x, JBool y => Bool.eqb x y
  | JNum x, JNum y => (x =? y)%Z
  | JStr x, JStr y => if list_eq_dec N.eq_dec x y then true else false
  | _, _ => false
  end.

Definition number_to_string (n : Z) : jsstring :=
  cu (NilZero.string_of_int (Z.to_int n)).

Fixpoint join (sep : jsstring) (parts : list jsstring) : jsstring :=
  match parts with
  | [] => []
  | [p] => p
  | p :: rest => p ++ sep ++ join sep rest
  end.

Fixpoint sequence {A} (cs : list (Completion A)) : Completion (list A) :=
  match cs with
  | [] => Normal []
  | c :: rest =>
      bind c (fun a => bind (sequence rest) (fun l => Normal (a :: l)))
  end.

(** ToString.  An object from [JSON.parse] has no callable own property:
    when it has an own [toString], neither that nor [valueOf] yields a
    primitive and the conversion throws a TypeError; otherwise
    [Object.prototype.toString] answers.  An array joins its elements with
    a comma, null and undefined elements giving the empty string. *)
Fixpoint to_string (v : JsVal) : Completion jsstring :=
  match v with
  | JUndefined => Normal (cu "undefined")
  | JNull => Normal (cu "null")
  | JBool true => Normal (cu "true")
  | JBool false => Normal (cu "false")
  | JNum n => Normal (number_to_string n)
  | JNaN => Normal (cu "NaN")
  | JStr s => Normal s
  | JArr elems =>
      bind (sequence
              (map (fun e => if is_nullish e then Normal [] else to_string e)
                   elems))
           (fun parts => Normal (join (cu ",") parts))
  | JObj props =>
      match own_prop props "toString" with
      | Some _ => Throw "Cannot convert object to primitive value"
      | None => Normal (cu "[object Object]")
      end
  | JBuiltin name => Normal (cu ("function " ++ name ++ "() { [native code] }"))
  end.

(** ToPrimitive with no hint agrees with ToString on objects, arrays and
    functions (their [valueOf] returns the object itself). *)
Definition to_primitive (v : JsVal) : Completion JsVal :=
  match v with
  | JArr _ | JObj _ | JBuiltin _ => bind (to_string v) (fun s => Normal (JStr s))
  | _ => Normal v
  end.

(** ToNumber of a primitive that is not a string; [None] is NaN. *)
Definition to_number (v : JsVal) : option Z :=
  match v with
  | JNull => Some 0%Z
  | JBool b => Some (if b then 1 else 0)%Z
  | JNum n => Some n
  | _ => None
  end.

Definition is_string (v : JsVal) : bool :=
  match v with JStr _ => true | _ => false end.

(** [a + b] *)
Definition add (a b : JsVal) : Completion JsVal :=
  bind (to_primitive a) (fun pa =>
  bind (to_primitive b) (fun pb =>
    if is_string pa || is_string pb then
      bind (to_string pa) (fun sa =>
      bind (to_string pb) (fun sb => Normal (JStr (sa ++ sb))))
    else
      match to_number pa, to_number pb with
      | Some x, Some y => Normal (JNum (x + y))
      | _, _ => Normal JNaN
      end)).

(** *** Regular expressions

    [RegExp.prototype.test] only asks whether some match exists, so a
    pattern without back-references or look-around is decided by language
    membership; [matches] does it with derivatives. *)

Inductive regex : Type :=
| Void                       (* matches nothing *)
| Eps                        (* the empty pattern *)
| Lit (c : N)                (* a literal character *)
| Dot                        (* [.]: any code unit but a line terminator *)
| Digit                      (* [\d] *)
| All                        (* any code unit *)
| Seq (r s : regex)
| Alt (r s : regex)          (* [r|s] *)
| Star (r : regex).

Definition Plus (r : regex) : regex := Seq r (Star r).

(** A literal run of ASCII characters. *)
Definition lit (s : string) : regex :=
  fold_right (fun c r => Seq (Lit c) r) Eps (cu s).

(** Canonicalize under the [i] flag without the [u] flag: a character is
    compared through its upper-case form, except that a character outside
    ASCII is never mapped into ASCII.  Every literal of the program's
    patterns is ASCII, so only the ASCII letters matter here. *)
Definition canonicalize (ignoreCase : bool) (c : N) : N :=
  if ignoreCase && (97 <=? c)%N && (c <=? 122)%N then (c - 32)%N else c.

(** LineTerminator: LF, CR, U+2028, U+2029. *)
Definition line_terminator (c : N) : bool :=
  ((c =? 10) || (c =? 13) || (c =? 8232) || (c =? 8233))%N.

Definition is_digit (c : N) : bool := ((48 <=? c) && (c <=? 57))%N.

Fixpoint nullable (r : regex) : bool :=
  match r with
  | Void | Lit _ | Dot | Digit | All => false
  | Eps | Star _ => true
  | Seq r s => nullable r && nullable s
  | Alt r s => nullable r || nullable s
  end.

Definition mkSeq (r s : regex) : regex :=
  match r, s with
  | Void, _ | _, Void => Void
  | Eps, _ => s
  | _, _ => Seq r s
  end.

Definition mkAlt (r s : regex) : regex :=
  match r, s with
  | Void, _ => s
  | _, Void => r
  | _, _ => Alt r s
  end.

Definition of_bool (b : bool) : regex := if b then Eps else Void.

(** What remains of [r] after reading the code unit [c]. *)
Fixpoint deriv (ignoreCase : bool) (c : N) (r : regex) : regex :=
  match r with
  | Void | Eps => Void
  | Lit a => of_bool (canonicalize ignoreCase a =? canonicalize ignoreCase c)%N
  | Dot => of_bool (negb (line_terminator c))
  | Digit => of_bool (is_digit c)
  | All => Eps
  | Seq r s =>
      let left := mkSeq (deriv ignoreCase c r) s in
      if nullable r then mkAlt left (deriv ignoreCase c s) else left
  | Alt r s => mkAlt (deriv ignoreCase c r) (deriv ignoreCase c s)
  | Star r => mkSeq (deriv ignoreCase c r) (Star r)
  end.

(** The whole of [s] is in the language of [r]. *)
Definition matches (ignoreCase : bool) (r : regex) (s : jsstring) : bool :=
  nullable (fold_left (fun r c => deriv ignoreCase c r) s r).

(** A regular-expression literal.  [anchored] is set for a literal of the
    shape [/^...$/] (no [m] flag): the body must match the whole input.
    Otherwise the body may match anywhere.  No literal of the program has
    the [g] or [y] flag, so [test] keeps no state between calls. *)
Record RegExp : Type := {
  body : regex;
  ignoreCase : bool;
  anchored : bool
}.

Definition test_string (re : RegExp) (s : jsstring) : bool :=
  if anchored re then matches (ignoreCase re) (body re) s
  else matches (ignoreCase re) (Seq (Star All) (Seq (body re) (Star All))) s.

(** [re.test(v)] coerces its argument with ToString. *)
Definition test (re : RegExp) (v : JsVal) : Completion bool :=
  bind (to_string v) (fun s => Normal (test_string re s)).

(** *** parseInt *)

(** WhiteSpace and LineTerminator code units. *)
Definition is_whitespace (c : N) : bool :=
  ((9 <=? c) && (c <=? 13) || (c =? 32) || (c =? 160) || (c =? 5760)
   || (8192 <=? c) && (c <=? 8202) || (c =? 8232) || (c =? 8233)
   || (c =? 8239) || (c =? 8287) || (c =? 12288) || (c =? 65279))%N.

Fixpoint skip_whitespace (s : jsstring) : jsstring :=
  match s with
  | c :: rest => if is_whitespace c then skip_whitespace rest else s
  | [] => []
  end.

(** The value of [c] as a digit in [radix], if it is one. *)
Definition digit_value (radix : N) (c : N) : option N :=
  let d :=
    if is_digit c then Some (c - 48)%N
    else if ((97 <=? c) && (c <=? 122))%N then Some (c - 87)%N
    else if ((65 <=? c) && (c <=? 90))%N then Some (c - 55)%N
    else None in
  match d with
  | Some x => if (x <? radix)%N then Some x else None
  | None => None
  end.

(** The longest prefix of digits, read in [radix]; [None] when there is
    no digit. *)
Fixpoint read_digits (radix : N) (acc : option N) (s : jsstring) : option N :=
  match s with
  | c :: rest =>
      match digit_value radix c with
      | Some d =>
          read_digits radix
            (Some (match acc with Some a => a * radix + d | None => d end)%N)
            rest
      | None => acc
      end
  | [] => acc
  end.

(** [parseInt(v)] with no radix argument; [None] is NaN. *)
Definition parseInt (v : JsVal) : Completion (option Z) :=
  bind (to_string v) (fun input =>
    let s := skip_whitespace input in
    let '(sign, s) :=
      match s with
      | 45%N :: rest => ((-1)%Z, rest)
      | 43%N :: rest => (1%Z, rest)
      | _ => (1%Z, s)
      end in
    let '(radix, s) :=
      match s with
      | 48%N :: 120%N :: rest | 48%N :: 88%N :: rest => (16%N, rest)
      | _ => (10%N, s)
      end in
    Normal (match read_digits radix None s with
            | Some n => Some (sign * Z.of_N n)%Z
            | None => None
            end)).

(** [x < n] for a number [x] that may be NaN. *)
Definition less_than (x : option Z) (n : Z) : bool :=
  match x with Some a => (a <? n)%Z | None => false end.

Module Notations.
  Notation "x <- c ;; k" := (bind c (fun x => k))
    (at level 61, c at next level, right associativity).
  Notation "v ?. k" := (opt_get v k) (at level 2, left associativity).
End Notations.

End Js.

(** ** The issue catalog and the detector ([src/known-issues.js]) *)

Module KnownIssues.
Import Js Js.Notations.
Local Open Scope string_scope.

(** The characters a literal cannot hold directly, and a template literal
    that spans several lines. *)
Definition dq : string := String (ascii_of_nat 34) EmptyString.
Definition bs : string := String (ascii_of_nat 92) EmptyString.
Definition nl : string := String (ascii_of_nat 10) EmptyString.
Definition multiline (rows : list string) : string := String.concat nl rows.

(** [severity] is one of four strings in the source. *)
Inductive Severity : Type := critical | high | medium | low.

Definition severity_name (s : Severity) : string :=
  match s with
  | critical => "critical"
  | high => "high"
  | medium => "medium"
  | low => "low"
  end.

(** An entry of [KNOWN_ISSUES].  [detect] returns whatever value the arrow
    function returns, or throws; [fix_] is the source's [fix]. *)
Record Issue : Type := {
  id : string;
  severity : Severity;
  title : string;
  description : string;
  detect : JsVal -> Completion JsVal;
  fix_ : string
}.

(** A case-insensitive pattern that may match anywhere: [/body/i]. *)
Definition regexp_i (r : regex) : RegExp :=
  {| body := r; ignoreCase := true; anchored := false |}.

Definition mem0_graph_free : Issue := {|
  id := "mem0-graph-free";
  severity := critical;
  title := "Mem0 enableGraph on Free plan";
  description :=
    "Mem0 plugin has enableGraph: true but this requires the Pro plan ($99/mo). Every autoCapture and autoRecall call silently fails, meaning zero memories are stored.";
  detect := fun diag =>
    try_catch
      (config <- get_prop diag "config" ;;
       Normal (JBool (strict_equals
         config ?. "plugins" ?. "entries" ?. "openclaw-mem0" ?. "config" ?. "enableGraph"
         (JBool true))))
      (fun _ => Normal (JBool false));
  fix_ := multiline [
    "# Fix: Disable Mem0 graph (requires Pro plan)";
    "jq '.plugins.entries[" ++ dq ++ "openclaw-mem0" ++ dq ++ "].config.enableGraph = false' " ++ bs;
    "  ~/.openclaw/openclaw.json > /tmp/oc-fix.json && " ++ bs;
    "  mv /tmp/oc-fix.json ~/.openclaw/openclaw.json";
    "echo " ++ dq ++ "✅ Mem0 graph disabled — autoCapture will now work on Free plan" ++ dq
  ]
|}.

Definition gateway_not_running : Issue := {|
  id := "gateway-not-running";
  severity := critical;
  title := "Gateway is not running";
  description :=
    "The OpenClaw gateway process is not running. This could be due to a config error, port conflict, or crash.";
  detect := fun diag =>
    openclaw <- get_prop diag "openclaw" ;;
    let status := or_else (openclaw ?. "gatewayStatus") (JStr []) in
    hit <- test (regexp_i (Alt (lit "not running") (Alt (lit "error")
                            (Alt (lit "failed") (lit "stopped"))))) status ;;
    if hit then
      openclaw <- get_prop diag "openclaw" ;;
      Normal (JBool (negb (truthy (openclaw ?. "gatewayPid"))))
    else Normal (JBool false);
  fix_ := multiline [
    "# Fix: Restart the gateway";
    "openclaw gateway restart";
    "# If that fails, check logs:";
    "# cat ~/.openclaw/logs/gateway.err.log | tail -20"
  ]
|}.

Definition port_conflict : Issue := {|
  id := "port-conflict";
  severity := critical;
  title := "Port conflict (EADDRINUSE)";
  description :=
    "The gateway port is already in use by another process. This prevents OpenClaw from starting.";
  detect := fun diag =>
    logs <- get_prop diag "logs" ;;
    let logs := or_else (logs ?. "errors") (JStr []) in
    hit <- test (regexp_i (lit "EADDRINUSE")) logs ;;
    Normal (JBool hit);
  fix_ := multiline [
    "# Fix: Kill the process using the gateway port and restart";
    "PORT=$(jq -r '.gateway.port // 18789' ~/.openclaw/openclaw.json)";
    "PID=$(lsof -ti :$PORT 2>/dev/null)";
    "if [ -n " ++ dq ++ "$PID" ++ dq ++ " ]; then";
    "  echo " ++ dq ++ "Killing process $PID on port $PORT" ++ dq;
    "  kill $PID";
    "  sleep 1";
    "fi";
    "openclaw gateway restart";
    "echo " ++ dq ++ "✅ Port conflict resolved" ++ dq
  ]
|}.

Definition browser_port_binding : Issue := {|
  id := "browser-port-binding";
  severity := high;
  title := "Browser control port not binding (18791)";
  description :=
    "The browser control HTTP server on port 18791 won't start. This prevents browser automation from working.";
  detect := fun diag =>
    logs <- get_prop diag "logs" ;;
    let logs := or_else (logs ?. "errors") (JStr []) in
    hit <- test (regexp_i
             (Alt (Seq (lit "18791") (Seq (Star Dot) (lit "EADDRINUSE")))
             (Alt (Seq (lit "browser") (Seq (Star Dot)
                    (Seq (lit "control") (Seq (Star Dot) (lit "fail")))))
                  (Seq (lit "browser") (Seq (Star Dot)
                    (Seq (lit "service") (Seq (Star Dot) (lit "start")))))))) logs ;;
    Normal (JBool hit);
  fix_ := multiline [
    "# Fix: Kill stale browser processes and restart";
    "pkill -f " ++ dq ++ "chrome.*--remote-debugging-port" ++ dq ++ " 2>/dev/null";
    "PID=$(lsof -ti :18791 2>/dev/null)";
    "[ -n " ++ dq ++ "$PID" ++ dq ++ " ] && kill $PID";
    "PID=$(lsof -ti :18800 2>/dev/null)";
    "[ -n " ++ dq ++ "$PID" ++ dq ++ " ] && kill $PID";
    "sleep 1";
    "openclaw gateway restart";
    "echo " ++ dq ++ "✅ Browser ports cleared" ++ dq
  ]
|}.

Definition no_hybrid_search : Issue := {|
  id := "no-hybrid-search";
  severity := medium;
  title := "Hybrid search not enabled";
  description :=
    "Your memory search is using basic vector search only. Enabling hybrid search (vector + BM25) significantly improves recall, especially for exact matches like wallet addresses, error codes, and names.";
  detect := fun diag =>
    try_catch
      (config <- get_prop diag "config" ;;
       Normal (JBool (negb (truthy
         config ?. "agents" ?. "defaults" ?. "memorySearch" ?. "query" ?. "hybrid" ?. "enabled"))))
      (fun _ => Normal (JBool true));
  fix_ := multiline [
    "# Fix: Enable hybrid search with recommended weights";
    "jq '.agents.defaults.memorySearch.query.hybrid = {";
    "  " ++ dq ++ "enabled" ++ dq ++ ": true,";
    "  " ++ dq ++ "vectorWeight" ++ dq ++ ": 0.6,";
    "  " ++ dq ++ "textWeight" ++ dq ++ ": 0.4,";
    "  " ++ dq ++ "temporalDecay" ++ dq ++ ": {" ++ dq ++ "enabled" ++ dq ++ ": true, " ++ dq ++ "halfLifeDays" ++ dq ++ ": 14}";
    "}' ~/.openclaw/openclaw.json > /tmp/oc-fix.json && " ++ bs;
    "  mv /tmp/oc-fix.json ~/.openclaw/openclaw.json";
    "echo " ++ dq ++ "✅ Hybrid search enabled (vector 0.6 + BM25 0.4 + temporal decay)" ++ dq
  ]
|}.

Definition no_context_pruning : Issue := {|
  id := "no-context-pruning";
  severity := medium;
  title := "No context pruning configured";
  description :=
    "Without context pruning, old messages pile up and waste your context window. This makes conversations more expensive and can cause compactions to happen more often.";
  detect := fun diag =>
    try_catch
      (config <- get_prop diag "config" ;;
       Normal (JBool (negb (truthy
         config ?. "agents" ?. "defaults" ?. "contextPruning"))))
      (fun _ => Normal (JBool true));
  fix_ := multiline [
    "# Fix: Enable context pruning (cache-ttl mode, 6 hour TTL)";
    "jq '.agents.defaults.contextPruning = {";
    "  " ++ dq ++ "mode" ++ dq ++ ": " ++ dq ++ "cache-ttl" ++ dq ++ ",";
    "  " ++ dq ++ "ttl" ++ dq ++ ": " ++ dq ++ "6h" ++ dq ++ ",";
    "  " ++ dq ++ "keepLastAssistants" ++ dq ++ ": 3";
    "}' ~/.openclaw/openclaw.json > /tmp/oc-fix.json && " ++ bs;
    "  mv /tmp/oc-fix.json ~/.openclaw/openclaw.json";
    "echo " ++ dq ++ "✅ Context pruning enabled (6h TTL, keeps last 3 assistant messages)" ++ dq
  ]
|}.

Definition no_memory_flush : Issue := {|
  id := "no-memory-flush";
  severity := high;
  title := "Memory flush not enabled";
  description :=
    "When your context window fills up and compaction happens, important information will be lost. Memory flush automatically saves a summary before compacting.";
  detect := fun diag =>
    try_catch
      (config <- get_prop diag "config" ;;
       Normal (JBool (negb (truthy
         config ?. "agents" ?. "defaults" ?. "compaction" ?. "memoryFlush" ?. "enabled"))))
      (fun _ => Normal (JBool true));
  fix_ := multiline [
    "# Fix: Enable memory flush with smart prompt";
    "jq '.agents.defaults.compaction = {";
    "  " ++ dq ++ "mode" ++ dq ++ ": " ++ dq ++ "safeguard" ++ dq ++ ",";
    "  " ++ dq ++ "reserveTokensFloor" ++ dq ++ ": 32000,";
    "  " ++ dq ++ "memoryFlush" ++ dq ++ ": {";
    "    " ++ dq ++ "enabled" ++ dq ++ ": true,";
    "    " ++ dq ++ "softThresholdTokens" ++ dq ++ ": 40000,";
    "    " ++ dq ++ "prompt" ++ dq ++ ": " ++ dq ++ "Distill this session to memory/YYYY-MM-DD.md (use today'" ++ dq ++ "'" ++ dq ++ "'s date, APPEND only). Focus on: decisions made, state changes, lessons learned, blockers hit, tasks completed/started. Include specific details (IDs, URLs, amounts, error messages). If nothing worth saving, reply NO_REPLY." ++ dq;
    "  }";
    "}' ~/.openclaw/openclaw.json > /tmp/oc-fix.json && " ++ bs;
    "  mv /tmp/oc-fix.json ~/.openclaw/openclaw.json";
    "echo " ++ dq ++ "✅ Memory flush enabled — context compaction will save summaries" ++ dq
  ]
|}.

Definition no_soul : Issue := {|
  id := "no-soul";
  severity := low;
  title := "No SOUL.md found";
  description :=
    "SOUL.md defines your agent's personality and behavior. Without it, your agent is generic and lacks character.";
  detect := fun diag =>
    workspace <- get_prop diag "workspace" ;;
    Normal (JBool (negb (truthy workspace ?. "hasSoul")));
  fix_ := multiline [
    "# Fix: Create a basic SOUL.md";
    "WORKSPACE=$(jq -r '.agents.defaults.workspace // " ++ dq ++ "~/.openclaw/workspace" ++ dq ++ "' ~/.openclaw/openclaw.json)";
    "cat > " ++ dq ++ "$WORKSPACE/SOUL.md" ++ dq ++ " << 'SOUL'";
    "# SOUL.md — Who You Are";
    EmptyString;
    "You are a helpful AI assistant. Be concise, direct, and genuinely useful.";
    "Have opinions. Be resourceful. Earn trust through competence.";
    EmptyString;
    "Customize this file to give your agent personality!";
    "SOUL";
    "echo " ++ dq ++ "✅ Created basic SOUL.md at $WORKSPACE/SOUL.md" ++ dq
  ]
|}.

Definition no_memory_files : Issue := {|
  id := "no-memory-files";
  severity := low;
  title := "No memory files found";
  description :=
    "Your agent has no memory directory or daily note files. This means it can't persist knowledge across sessions.";
  detect := fun diag =>
    workspace <- get_prop diag "workspace" ;;
    Normal (JBool (strict_equals workspace ?. "memoryFiles" (JNum 0)));
  fix_ := multiline [
    "# Fix: Create memory directory";
    "WORKSPACE=$(jq -r '.agents.defaults.workspace // " ++ dq ++ "~/.openclaw/workspace" ++ dq ++ "' ~/.openclaw/openclaw.json)";
    "mkdir -p " ++ dq ++ "$WORKSPACE/memory" ++ dq;
    "echo " ++ dq ++ "# Memory" ++ dq ++ " > " ++ dq ++ "$WORKSPACE/MEMORY.md" ++ dq;
    "echo " ++ dq ++ "✅ Created memory directory at $WORKSPACE/memory/" ++ dq
  ]
|}.

Definition ggml_metal_crash : Issue := {|
  id := "ggml-metal-crash";
  severity := high;
  title := "GGML Metal GPU crash (macOS)";
  description :=
    "QMD or other GGML-based tools crash with GGML_ASSERT on macOS with Apple Silicon. This is a known Metal GPU bug. Fix: use CPU mode.";
  detect := fun diag =>
    logs <- get_prop diag "logs" ;;
    let logs := or_else (logs ?. "errors") (JStr []) in
    stderr <- get_prop diag "logs" ;;
    let stderr := or_else (stderr ?. "stderr") (JStr []) in
    both <- add logs stderr ;;
    hit <- test (regexp_i
             (Alt (Seq (lit "GGML_ASSERT") (Seq (Star Dot) (lit "ggml-metal")))
                  (Seq (lit "ggml-metal") (Seq (Star Dot) (lit "ASSERT"))))) both ;;
    Normal (JBool hit);
  fix_ := multiline [
    "# Fix: Disable Metal GPU for GGML (use CPU instead)";
    "# Add to ~/.zshrc or ~/.bashrc";
    "echo 'export GGML_NO_METAL=1' >> ~/.zshrc";
    "# Also add to OpenClaw env";
    "jq '.env.GGML_NO_METAL = " ++ dq ++ "1" ++ dq ++ "' ~/.openclaw/openclaw.json > /tmp/oc-fix.json && " ++ bs;
    "  mv /tmp/oc-fix.json ~/.openclaw/openclaw.json";
    "echo " ++ dq ++ "✅ GGML Metal disabled — CPU mode active (fixes QMD crashes)" ++ dq
  ]
|}.

Definition orphan_tool_calls : Issue := {|
  id := "orphan-tool-calls";
  severity := medium;
  title := "Orphan tool_calls in session history";
  description :=
    "Session JSONL files contain tool_call entries without matching tool_result entries. This causes " ++ dq ++ "tool_call_id is not found" ++ dq ++ " errors. Known OpenClaw bug #11187.";
  detect := fun diag =>
    logs <- get_prop diag "logs" ;;
    let logs := or_else (logs ?. "errors") (JStr []) in
    hit <- test (regexp_i
             (Alt (Seq (lit "tool_call_id") (Seq (Star Dot) (lit "not found")))
                  (Seq (lit "orphan") (Seq (Star Dot) (lit "tool"))))) logs ;;
    Normal (JBool hit);
  fix_ := multiline [
    "# Fix: This is a known OpenClaw bug (#11187).";
    "# Workaround: clear the affected session file";
    "# Find session files with orphan tool calls:";
    "find ~/.openclaw/sessions -name " ++ dq ++ "*.jsonl" ++ dq ++ " -exec grep -l " ++ dq ++ "tool_call" ++ dq ++ " {} " ++ bs ++ "; 2>/dev/null | while read f; do";
    "  echo " ++ dq ++ "Checking: $f" ++ dq;
    "done";
    "echo " ++ dq ++ "⚠️  If issues persist, try: openclaw gateway restart" ++ dq;
    "echo " ++ dq ++ "This bug is tracked at: https://github.com/openclaw/openclaw/issues/11187" ++ dq
  ]
|}.

Definition high_token_usage : Issue := {|
  id := "high-token-usage";
  severity := medium;
  title := "High token consumption detected";
  description :=
    "Your configuration may be causing excessive token usage. Common causes: no context pruning, large workspace files being loaded every turn, or aggressive heartbeat intervals.";
  detect := fun diag =>
    try_catch
      (config <- get_prop diag "config" ;;
       let heartbeat := config ?. "agents" ?. "defaults" ?. "heartbeat" in
       config <- get_prop diag "config" ;;
       let pruning := config ?. "agents" ?. "defaults" ?. "contextPruning" in
       (* a && b is a when a is falsy, else b *)
       if truthy pruning then Normal (JBool false)
       else
         let every := heartbeat ?. "every" in
         if negb (truthy every) then Normal every
         else
           every <- get_prop heartbeat "every" ;;
           hit <- test {| body := Seq (Plus Digit) (lit "m");
                          ignoreCase := false; anchored := true |} every ;;
           if negb hit then Normal (JBool false)
           else
             every <- get_prop heartbeat "every" ;;
             n <- parseInt every ;;
             Normal (JBool (less_than n 30)))
      (fun _ => Normal (JBool false));
  fix_ := multiline [
    "# Fix: Reduce token usage";
    "# 1. Enable context pruning (see fix above)";
    "# 2. Increase heartbeat interval to 30+ minutes";
    "jq '.agents.defaults.heartbeat.every = " ++ dq ++ "30m" ++ dq ++ "' ~/.openclaw/openclaw.json > /tmp/oc-fix.json && " ++ bs;
    "  mv /tmp/oc-fix.json ~/.openclaw/openclaw.json";
    "# 3. Use a cheaper model for heartbeats";
    "jq '.agents.defaults.heartbeat.model = " ++ dq ++ "anthropic/claude-sonnet-4-6" ++ dq ++ "' ~/.openclaw/openclaw.json > /tmp/oc-fix.json && " ++ bs;
    "  mv /tmp/oc-fix.json ~/.openclaw/openclaw.json";
    "echo " ++ dq ++ "✅ Token usage optimized (30min heartbeat + Sonnet model)" ++ dq
  ]
|}.

Definition KNOWN_ISSUES : list Issue := [
  mem0_graph_free;
  gateway_not_running;
  port_conflict;
  browser_port_binding;
  no_hybrid_search;
  no_context_pruning;
  no_memory_flush;
  no_soul;
  no_memory_files;
  ggml_metal_crash;
  orphan_tool_calls;
  high_token_usage
].

(** The object [detectIssues] builds for a matched entry. *)
Module Detection.
Record t : Type := {
  id : string;
  severity : Severity;
  title : string;
  description : string;
  fix_ : string
}.
End Detection.

(** The callback of [filter]: the predicate's value is read for its
    truthiness, and a throwing predicate counts as no match. *)
Definition matched (diagnostic : JsVal) (issue : Issue) : bool :=
  match try_catch (detect issue diagnostic) (fun _ => Normal (JBool false)) with
  | Normal v => truthy v
  | Throw _ => false
  end.

(** The callback of [map]. *)
Definition project (issue : Issue) : Detection.t :=
  {| Detection.id := id issue;
     Detection.severity := severity issue;
     Detection.title := title issue;
     Detection.description := description issue;
     Detection.fix_ := fix_ issue |}.

(** [detectIssues] over an arbitrary catalog, and over [KNOWN_ISSUES]. *)
Definition detectIssuesIn (catalog : list Issue) (diagnostic : JsVal)
  : list Detection.t :=
  map project (filter (matched diagnostic) catalog).

Definition detectIssues (diagnostic : JsVal) : list Detection.t :=
  detectIssuesIn KNOWN_ISSUES diagnostic.

End KnownIssues.

(** ** The diagnose routes ([src/routes/diagnose.js]) *)

Module Diagnose.
Import Js KnownIssues.
Local Open Scope string_scope.

(** [hay.includes(needle)] *)
Fixpoint includes (needle hay : string) : bool :=
  String.prefix needle hay
  || match hay with
     | String _ rest => includes needle rest
     | EmptyString => false
     end.

(** A template literal's rendering of an array length. *)
Definition decimal (n : nat) : string := NilZero.string_of_uint (Nat.to_uint n).

(** What [analyzeWithAI] returns.  [raw] is present on the success path
    only. *)
Record AiAnalysis : Type := {
  summary : string;
  insights : string;
  additionalIssues : list JsVal;
  additionalFixes : string;
  raw : option string
}.

(** The provider is outside the program.  What [analyzeWithAI] sees of it is
    how its [try] block ends.  Either the request, the read of
    [message.content[0].text] and the three [extractSection] calls all
    complete; then [response] is the text read, [summary_text] the value of
    [extractSection(response, 'summary') || response.slice(0, 500)],
    [optimization_text] the value of
    [extractSection(response, 'optimization') || ''] and [fix_text] the
    value of [extractSection(response, 'fix') || ''].  Or one of them throws
    an error with a message: a rejected or timed-out request, a response
    with no content block or with no text in it. *)
Inductive TryOutcome : Type :=
| Completes (response summary_text optimization_text fix_text : string)
| Throws (message : string).

(** [analyzeWithAI(diagnostic, knownIssues)], given how the [try] block
    ends. *)
Definition analyzeWithAI (outcome : TryOutcome) (knownIssues : list Detection.t)
  : AiAnalysis :=
  match outcome with
  | Completes response summary_text optimization_text fix_text =>
      {| summary := summary_text;
         insights := optimization_text;
         additionalIssues := [];
         additionalFixes := fix_text;
         raw := Some response |}
  | Throws message =>
      {| summary := "Pattern matching found " ++ decimal (List.length knownIssues)
                    ++ " issue(s). AI analysis unavailable (" ++ message ++ ").";
         insights := EmptyString;
         additionalIssues := [];
         additionalFixes := EmptyString;
         raw := None |}
  end.

(** [lines.push(x)] *)
Definition push (lines : list string) (x : string) : list string :=
  (lines ++ [x])%list.

Definition nonempty (s : string) : bool :=
  match s with EmptyString => false | _ => true end.

(** The array [lines] at the end of [generateFixScript]; [now] is the value
    of [new Date().toISOString()]. *)
Definition script_lines (knownIssues : list Detection.t) (aiAnalysis : AiAnalysis)
  (fixId now : string) : list string :=
  let lines := [
    "#!/usr/bin/env bash";
    "# ClawFix Fix Script — " ++ fixId;
    "# Generated: " ++ now;
    "# Review each step before running!";
    "#";
    "# Usage: bash fix.sh";
    EmptyString;
    "set -euo pipefail";
    EmptyString;
    "# Backup current config";
    "if [ -f ~/.openclaw/openclaw.json ]; then";
    "  cp ~/.openclaw/openclaw.json ~/.openclaw/openclaw.json.bak.$(date +%s)";
    "  echo " ++ dq ++ "✅ Config backed up" ++ dq;
    "fi";
    EmptyString
  ] in
  (* Add known issue fixes *)
  let lines :=
    fold_left (fun lines issue =>
      let lines := push lines ("# ─── Fix: " ++ Detection.title issue ++ " ("
                               ++ severity_name (Detection.severity issue)
                               ++ ") ───") in
      let lines := push lines ("# " ++ Detection.description issue) in
      let lines := push lines (Detection.fix_ issue) in
      push lines EmptyString) knownIssues lines in
  (* Add AI-generated fixes *)
  let lines :=
    if nonempty (additionalFixes aiAnalysis) then
      let lines := push lines "# ─── Additional AI-Recommended Fixes ───" in
      let lines := push lines (additionalFixes aiAnalysis) in
      push lines EmptyString
    else lines in
  (* Restart gateway *)
  let lines :=
    if existsb (fun i => includes "openclaw.json" (Detection.fix_ i)) knownIssues then
      let lines := push lines "# ─── Restart Gateway to Apply Changes ───" in
      let lines := push lines ("echo " ++ dq ++ "Restarting OpenClaw gateway..." ++ dq) in
      let lines := push lines ("openclaw gateway restart 2>/dev/null || echo " ++ dq
        ++ "⚠️  Could not restart gateway automatically. Run: openclaw gateway restart"
        ++ dq) in
      push lines EmptyString
    else lines in
  let lines := push lines ("echo " ++ dq ++ dq) in
  let lines := push lines ("echo " ++ dq
    ++ "🦞 All fixes applied! Run 'openclaw status' to verify." ++ dq) in
  let lines := push lines ("echo " ++ dq ++ "Fix ID: " ++ fixId ++ dq) in
  lines.

(** [generateFixScript]: [lines.join('\n')]. *)
Definition generateFixScript (knownIssues : list Detection.t)
  (aiAnalysis : AiAnalysis) (fixId now : string) : string :=
  String.concat nl (script_lines knownIssues aiAnalysis fixId now).

(** An entry of [knownIssues] in the stored result: the detection result
    without its fix text. *)
Module Summary.
Record t : Type := {
  id : string;
  severity : Severity;
  title : string;
  description : string
}.
End Summary.

(** The object [result] of the POST handler. *)
Record AnalysisResult : Type := {
  fixId : string;
  timestamp : string;
  issuesFound : nat;
  knownIssues : list Summary.t;
  analysis : string;
  fixScript : string;
  aiInsights : string
}.

(** *** The map [fixes]

    A JavaScript [Map] keeps its entries in insertion order; the model is
    the list of entries in that order, oldest first. *)
Definition Fixes := list (string * AnalysisResult).

(** [fixes.get(key)] *)
Fixpoint fixes_get (fixes : Fixes) (key : string) : option AnalysisResult :=
  match fixes with
  | [] => None
  | (k, v) :: rest => if String.eqb k key then Some v else fixes_get rest key
  end.

(** [fixes.set(key, value)]: a key already present keeps its place and takes
    the new value; a new key goes last. *)
Fixpoint fixes_set (fixes : Fixes) (key : string) (value : AnalysisResult) : Fixes :=
  match fixes with
  | [] => [(key, value)]
  | (k, v) :: rest =>
      if String.eqb k key then (k, value) :: rest
      else (k, v) :: fixes_set rest key value
  end.

(** [fixes.delete(key)] *)
Fixpoint fixes_delete (fixes : Fixes) (key : string) : Fixes :=
  match fixes with
  | [] => []
  | (k, v) :: rest =>
      if String.eqb k key then rest else (k, v) :: fixes_delete rest key
  end.

(** [fixes.size] *)
Definition fixes_size (fixes : Fixes) : nat := List.length fixes.

(** [fixes.keys().next().value] *)
Definition fixes_first_key (fixes : Fixes) : option string :=
  match fixes with
  | [] => None
  | (k, _) :: _ => Some k
  end.

(** *** The handlers *)

(** The calls a handler makes that reach outside the route, in order. *)
Inductive Call : Type :=
| CallDetectIssues (diagnostic : JsVal)
| CallAnalyzeWithAI (diagnostic : JsVal) (knownIds : list string)
| CallFixesSet (key : string)
| CallFixesDelete (key : string).

(** The process state a handler runs in: the map and the record of calls. *)
Record State : Type := {
  fixes : Fixes;
  calls : list Call
}.

(** A handler step reads and updates the state. *)
Definition M (A : Type) : Type := State -> A * State.

Definition ret {A} (a : A) : M A := fun st => (a, st).

Definition mbind {A B} (m : M A) (k : A -> M B) : M B :=
  fun st => let '(a, st') := m st in k a st'.

Definition record (c : Call) : M unit :=
  fun st => (tt, {| fixes := fixes st; calls := (calls st ++ [c])%list |}).

Definition read_fixes : M Fixes := fun st => (fixes st, st).

Definition write_fixes (f : Fixes) : M unit :=
  fun st => (tt, {| fixes := f; calls := calls st |}).

Local Notation "x <- m ;; k" := (mbind m (fun x => k))
  (at level 61, m at next level, right associativity).
Local Notation "m ;;; k" := (mbind m (fun _ => k))
  (at level 61, right associativity).

(** What a handler sends. *)
Inductive ResponseBody : Type :=
| ErrorBody (error : string) (message hint : option string)
| ResultBody (result : AnalysisResult)
| TextBody (text : string).

Record Response : Type := {
  status : nat;
  body : ResponseBody
}.

(** What the POST handler takes from outside: how the provider call ends,
    the identifier [nanoid(12)] returns and the two readings of the clock
    (one in [generateFixScript], one for [timestamp]). *)
Record Env : Type := {
  provider : JsVal -> list string -> TryOutcome;
  nanoid : string;
  script_clock : string;
  result_clock : string
}.

(** [diagnoseRouter.post('/diagnose', ...)] with [req.body = diagnostic].
    [express.json] leaves [req.body] undefined when no body was parsed.
    The handler's own [try]/[catch] answers 500 when its body throws; the
    one step of the body that is written as a throwing read here is
    [diagnostic.system], and it is only reached with a truthy
    [diagnostic]. *)
Definition post_diagnose (env : Env) (diagnostic : JsVal) : M Response :=
  match
    (if negb (truthy diagnostic) then Normal true
     else Js.bind (get_prop diagnostic "system")
            (fun system => Normal (negb (truthy system))))
  with
  | Throw message =>
      ret {| status := 500;
             body := ErrorBody "Diagnosis failed" (Some message)
               (Some "If this persists, report at https://github.com/ArcaHQ/clawfix/issues") |}
  | Normal true =>
      ret {| status := 400;
             body := ErrorBody "Invalid diagnostic payload" None
               (Some "Run the diagnostic script: curl -sSL clawfix.com/fix | bash") |}
  | Normal false =>
      (* Step 1: Pattern matching *)
      record (CallDetectIssues diagnostic) ;;;
      let knownIssues := detectIssues diagnostic in
      (* Step 2: AI analysis *)
      let knownIds := map Detection.id knownIssues in
      record (CallAnalyzeWithAI diagnostic knownIds) ;;;
      let aiAnalysis := analyzeWithAI (provider env diagnostic knownIds) knownIssues in
      let fixId := nanoid env in
      let fixScript := generateFixScript knownIssues aiAnalysis fixId (script_clock env) in
      let result := {|
        fixId := fixId;
        timestamp := result_clock env;
        issuesFound := List.length knownIssues + List.length (additionalIssues aiAnalysis);
        knownIssues := map (fun i => {|
          Summary.id := Detection.id i;
          Summary.severity := Detection.severity i;
          Summary.title := Detection.title i;
          Summary.description := Detection.description i |}) knownIssues;
        analysis := summary aiAnalysis;
        fixScript := fixScript;
        aiInsights := insights aiAnalysis
      |} in
      record (CallFixesSet fixId) ;;;
      fixes <- read_fixes ;;
      write_fixes (fixes_set fixes fixId result) ;;;
      (* Clean up old fixes (keep last 1000) *)
      fixes <- read_fixes ;;
      (if (1000 <? fixes_size fixes)%nat then
         match fixes_first_key fixes with
         | Some oldest =>
             record (CallFixesDelete oldest) ;;;
             write_fixes (fixes_delete fixes oldest)
         | None => ret tt
         end
       else ret tt) ;;;
      ret {| status := 200; body := ResultBody result |}
  end.

(** A GET request: the path parameter, the [Accept] header and the [format]
    query parameter. *)
Record FixRequest : Type := {
  param_fixId : string;
  header_accept : option string;
  query_format : option string
}.

Definition is_literal (expected : string) (actual : option string) : bool :=
  match actual with
  | Some s => String.eqb s expected
  | None => false
  end.

(** [diagnoseRouter.get('/fix/:fixId', ...)] *)
Definition get_fix (req : FixRequest) : M Response :=
  fixes <- read_fixes ;;
  match fixes_get fixes (param_fixId req) with
  | None =>
      ret {| status := 404;
             body := ErrorBody "Fix not found or expired" None None |}
  | Some fix_ =>
      if is_literal "text/plain" (header_accept req) || is_literal "script" (query_format req) then
        ret {| status := 200; body := TextBody (fixScript fix_) |}
      else
        ret {| status := 200; body := ResultBody fix_ |}
  end.

(** The state of a process that has served no request. *)
Definition initial : State := {| fixes := []; calls := [] |}.

End Diagnose.

(** ** Vocabulary of the statements *)

Module Shape.
Import Js KnownIssues Diagnose.
Local Open Scope string_scope.

(** The blocks of a fix script, as lists of the strings pushed onto
    [lines]. *)

(** The header and the backup step. *)
Definition header_block (fixId now : string) : list string := [
  "#!/usr/bin/env bash";
  "# ClawFix Fix Script — " ++ fixId;
  "# Generated: " ++ now;
  "# Review each step before running!";
  "#";
  "# Usage: bash fix.sh";
  EmptyString;
  "set -euo pipefail";
  EmptyString;
  "# Backup current config";
  "if [ -f ~/.openclaw/openclaw.json ]; then";
  "  cp ~/.openclaw/openclaw.json ~/.openclaw/openclaw.json.bak.$(date +%s)";
  "  echo " ++ dq ++ "✅ Config backed up" ++ dq;
  "fi";
  EmptyString
].

(** The titled block of one detection result. *)
Definition issue_header (issue : Detection.t) : string :=
  "# ─── Fix: " ++ Detection.title issue ++ " ("
  ++ severity_name (Detection.severity issue) ++ ") ───".

Definition issue_block (issue : Detection.t) : list string := [
  issue_header issue;
  "# " ++ Detection.description issue;
  Detection.fix_ issue;
  EmptyString
].

(** The block of provider-written fixes, present when there are any. *)
Definition ai_block (aiAnalysis : AiAnalysis) : list string :=
  if nonempty (additionalFixes aiAnalysis) then [
    "# ─── Additional AI-Recommended Fixes ───";
    additionalFixes aiAnalysis;
    EmptyString
  ] else [].

Definition restart_block : list string := [
  "# ─── Restart Gateway to Apply Changes ───";
  "echo " ++ dq ++ "Restarting OpenClaw gateway..." ++ dq;
  "openclaw gateway restart 2>/dev/null || echo " ++ dq
    ++ "⚠️  Could not restart gateway automatically. Run: openclaw gateway restart"
    ++ dq;
  EmptyString
].

Definition completion_banner (fixId : string) : list string := [
  "echo " ++ dq ++ dq;
  "echo " ++ dq ++ "🦞 All fixes applied! Run 'openclaw status' to verify." ++ dq;
  "echo " ++ dq ++ "Fix ID: " ++ fixId ++ dq
].

(** Some fix body of the detection results holds the marker. *)
Definition references_config (knownIssues : list Detection.t) : bool :=
  existsb (fun i => includes "openclaw.json" (Detection.fix_ i)) knownIssues.

Fixpoint lines_eqb (a b : list string) : bool :=
  match a, b with
  | [], [] => true
  | x :: a', y :: b' => String.eqb x y && lines_eqb a' b'
  | _, _ => false
  end.

(** A script carries a restart block when the four lines before its
    three-line completion banner are the restart block. *)
Definition restart_block_emitted (lines : list string) : bool :=
  lines_eqb (firstn 4 (skipn (List.length lines - 7) lines)) restart_block.

(** [l1] is [l2] with some elements left out, the others in place. *)
Inductive Subsequence {A : Type} : list A -> list A -> Prop :=
| sub_nil : Subsequence [] []
| sub_skip x l1 l2 : Subsequence l1 l2 -> Subsequence l1 (x :: l2)
| sub_take x l1 l2 : Subsequence l1 l2 -> Subsequence (x :: l1) (x :: l2).

(** critical before high before medium before low *)
Definition rank (s : Severity) : nat :=
  match s with critical => 0 | high => 1 | medium => 2 | low => 3 end.

Fixpoint ordered_by_severity (l : list Detection.t) : bool :=
  match l with
  | a :: (b :: _) as rest =>
      (rank (Detection.severity a) <=? rank (Detection.severity b))%nat
      && ordered_by_severity rest
  | _ => true
  end.

(** The POST handler accepts a body that is truthy and whose [system] is
    truthy. *)
Definition accepted (diagnostic : JsVal) : bool :=
  truthy diagnostic && truthy (opt_get diagnostic "system").

(** What the POST handler does to the map: [set], then drop the first key
    when the size exceeds 1000. *)
Definition store_result (fixes : Fixes) (key : string) (value : AnalysisResult)
  : Fixes :=
  let fixes := fixes_set fixes key value in
  if (1000 <? fixes_size fixes)%nat then
    match fixes_first_key fixes with
    | Some oldest => fixes_delete fixes oldest
    | None => fixes
    end
  else fixes.

(** The result the POST handler builds for a payload it accepts. *)
Definition diagnosis (env : Env) (diagnostic : JsVal) : AnalysisResult :=
  let known := detectIssues diagnostic in
  let aiAnalysis :=
    analyzeWithAI (provider env diagnostic (map Detection.id known)) known in
  {| fixId := nanoid env;
     timestamp := result_clock env;
     issuesFound := List.length known + List.length (additionalIssues aiAnalysis);
     knownIssues := map (fun i => {|
       Summary.id := Detection.id i;
       Summary.severity := Detection.severity i;
       Summary.title := Detection.title i;
       Summary.description := Detection.description i |}) known;
     analysis := summary aiAnalysis;
     fixScript := generateFixScript known aiAnalysis (nanoid env) (script_clock env);
     aiInsights := insights aiAnalysis |}.

(** The invariant of the map: at most 1000 entries, no key twice. *)
Definition store_ok (fixes : Fixes) : Prop :=
  List.length fixes <= 1000 /\ NoDup (map fst fixes).

(** The identifier a POST request is given, and the entry it stores. *)
Definition request_key (r : Env * JsVal) : string := nanoid (fst r).

Definition request_entry (r : Env * JsVal) : string * AnalysisResult :=
  (request_key r, diagnosis (fst r) (snd r)).

(** The state after a sequence of POST requests, each with what it takes
    from outside. *)
Definition serve (requests : list (Env * JsVal)) (st : State) : State :=
  fold_left (fun st r => snd (post_diagnose (fst r) (snd r) st)) requests st.

Fixpoint distinct (keys : list string) : bool :=
  match keys with
  | [] => true
  | k :: rest => negb (existsb (String.eqb k) rest) && distinct rest
  end.

(** A GET request for the script text of [key]. *)
Definition script_request (key : string) : FixRequest :=
  {| param_fixId := key; header_accept := Some "text/plain"; query_format := None |}.

(** A GET request for the stored result of [key]. *)
Definition json_request (key : string) : FixRequest :=
  {| param_fixId := key; header_accept := None; query_format := None |}.

Definition not_found : Response :=
  {| status := 404; body := ErrorBody "Fix not found or expired" None None |}.

Definition invalid_input : Response :=
  {| status := 400;
     body := ErrorBody "Invalid diagnostic payload" None
       (Some "Run the diagnostic script: curl -sSL clawfix.com/fix | bash") |}.

(** Sample payloads. *)

(** [{ system: {} }] *)
Definition minimal_payload : JsVal := JObj [("system", JObj [])].

(** Settings and workspace facts under which no feature-absent rule
    matches. *)
Definition healthy_agents : JsVal :=
  JObj [("defaults", JObj [
    ("memorySearch", JObj [("query", JObj [("hybrid", JObj [("enabled", JBool true)])])]);
    ("contextPruning", JObj [("mode", JStr (cu "cache-ttl"))]);
    ("compaction", JObj [("memoryFlush", JObj [("enabled", JBool true)])])])].

Definition healthy_workspace : JsVal :=
  JObj [("hasSoul", JBool true); ("memoryFiles", JNum 3)].

(** A payload on which no rule matches. *)
Definition healthy_payload : JsVal :=
  JObj [("system", JObj []);
        ("config", JObj [("agents", healthy_agents)]);
        ("workspace", healthy_workspace)].

(** A payload with graph memory enabled under the plugin key [key]. *)
Definition graph_payload (key : string) : JsVal :=
  JObj [("system", JObj []);
        ("config", JObj [
           ("plugins", JObj [("entries", JObj [
              (key, JObj [("config", JObj [("enableGraph", JBool true)])])])]);
           ("agents", healthy_agents)]);
        ("workspace", healthy_workspace)].

(** The same with nothing but [system] and the plugin entry. *)
Definition bare_graph_payload (key : string) : JsVal :=
  JObj [("system", JObj []);
        ("config", JObj [
           ("plugins", JObj [("entries", JObj [
              (key, JObj [("config", JObj [("enableGraph", JBool true)])])])])])].

(** [logs.errors] is an object with an own [toString] that is not a
    function: [{ system: {}, logs: { errors: { toString: 1 } } }]. *)
Definition hostile_logs_payload : JsVal :=
  JObj [("system", JObj []);
        ("logs", JObj [("errors", JObj [("toString", JNum 1)])])].

(** A provider that is down. *)
Definition provider_down (message : string) : JsVal -> list string -> TryOutcome :=
  fun _ _ => Throws message.

Definition sample_env (key : string) : Env :=
  {| provider := provider_down "connect ECONNREFUSED";
     nanoid := key;
     script_clock := "2026-01-01T00:00:00.000Z";
     result_clock := "2026-01-01T00:00:00.001Z" |}.

(** [n] requests with the minimal payload and the provider down, the
    [i]-th given the identifier [fix-i]. *)
Definition sample_requests (n : nat) : list (Env * JsVal) :=
  map (fun i => (sample_env ("fix-" ++ decimal i), minimal_payload)) (seq 0 n).

End Shape.

(** ** Vocabulary of the pattern rules *)

Module Patterns.
Import Js KnownIssues.
Local Open Scope string_scope.

(** The words a pattern matches in full: the language of [r], read with or
    without the [i] flag. *)
Inductive Lang (ignoreCase : bool) : regex -> jsstring -> Prop :=
| lang_eps : Lang ignoreCase Eps []
| lang_lit a c :
    canonicalize ignoreCase a = canonicalize ignoreCase c ->
    Lang ignoreCase (Lit a) [c]
| lang_dot c : line_terminator c = false -> Lang ignoreCase Dot [c]
| lang_digit c : is_digit c = true -> Lang ignoreCase Digit [c]
| lang_all c : Lang ignoreCase All [c]
| lang_seq r s u v :
    Lang ignoreCase r u -> Lang ignoreCase s v ->
    Lang ignoreCase (Seq r s) (u ++ v)%list
| lang_alt_l r s u : Lang ignoreCase r u -> Lang ignoreCase (Alt r s) u
| lang_alt_r r s u : Lang ignoreCase s u -> Lang ignoreCase (Alt r s) u
| lang_star_nil r : Lang ignoreCase (Star r) []
| lang_star_cons r u v :
    Lang ignoreCase r u -> Lang ignoreCase (Star r) v ->
    Lang ignoreCase (Star r) (u ++ v)%list.

(** An ASCII letter in upper case; any other code unit as it is. *)
Definition upper (c : N) : N := canonicalize true c.

(** [w] spells [word], letter case aside. *)
Definition spells (word : string) (w : jsstring) : Prop :=
  map upper w = map upper (cu word).

(** [word] occurs in [s], letter case aside. *)
Definition occurs (word : string) (s : jsstring) : Prop :=
  exists before w after, s = (before ++ w ++ after)%list /\ spells word w.

(** No line terminator in [s]. *)
Definition one_line (s : jsstring) : Prop :=
  Forall (fun c => line_terminator c = false) s.

(** [first] occurs in [s] and [second] occurs after it on the same line. *)
Definition follows (first second : string) (s : jsstring) : Prop :=
  exists before w1 between w2 after,
    s = (before ++ w1 ++ between ++ w2 ++ after)%list
    /\ spells first w1 /\ one_line between /\ spells second w2.

(** [first], [second] and [third] occur in [s] in that order on one line. *)
Definition follows3 (first second third : string) (s : jsstring) : Prop :=
  exists before w1 gap1 w2 gap2 w3 after,
    s = (before ++ w1 ++ gap1 ++ w2 ++ gap2 ++ w3 ++ after)%list
    /\ spells first w1 /\ one_line gap1 /\ spells second w2
    /\ one_line gap2 /\ spells third w3.

(** A payload whose only log text is [errors]. *)
Definition errors_payload (errors : string) : JsVal :=
  JObj [("system", JObj []); ("logs", JObj [("errors", JStr (cu errors))])].

(** A payload with the two log texts. *)
Definition logs_payload (errors stderr : string) : JsVal :=
  JObj [("system", JObj []);
        ("logs", JObj [("errors", JStr (cu errors)); ("stderr", JStr (cu stderr))])].

(** A payload with a gateway status and, when [pid] is given, a process
    id. *)
Definition gateway_payload (status : string) (pid : option Z) : JsVal :=
  JObj [("system", JObj []);
        ("openclaw", JObj (("gatewayStatus", JStr (cu status))
           :: match pid with Some n => [("gatewayPid", JNum n)] | None => [] end))].

(** The number a run of decimal digits spells, continuing from [a]. *)
Definition digits_value (a : N) (digits : jsstring) : N :=
  fold_left (fun a c => a * 10 + (c - 48))%N digits a.

(** A payload with a heartbeat interval and no context pruning. *)
Definition heartbeat_payload (every : string) : JsVal :=
  JObj [("system", JObj []);
        ("config", JObj [("agents", JObj [("defaults", JObj [
           ("heartbeat", JObj [("every", JStr (cu every))])])])])].

End Patterns.

(** ** Section extraction, [src/routes/diagnose.js]

    [extractSection(text, keyword)] builds a pattern with the [i] flag,
    calls [text.match] and trims group 1.  The pattern reads: the start of
    the input or a line feed; optionally [#+\s*]; the keyword; [[:\s]*];
    a line feed; group 1, the lazy [[\s\S]*?]; and then, looked ahead and
    not consumed, a line feed and [#+], or the end of the input.

    The pattern has a lazy quantifier, a capture group and a lookahead, so
    it is run the way ECMAScript runs it: a backtracking matcher with
    continuations, tried at each start index in turn.

    [keyword] is spliced into the pattern source.  The program passes
    ['summary'], ['optimization'] and ['fix']; the model reads the keyword
    as a run of literal characters, which is what the source gives for a
    keyword of letters and digits. *)
Module Sections.
Import Js.
Local Open Scope string_scope.

(** The character sets of the pattern. *)
Inductive CharSet : Type :=
| Char (a : N)      (* a literal character *)
| Space             (* white space, \s *)
| ColonOrSpace      (* [:\s] *)
| Anything.         (* [\s\S] *)

(** CharacterSetMatcher: with the [i] flag a character is in the set when
    its canonical form is that of a member.  No character outside the
    white space set has a white space or a colon as its canonical form. *)
Definition in_set (ignoreCase : bool) (k : CharSet) (c : N) : bool :=
  match k with
  | Char a => (canonicalize ignoreCase a =? canonicalize ignoreCase c)%N
  | Space => is_whitespace c
  | ColonOrSpace => (c =? 58)%N || is_whitespace c
  | Anything => true
  end.

Inductive Pattern : Type :=
| Empty
| One (k : CharSet)
| Then (p q : Pattern)
| Or (p q : Pattern)                    (* p|q *)
| Many (greedy : bool) (k : CharSet)    (* k* and k*? *)
| Optional (p : Pattern)                (* (?:p)? *)
| InputStart                            (* ^ without the m flag *)
| InputEnd                              (* $ without the m flag *)
| Ahead (p : Pattern)                   (* (?=p) *)
| Capture (p : Pattern).                (* (p), group 1 *)

(** A match state: the index reached, the input from there on, and what
    group 1 holds. *)
Record MatchState : Type := {
  endIndex : nat;
  rest : jsstring;
  captured : option jsstring
}.

Definition Continuation : Type := MatchState -> option MatchState.

(** RepeatMatcher for a character set with no upper bound: a greedy
    quantifier tries one more character before the continuation, a lazy
    one tries the continuation first. *)
Fixpoint repeat_set (ignoreCase greedy : bool) (k : CharSet)
    (group : option jsstring) (c : Continuation) (s : jsstring) (i : nat)
    : option MatchState :=
  match s with
  | ch :: s' =>
      if in_set ignoreCase k ch then
        if greedy then
          match repeat_set ignoreCase greedy k group c s' (S i) with
          | Some r => Some r
          | None => c {| endIndex := i; rest := s; captured := group |}
          end
        else
          match c {| endIndex := i; rest := s; captured := group |} with
          | Some r => Some r
          | None => repeat_set ignoreCase greedy k group c s' (S i)
          end
      else c {| endIndex := i; rest := s; captured := group |}
  | [] => c {| endIndex := i; rest := s; captured := group |}
  end.

(** The matcher of a pattern: it calls the continuation [c] on each state
    the pattern can reach from [x], in priority order, until [c]
    succeeds. *)
Fixpoint matcher (ignoreCase : bool) (p : Pattern) (x : MatchState)
    (c : Continuation) : option MatchState :=
  match p with
  | Empty => c x
  | One k =>
      match rest x with
      | ch :: s' =>
          if in_set ignoreCase k ch
          then c {| endIndex := S (endIndex x); rest := s'; captured := captured x |}
          else None
      | [] => None
      end
  | Then p q => matcher ignoreCase p x (fun y => matcher ignoreCase q y c)
  | Or p q =>
      match matcher ignoreCase p x c with
      | Some r => Some r
      | None => matcher ignoreCase q x c
      end
  | Many greedy k =>
      repeat_set ignoreCase greedy k (captured x) c (rest x) (endIndex x)
  | Optional p =>
      (* an iteration that matches the empty string is refused *)
      match matcher ignoreCase p x
              (fun y => if (endIndex y =? endIndex x)%nat then None else c y) with
      | Some r => Some r
      | None => c x
      end
  | InputStart => if (endIndex x =? 0)%nat then c x else None
  | InputEnd => match rest x with [] => c x | _ :: _ => None end
  | Ahead p =>
      match matcher ignoreCase p x Some with
      | Some y => c {| endIndex := endIndex x; rest := rest x; captured := captured y |}
      | None => None
      end
  | Capture p =>
      matcher ignoreCase p x (fun y =>
        c {| endIndex := endIndex y; rest := rest y;
             captured := Some (firstn (endIndex y - endIndex x) (rest x)) |})
  end.

(** RegExpBuiltinExec without the [g] and [y] flags: the matcher is tried
    at index 0, then 1, and so on up to the length of the input. *)
Fixpoint exec_from (ignoreCase : bool) (p : Pattern) (s : jsstring) (i : nat)
    : option MatchState :=
  match matcher ignoreCase p {| endIndex := i; rest := s; captured := None |} Some with
  | Some r => Some r
  | None =>
      match s with
      | _ :: s' => exec_from ignoreCase p s' (S i)
      | [] => None
      end
  end.

Definition literal (s : string) : Pattern :=
  fold_right (fun a p => Then (One (Char a)) p) Empty (cu s).

(** [k+] *)
Definition at_least_one (k : CharSet) : Pattern := Then (One k) (Many true k).

(** The start of the input or a line feed. *)
Definition line_begin : Pattern := Or InputStart (One (Char 10)).

(** Optionally, [#+\s*]. *)
Definition heading_marker : Pattern :=
  Optional (Then (at_least_one (Char 35)) (Many true Space)).

(** Looked ahead: a line feed and [#+], or the end of the input. *)
Definition section_close : Pattern :=
  Ahead (Or (Then (One (Char 10)) (at_least_one (Char 35))) InputEnd).

(** The pattern of [extractSection] for [keyword]. *)
Definition section_pattern (keyword : string) : Pattern :=
  Then line_begin
 (Then heading_marker
 (Then (literal keyword)
 (Then (Many true ColonOrSpace)
 (Then (One (Char 10))
 (Then (Capture (Many false Anything))
       section_close))))).

(** [String.prototype.trim]: white space and line terminators are removed
    at both ends. *)
Definition trim (s : jsstring) : jsstring :=
  rev (skip_whitespace (rev (skip_whitespace s))).

(** [extractSection(text, keyword)] for a string [text]. *)
Definition extractSection (text : jsstring) (keyword : string)
    : Completion jsstring :=
  match exec_from true (section_pattern keyword) text 0 with
  | Some m =>
      match captured m with
      | Some group => Normal (trim group)
      | None => Throw "Cannot read properties of undefined (reading 'trim')"
      end
  | None => Normal []
  end.

(** What [analyzeWithAI] returns when the provider answers with the text
    [response]. *)
Record Analysis : Type := {
  summary : jsstring;
  insights : jsstring;
  additionalIssues : list JsVal;
  additionalFixes : jsstring;
  raw : jsstring
}.

(** [a || b] for a string [a]: the empty string is falsy. *)
Definition or_text (a b : jsstring) : jsstring :=
  match a with [] => b | _ :: _ => a end.

(** Lines 135-141 of [analyzeWithAI]: the object built from [response],
    a string.  [response.slice(0, 500)] is the first 500 code units. *)
Definition read_response (response : jsstring) : Completion Analysis :=
  bind (extractSection response "summary") (fun s =>
  bind (extractSection response "optimization") (fun o =>
  bind (extractSection response "fix") (fun f =>
  Normal {| summary := or_text s (firstn 500 response);
            insights := or_text o [];
            additionalIssues := [];
            additionalFixes := or_text f [];
            raw := response |}))).

(** *** What a match looks like *)

(** No capture group in [p]. *)
Fixpoint capture_free (p : Pattern) : bool :=
  match p with
  | Empty | One _ | Many _ _ | InputStart | InputEnd => true
  | Then p q | Or p q => capture_free p && capture_free q
  | Optional p | Ahead p => capture_free p
  | Capture _ => false
  end.

(** [Accepts ic p i w f]: at index [i], the pattern [p] can consume [w]
    when [f] is what follows. *)
Inductive Accepts (ignoreCase : bool)
    : Pattern -> nat -> jsstring -> jsstring -> Prop :=
| accepts_empty i f : Accepts ignoreCase Empty i [] f
| accepts_one k ch i f :
    in_set ignoreCase k ch = true -> Accepts ignoreCase (One k) i [ch] f
| accepts_then p q i u v f :
    Accepts ignoreCase p i u (v ++ f)%list ->
    Accepts ignoreCase q (i + List.length u) v f ->
    Accepts ignoreCase (Then p q) i (u ++ v)%list f
| accepts_or_l p q i w f :
    Accepts ignoreCase p i w f -> Accepts ignoreCase (Or p q) i w f
| accepts_or_r p q i w f :
    Accepts ignoreCase q i w f -> Accepts ignoreCase (Or p q) i w f
| accepts_many greedy k i w f :
    Forall (fun ch => in_set ignoreCase k ch = true) w ->
    Accepts ignoreCase (Many greedy k) i w f
| accepts_optional_none p i f : Accepts ignoreCase (Optional p) i [] f
| accepts_optional_some p i w f :
    Accepts ignoreCase p i w f -> Accepts ignoreCase (Optional p) i w f
| accepts_start f : Accepts ignoreCase InputStart 0 [] f
| accepts_end i : Accepts ignoreCase InputEnd i [] []
| accepts_ahead p i w f :
    Accepts ignoreCase p i w f -> Accepts ignoreCase (Ahead p) i [] (w ++ f)%list
| accepts_capture p i w f :
    Accepts ignoreCase p i w f -> Accepts ignoreCase (Capture p) i w f.

(** No white space at the start of [s]. *)
Definition starts_clean (s : jsstring) : bool :=
  match s with
  | c :: _ => negb (is_whitespace c)
  | [] => true
  end.

(** No white space at either end of [s]. *)
Definition trimmed (s : jsstring) : Prop :=
  starts_clean s = true /\ starts_clean (rev s) = true.

(** A colon or a white space character. *)
Definition colon_or_space (c : N) : Prop := in_set true ColonOrSpace c = true.

(** [before] ends where a line starts: it is empty or ends with a line
    feed. *)
Definition line_start (before : jsstring) : Prop :=
  before = [] \/ exists b, before = (b ++ [10%N])%list.

(** What may stand between the start of the line and the keyword: nothing,
    or a run of [#] and then white space, if any. *)
Definition marker (m : jsstring) : Prop :=
  m = [] \/ exists n spaces,
    m = (repeat 35%N (S n) ++ spaces)%list /\ Forall (fun c => is_whitespace c = true) spaces.

(** [s] starts with a line feed and [#]. *)
Definition starts_heading (s : jsstring) : bool :=
  match s with
  | a :: b :: _ => ((a =? 10) && (b =? 35))%N
  | _ => false
  end.

(** What may follow a section: the end of the text, or a line feed and
    [#]. *)
Definition section_end (tail : jsstring) : Prop :=
  tail = [] \/ starts_heading tail = true.

(** No line feed followed by [#] starts inside [body], when [tail] follows
    it. *)
Fixpoint no_heading_inside (body tail : jsstring) : bool :=
  match body with
  | c :: body' =>
      negb (starts_heading (body ++ tail)%list) && no_heading_inside body' tail
  | [] => true
  end.

(** [s] is empty or starts with a character other than a colon and white
    space. *)
Definition starts_plain (s : jsstring) : bool :=
  match s with
  | c :: _ => negb (in_set true ColonOrSpace c)
  | [] => true
  end.

(** An ASCII letter or digit. *)
Definition alphanumeric (c : N) : bool :=
  ((48 <=? c) && (c <=? 57) || (65 <=? c) && (c <=? 90)
   || (97 <=? c) && (c <=? 122))%N.

(** A keyword the pattern source reads as itself: letters and digits, at
    least one. *)
Definition plain (keyword : string) : bool :=
  negb (String.eqb keyword "") && forallb alphanumeric (cu keyword).

End Sections.

(** * Properties *)

Unset Implicit Arguments.
Import Js KnownIssues Diagnose Shape.
Local Open Scope string_scope.

(** ** The detector *)

Section Detector.

Variable diagnostic : JsVal.

Lemma matched_of_throw (issue : Issue) (message : string) :
  detect issue diagnostic = Throw message -> matched diagnostic issue = false.
Proof.
  intros H. unfold matched. rewrite H. reflexivity.
Qed.

Lemma detectIssuesIn_app (before after : list Issue) :
  detectIssuesIn (before ++ after) diagnostic
  = (detectIssuesIn before diagnostic ++ detectIssuesIn after diagnostic)%list.
Proof.
  unfold detectIssuesIn. rewrite filter_app, map_app. reflexivity.
Qed.

Lemma detectIssuesIn_cons (issue : Issue) (after : list Issue) :
  detectIssuesIn (issue :: after) diagnostic
  = if matched diagnostic issue
    then project issue :: detectIssuesIn after diagnostic
    else detectIssuesIn after diagnostic.
Proof.
  unfold detectIssuesIn. simpl. destruct (matched diagnostic issue); reflexivity.
Qed.

Lemma filter_subsequence {A : Type} (f : A -> bool) (l : list A) :
  Subsequence (filter f l) l.
Proof.
  induction l as [|x l IH]; simpl.
  - constructor.
  - destruct (f x); constructor; exact IH.
Qed.

Lemma map_subsequence {A B : Type} (g : A -> B) (l1 l2 : list A) :
  Subsequence l1 l2 -> Subsequence (map g l1) (map g l2).
Proof.
  induction 1; simpl; constructor; assumption.
Qed.

Lemma detectIssues_catalog_order :
  Subsequence (detectIssues diagnostic) (map project KNOWN_ISSUES).
Proof.
  unfold detectIssues, detectIssuesIn.
  apply map_subsequence, filter_subsequence.
Qed.

End Detector.

(** C1. When the predicate of a catalog entry throws on a payload, the
    detector returns what it returns for the catalog without that entry:
    the entry is not detected, and the entries before and after it are
    evaluated as if it were not there. *)
Theorem detectIssues_isolates_throwing_rule
  (before after : list Issue) (issue : Issue) (diagnostic : JsVal)
  (message : string) :
  detect issue diagnostic = Throw message ->
  detectIssuesIn (before ++ issue :: after) diagnostic
  = detectIssuesIn (before ++ after) diagnostic.
Proof.
  intros Hthrow.
  rewrite !detectIssuesIn_app, detectIssuesIn_cons.
  rewrite (matched_of_throw diagnostic issue message Hthrow). reflexivity.
Qed.

(** The port-conflict rule throws on [hostile_logs_payload]: the pattern
    test converts [logs.errors] to a string and the conversion fails.  The
    detector answers as the catalog without that rule does. *)
Lemma detectIssues_isolates_throwing_rule_witness :
  detect port_conflict hostile_logs_payload
    = Throw "Cannot convert object to primitive value"
  /\ detectIssues hostile_logs_payload
     = detectIssuesIn
         ([mem0_graph_free; gateway_not_running]
          ++ [browser_port_binding; no_hybrid_search; no_context_pruning;
              no_memory_flush; no_soul; no_memory_files; ggml_metal_crash;
              orphan_tool_calls; high_token_usage])
         hostile_logs_payload.
Proof.
  split.
  - reflexivity.
  - apply (detectIssues_isolates_throwing_rule
             [mem0_graph_free; gateway_not_running]
             [browser_port_binding; no_hybrid_search; no_context_pruning;
              no_memory_flush; no_soul; no_memory_files; ggml_metal_crash;
              orphan_tool_calls; high_token_usage]
             port_conflict hostile_logs_payload
             "Cannot convert object to primitive value").
    reflexivity.
Defined.

(** ** The composer *)

Section Composer.

Variables (aiAnalysis : AiAnalysis) (fixId now : string).

(** The loop over the detection results appends their blocks in order. *)
Lemma push_blocks (knownIssues : list Detection.t) (lines : list string) :
  fold_left (fun lines issue =>
      let lines := push lines ("# ─── Fix: " ++ Detection.title issue ++ " ("
                               ++ severity_name (Detection.severity issue)
                               ++ ") ───") in
      let lines := push lines ("# " ++ Detection.description issue) in
      let lines := push lines (Detection.fix_ issue) in
      push lines EmptyString) knownIssues lines
  = (lines ++ flat_map issue_block knownIssues)%list.
Proof.
  revert lines. induction knownIssues as [|issue rest IH]; intros lines; simpl.
  - rewrite app_nil_r. reflexivity.
  - rewrite IH. unfold push, issue_header. rewrite <- !app_assoc. reflexivity.
Qed.

(** The array [lines] is the header, the blocks of the detection results in
    the order given, the provider's block, the restart block when some fix
    body holds the marker, and the banner. *)
Lemma script_lines_shape (knownIssues : list Detection.t) :
  script_lines knownIssues aiAnalysis fixId now
  = (header_block fixId now
     ++ flat_map issue_block knownIssues
     ++ ai_block aiAnalysis
     ++ (if references_config knownIssues then restart_block else [])
     ++ completion_banner fixId)%list.
Proof.
  unfold script_lines. rewrite push_blocks.
  unfold ai_block, references_config, push.
  destruct (nonempty (additionalFixes aiAnalysis));
    destruct (existsb _ knownIssues);
    rewrite <- ?app_assoc; reflexivity.
Qed.

Lemma block_at (knownIssues : list Detection.t) (tail : list string) :
  forall i r, nth_error knownIssues i = Some r ->
  firstn 4 (skipn (4 * i) (flat_map issue_block knownIssues ++ tail)%list)
  = issue_block r.
Proof.
  induction knownIssues as [|a rest IH]; intros i r Hi.
  - destruct i; discriminate.
  - destruct i as [|i]; simpl in Hi.
    + injection Hi as <-. reflexivity.
    + replace (4 * S i) with (4 + 4 * i) by lia.
      change (flat_map issue_block (a :: rest) ++ tail)%list
        with (issue_block a ++ (flat_map issue_block rest ++ tail))%list.
      change (skipn (4 + 4 * i) (issue_block a ++ (flat_map issue_block rest ++ tail))%list)
        with (skipn (4 * i) (flat_map issue_block rest ++ tail)%list).
      apply IH. exact Hi.
Qed.

(** The block of the [i]-th detection result starts at line [15 + 4 * i]. *)
Lemma script_block_at (knownIssues : list Detection.t) :
  forall i r, nth_error knownIssues i = Some r ->
  firstn 4 (skipn (15 + 4 * i) (script_lines knownIssues aiAnalysis fixId now))
  = issue_block r.
Proof.
  intros i r Hi. rewrite script_lines_shape.
  match goal with
  | |- context [skipn (15 + 4 * i) (?h ++ ?rest)%list] =>
      change (skipn (15 + 4 * i) (h ++ rest)%list) with (skipn (4 * i) rest)
  end.
  apply block_at. exact Hi.
Qed.

End Composer.

(** C3. The blocks of the composed script are those of the detection
    results, one each, in the order the detector returned them: the block of
    the [i]-th result occupies the four lines from line [15 + 4 * i].  That
    order is catalog order, whatever the severities: the detection results
    are the catalog entries with the unmatched ones left out. *)
Theorem script_blocks_in_detection_order
  (diagnostic : JsVal) (aiAnalysis : AiAnalysis) (fixId now : string) :
  Subsequence (detectIssues diagnostic) (map project KNOWN_ISSUES)
  /\ forall i r,
       nth_error (detectIssues diagnostic) i = Some r ->
       firstn 4 (skipn (15 + 4 * i)
                   (script_lines (detectIssues diagnostic) aiAnalysis fixId now))
       = issue_block r.
Proof.
  split.
  - apply detectIssues_catalog_order.
  - apply script_block_at.
Qed.

(** On the minimal payload the third block, lines 23 to 26, is the one of
    the memory-flush rule, of severity high, after two blocks of severity
    medium. *)
Lemma script_blocks_in_detection_order_witness :
  nth_error (detectIssues minimal_payload) 2 = Some (project no_memory_flush)
  /\ firstn 4 (skipn (15 + 4 * 2)
       (script_lines (detectIssues minimal_payload)
          (analyzeWithAI (Throws "timeout") (detectIssues minimal_payload))
          "V1StGXR8_Z5j" "2026-01-01T00:00:00.000Z"))
     = issue_block (project no_memory_flush).
Proof.
  split.
  - reflexivity.
  - apply (proj2 (script_blocks_in_detection_order minimal_payload
             (analyzeWithAI (Throws "timeout") (detectIssues minimal_payload))
             "V1StGXR8_Z5j" "2026-01-01T00:00:00.000Z") 2 (project no_memory_flush)).
    reflexivity.
Defined.

(** C4, as the code has it.  The composed script is the header with the
    backup step, then the blocks of the detection results in the order the
    detector returned them (catalog order, not severity order), then the
    provider's fixes when there are any, then the restart block when a fix
    body of a detection result holds the marker, then the completion
    banner. *)
Theorem generateFixScript_structure
  (knownIssues : list Detection.t) (aiAnalysis : AiAnalysis) (fixId now : string) :
  generateFixScript knownIssues aiAnalysis fixId now
  = String.concat nl
      (header_block fixId now
       ++ flat_map issue_block knownIssues
       ++ ai_block aiAnalysis
       ++ (if references_config knownIssues then restart_block else [])
       ++ completion_banner fixId)%list.
Proof.
  unfold generateFixScript. rewrite script_lines_shape. reflexivity.
Qed.

(** C4 as stated fails: on the minimal payload the detection results are
    not in severity order, and the script carries the block of a
    medium-severity fix (line 15) before the block of a high-severity fix
    (line 23). *)
Lemma generateFixScript_not_severity_ordered :
  let knownIssues := detectIssues minimal_payload in
  let lines :=
    script_lines knownIssues (analyzeWithAI (Throws "timeout") knownIssues)
      "V1StGXR8_Z5j" "2026-01-01T00:00:00.000Z" in
  map Detection.severity knownIssues = [medium; medium; high; low]
  /\ ordered_by_severity knownIssues = false
  /\ nth_error lines 15 = Some "# ─── Fix: Hybrid search not enabled (medium) ───"
  /\ nth_error lines 23 = Some "# ─── Fix: Memory flush not enabled (high) ───".
Proof.
  vm_compute. repeat split.
Qed.

(** ** The restart gate *)

Lemma lines_eqb_refl (l : list string) : lines_eqb l l = true.
Proof.
  induction l as [|x l IH]; simpl; [reflexivity|].
  rewrite String.eqb_refl. exact IH.
Qed.

(** The four lines before a three-line banner. *)
Lemma four_before_banner (front block banner : list string) :
  List.length block = 4 -> List.length banner = 3 ->
  firstn 4 (skipn (List.length (front ++ block ++ banner)%list - 7)
              (front ++ block ++ banner)%list)
  = block.
Proof.
  intros Hblock Hbanner.
  assert (Hlen : List.length (front ++ block ++ banner)%list - 7 = List.length front)
    by (rewrite !length_app; lia).
  rewrite Hlen, skipn_app, skipn_all, Nat.sub_diag.
  change (skipn 0 (block ++ banner)%list) with (block ++ banner)%list.
  rewrite app_nil_l, <- Hblock, firstn_app, firstn_all, Nat.sub_diag.
  apply app_nil_r.
Qed.

(** Header and issue blocks together end with an empty line. *)
Lemma blocks_end_blank (fixId now : string) (knownIssues : list Detection.t) :
  exists front,
    (header_block fixId now ++ flat_map issue_block knownIssues)%list
    = (front ++ [EmptyString])%list.
Proof.
  induction knownIssues as [|r rest _] using rev_ind.
  - simpl flat_map. rewrite app_nil_r.
    exists (firstn 14 (header_block fixId now)). reflexivity.
  - rewrite flat_map_app.
    exists (header_block fixId now ++ flat_map issue_block rest
            ++ firstn 3 (issue_block r))%list.
    rewrite <- !app_assoc. reflexivity.
Qed.

(** Without the restart block, the four lines before the banner are not
    the restart block. *)
Lemma no_restart_block (knownIssues : list Detection.t) (aiAnalysis : AiAnalysis)
  (fixId now : string) :
  restart_block_emitted
    (header_block fixId now ++ flat_map issue_block knownIssues
     ++ ai_block aiAnalysis ++ completion_banner fixId)%list
  = false.
Proof.
  unfold restart_block_emitted, ai_block.
  destruct (nonempty (additionalFixes aiAnalysis)).
  - destruct (blocks_end_blank fixId now knownIssues) as [front Hfront].
    rewrite app_assoc, Hfront, <- app_assoc.
    rewrite (app_assoc [EmptyString]).
    rewrite four_before_banner by reflexivity. reflexivity.
  - change ([] ++ completion_banner fixId)%list with (completion_banner fixId).
    induction knownIssues as [|r rest _] using rev_ind.
    + reflexivity.
    + rewrite flat_map_app.
      change (flat_map issue_block [r]) with (issue_block r).
      rewrite <- (app_assoc (flat_map issue_block rest)).
      rewrite (app_assoc (header_block fixId now)).
      rewrite four_before_banner by reflexivity. reflexivity.
Qed.

(** C8, as the code has it.  The composed script carries the restart block
    exactly when the fix body of at least one detection result holds the
    marker [openclaw.json]; the provider's fix text is not looked at. *)
Theorem restart_block_iff_known_fix_references_config
  (knownIssues : list Detection.t) (aiAnalysis : AiAnalysis) (fixId now : string) :
  restart_block_emitted (script_lines knownIssues aiAnalysis fixId now)
  = existsb (fun i => includes "openclaw.json" (Detection.fix_ i)) knownIssues.
Proof.
  rewrite script_lines_shape. fold (references_config knownIssues).
  destruct (references_config knownIssues).
  - unfold restart_block_emitted.
    rewrite !app_assoc, <- (app_assoc _ restart_block).
    rewrite four_before_banner by reflexivity. apply lines_eqb_refl.
  - simpl app at 3. apply no_restart_block.
Qed.

(** C8 as stated fails.  On a payload with no detection result the
    provider answers with the text [## Fix], newline, a [jq] command that
    rewrites [openclaw.json]: there is no summary section, so the summary
    is the whole response, and the fix section is the command.  The marker
    is in an emitted fix body and the script has no restart block. *)
Lemma restart_block_ignores_ai_fixes :
  let command :=
    "jq '.gateway.port = 18790' ~/.openclaw/openclaw.json > /tmp/oc.json && mv /tmp/oc.json ~/.openclaw/openclaw.json" in
  let response := "## Fix" ++ nl ++ command in
  let knownIssues := detectIssues healthy_payload in
  let aiAnalysis :=
    analyzeWithAI (Completes response response EmptyString command) knownIssues in
  let lines :=
    script_lines knownIssues aiAnalysis "V1StGXR8_Z5j" "2026-01-01T00:00:00.000Z" in
  let script :=
    generateFixScript knownIssues aiAnalysis "V1StGXR8_Z5j" "2026-01-01T00:00:00.000Z" in
  knownIssues = []
  /\ includes "openclaw.json" (additionalFixes aiAnalysis) = true
  /\ nth_error lines 16 = Some (additionalFixes aiAnalysis)
  /\ restart_block_emitted lines = false
  /\ includes "Restart Gateway" script = false
  /\ includes "openclaw gateway restart" script = false.
Proof.
  vm_compute. repeat split.
Qed.

(** ** Single rules *)

Import Js.Notations.

Lemma get_prop_not_nullish (v : JsVal) (k : string) :
  is_nullish v = false -> get_prop v k = Normal (v ?. k).
Proof.
  destruct v; simpl; intros H; try discriminate; reflexivity.
Qed.

Lemma opt_get_nullish (v : JsVal) (k : string) :
  is_nullish v = true -> v ?. k = JUndefined.
Proof.
  destruct v; simpl; intros H; try discriminate; reflexivity.
Qed.

Lemma get_prop_nullish (v : JsVal) (k : string) :
  is_nullish v = true -> exists message, get_prop v k = Throw message.
Proof.
  destruct v; simpl; intros H; try discriminate; eexists; reflexivity.
Qed.

Lemma strict_equals_zero (v : JsVal) :
  strict_equals v (JNum 0) = true <-> v = JNum 0.
Proof.
  split.
  - destruct v; simpl; intros H; try discriminate.
    apply Z.eqb_eq in H. subst. reflexivity.
  - intros ->. reflexivity.
Qed.

(** The memory-files rule looks at [workspace?.memoryFiles] and nothing
    else. *)
Lemma matched_no_memory_files (diagnostic : JsVal) :
  matched diagnostic no_memory_files
  = strict_equals (diagnostic ?. "workspace" ?. "memoryFiles") (JNum 0).
Proof.
  destruct (is_nullish diagnostic) eqn:Hnull.
  - rewrite (opt_get_nullish diagnostic "workspace" Hnull).
    destruct (get_prop_nullish diagnostic "workspace" Hnull) as [m Hm].
    unfold matched. simpl detect. rewrite Hm. reflexivity.
  - unfold matched. simpl detect.
    rewrite (get_prop_not_nullish diagnostic "workspace" Hnull).
    simpl. destruct (strict_equals _ _); reflexivity.
Qed.

(** C10. The memory-files rule matches exactly when
    [workspace.memoryFiles] is the number 0.  It does not match when
    [workspace] is absent or when [workspace.memoryFiles] is absent, so a
    payload that holds [system] and nothing else triggers the four
    feature-absent rules and not this one. *)
Theorem no_memory_files_needs_zero_count (diagnostic system : JsVal) :
  (matched diagnostic no_memory_files = true
   <-> diagnostic ?. "workspace" ?. "memoryFiles" = JNum 0)
  /\ (diagnostic ?. "workspace" = JUndefined ->
      matched diagnostic no_memory_files = false)
  /\ (diagnostic ?. "workspace" ?. "memoryFiles" = JUndefined ->
      matched diagnostic no_memory_files = false)
  /\ map Detection.id (detectIssues (JObj [("system", system)]))
     = ["no-hybrid-search"; "no-context-pruning"; "no-memory-flush"; "no-soul"].
Proof.
  rewrite matched_no_memory_files. repeat split.
  - apply strict_equals_zero.
  - apply strict_equals_zero.
  - intros ->. reflexivity.
  - intros ->. reflexivity.
Qed.

(** The minimal payload has no [workspace]; a payload whose workspace
    reports zero memory files matches. *)
Lemma no_memory_files_needs_zero_count_witness :
  matched minimal_payload no_memory_files = false
  /\ matched (JObj [("system", JObj []);
                    ("workspace", JObj [("memoryFiles", JNum 0)])])
       no_memory_files = true.
Proof.
  split.
  - apply (proj1 (proj2 (no_memory_files_needs_zero_count
                           minimal_payload (JObj [])))).
    reflexivity.
  - apply (proj2 (proj1 (no_memory_files_needs_zero_count
       (JObj [("system", JObj []);
              ("workspace", JObj [("memoryFiles", JNum 0)])])
       (JObj [])))).
    reflexivity.
Defined.

(** The graph rule looks at the plugin entry [openclaw-mem0]. *)
Lemma matched_mem0_graph_free (diagnostic : JsVal) :
  matched diagnostic mem0_graph_free
  = strict_equals
      (diagnostic ?. "config" ?. "plugins" ?. "entries" ?. "openclaw-mem0"
         ?. "config" ?. "enableGraph")
      (JBool true).
Proof.
  destruct (is_nullish diagnostic) eqn:Hnull.
  - rewrite (opt_get_nullish diagnostic "config" Hnull).
    destruct (get_prop_nullish diagnostic "config" Hnull) as [m Hm].
    unfold matched. simpl detect. rewrite Hm. reflexivity.
  - unfold matched. simpl detect.
    rewrite (get_prop_not_nullish diagnostic "config" Hnull).
    simpl. destruct (strict_equals _ _); reflexivity.
Qed.

(** When one rule is the only one that matches, the detector returns the
    entries with its id. *)
Lemma filter_only (key : string) (diagnostic : JsVal) (catalog : list Issue) :
  forallb (fun issue => String.eqb (id issue) key || negb (matched diagnostic issue))
    catalog = true ->
  (forall issue, In issue catalog -> String.eqb (id issue) key = true ->
                 matched diagnostic issue = true) ->
  filter (matched diagnostic) catalog
  = filter (fun issue => String.eqb (id issue) key) catalog.
Proof.
  induction catalog as [|issue rest IH]; intros Hothers Hkey; simpl.
  - reflexivity.
  - simpl in Hothers. apply andb_true_iff in Hothers as [Hhere Hrest].
    rewrite IH; [|exact Hrest|intros i Hi; apply Hkey; right; exact Hi].
    destruct (String.eqb (id issue) key) eqn:Hid.
    + rewrite (Hkey issue (or_introl eq_refl) Hid). reflexivity.
    + simpl in Hhere. apply negb_true_iff in Hhere. rewrite Hhere. reflexivity.
Qed.

(** C7, as the code has it.  When
    [config.plugins.entries["openclaw-mem0"].config.enableGraph] is [true]
    and no other rule matches, detection returns the one result
    [mem0-graph-free] of severity critical, and the script is the header with
    the backup step, that one block, the provider's fixes if any, the
    restart block (the fix body rewrites [openclaw.json]) and the banner. *)
Theorem mem0_graph_scenario
  (diagnostic : JsVal) (aiAnalysis : AiAnalysis) (fixId now : string) :
  diagnostic ?. "config" ?. "plugins" ?. "entries" ?. "openclaw-mem0"
    ?. "config" ?. "enableGraph" = JBool true ->
  forallb (fun issue => String.eqb (id issue) "mem0-graph-free"
                        || negb (matched diagnostic issue)) KNOWN_ISSUES = true ->
  detectIssues diagnostic = [project mem0_graph_free]
  /\ map Detection.id (detectIssues diagnostic) = ["mem0-graph-free"]
  /\ map Detection.severity (detectIssues diagnostic) = [critical]
  /\ includes "openclaw.json" (fix_ mem0_graph_free) = true
  /\ script_lines (detectIssues diagnostic) aiAnalysis fixId now
     = (header_block fixId now
        ++ issue_block (project mem0_graph_free)
        ++ ai_block aiAnalysis
        ++ restart_block
        ++ completion_banner fixId)%list.
Proof.
  intros Hgraph Hothers.
  assert (Hdetect : detectIssues diagnostic = [project mem0_graph_free]).
  { unfold detectIssues, detectIssuesIn.
    rewrite (filter_only "mem0-graph-free" diagnostic KNOWN_ISSUES Hothers).
    - reflexivity.
    - intros issue Hin Hid.
      unfold KNOWN_ISSUES in Hin. simpl In in Hin.
      repeat (destruct Hin as [<- | Hin]; [try discriminate Hid|]).
      + rewrite matched_mem0_graph_free, Hgraph. reflexivity.
      + contradiction. }
  rewrite Hdetect. repeat split.
  rewrite script_lines_shape. reflexivity.
Qed.

(** The scenario holds of [graph_payload "openclaw-mem0"]. *)
Lemma mem0_graph_scenario_witness :
  map Detection.id (detectIssues (graph_payload "openclaw-mem0"))
  = ["mem0-graph-free"].
Proof.
  apply (mem0_graph_scenario (graph_payload "openclaw-mem0")
           (analyzeWithAI (Throws "timeout") [])
           "V1StGXR8_Z5j" "2026-01-01T00:00:00.000Z").
  - reflexivity.
  - reflexivity.
Defined.

(** C7 as stated fails: the rule does not read the plugin key [mem0].  With
    [entries["mem0"].config.enableGraph] true, detection returns nothing
    when the other rules are switched off, and the four feature-absent
    results when the payload holds nothing else; [mem0-graph-free] is in
    neither.  Under the key the rule does read, a payload that holds
    nothing else gives five results, the feature-absent ones among them. *)
Lemma mem0_key_is_not_read :
  (graph_payload "mem0") ?. "config" ?. "plugins" ?. "entries" ?. "mem0"
    ?. "config" ?. "enableGraph" = JBool true
  /\ detectIssues (graph_payload "mem0") = []
  /\ (bare_graph_payload "mem0") ?. "config" ?. "plugins" ?. "entries" ?. "mem0"
       ?. "config" ?. "enableGraph" = JBool true
  /\ map Detection.id (detectIssues (bare_graph_payload "mem0"))
     = ["no-hybrid-search"; "no-context-pruning"; "no-memory-flush"; "no-soul"]
  /\ map Detection.id (detectIssues (bare_graph_payload "openclaw-mem0"))
     = ["mem0-graph-free"; "no-hybrid-search"; "no-context-pruning";
        "no-memory-flush"; "no-soul"].
Proof.
  vm_compute. repeat split.
Qed.

(** ** Text containment *)

Lemma prefix_app_l (needle hay rest : string) :
  String.prefix needle hay = true -> String.prefix needle (hay ++ rest) = true.
Proof.
  revert needle. induction hay as [|c hay IH]; intros needle H.
  - destruct needle; [|discriminate]. destruct rest; reflexivity.
  - destruct needle as [|a needle]; [reflexivity|].
    simpl in *. destruct (ascii_dec a c); [apply IH; exact H | discriminate].
Qed.

Lemma includes_unfold (needle hay : string) :
  includes needle hay
  = String.prefix needle hay
    || match hay with
       | String _ rest => includes needle rest
       | EmptyString => false
       end.
Proof.
  destruct hay; reflexivity.
Qed.

Lemma includes_app_r (needle front hay : string) :
  includes needle hay = true -> includes needle (front ++ hay) = true.
Proof.
  intros H. induction front as [|c front IH]; [exact H|].
  change (String c front ++ hay) with (String c (front ++ hay)).
  rewrite includes_unfold, IH. apply orb_true_r.
Qed.

Lemma includes_app_l (needle hay rest : string) :
  includes needle hay = true -> includes needle (hay ++ rest) = true.
Proof.
  induction hay as [|c hay IH]; intros H.
  - rewrite includes_unfold in H. rewrite orb_false_r in H.
    rewrite includes_unfold. rewrite (prefix_app_l _ _ rest H). reflexivity.
  - rewrite includes_unfold in H. apply orb_true_iff in H as [H|H].
    + rewrite includes_unfold, (prefix_app_l _ _ rest H). reflexivity.
    + change (String c hay ++ rest) with (String c (hay ++ rest)).
      rewrite includes_unfold, (IH H). apply orb_true_r.
Qed.

Lemma prefix_refl (s : string) : String.prefix s s = true.
Proof.
  induction s as [|c s IH]; simpl; [reflexivity|].
  destruct (ascii_dec c c) as [_|Hne]; [exact IH | congruence].
Qed.

Lemma includes_refl (s : string) : includes s s = true.
Proof.
  rewrite includes_unfold, prefix_refl. reflexivity.
Qed.

(** ** The POST handler *)

Lemma truthy_not_nullish (v : JsVal) : truthy v = true -> is_nullish v = false.
Proof.
  destruct v; simpl; intros H; try discriminate; reflexivity.
Qed.

(** A body that is not accepted is answered with the invalid-input error,
    and the state is left as it was. *)
Lemma post_diagnose_rejected (env : Env) (diagnostic : JsVal) (st : State) :
  accepted diagnostic = false ->
  post_diagnose env diagnostic st = (invalid_input, st).
Proof.
  unfold accepted, post_diagnose. intros H.
  destruct (truthy diagnostic) eqn:Htruthy; simpl in *.
  - rewrite (get_prop_not_nullish _ _ (truthy_not_nullish _ Htruthy)).
    simpl. rewrite H. reflexivity.
  - reflexivity.
Qed.

(** An accepted body is answered with its diagnosis, which is stored. *)
Lemma post_diagnose_accepted (env : Env) (diagnostic : JsVal) (st : State) :
  accepted diagnostic = true ->
  fst (post_diagnose env diagnostic st)
    = {| status := 200; body := ResultBody (diagnosis env diagnostic) |}
  /\ fixes (snd (post_diagnose env diagnostic st))
     = store_result (fixes st) (nanoid env) (diagnosis env diagnostic).
Proof.
  unfold accepted, post_diagnose. intros H.
  apply andb_true_iff in H as [Htruthy Hsystem].
  rewrite Htruthy.
  rewrite (get_prop_not_nullish _ _ (truthy_not_nullish _ Htruthy)).
  change (negb true) with false. cbv iota. unfold Js.bind.
  rewrite Hsystem. change (negb true) with false. cbv iota.
  unfold store_result, mbind, record, read_fixes, write_fixes, ret. simpl.
  fold (diagnosis env diagnostic).
  destruct (1000 <? _)%nat; [|split; reflexivity].
  destruct (fixes_first_key _); split; reflexivity.
Qed.

(** An accepted body makes the handler call the detector, then the
    provider, then store the result. *)
Lemma post_diagnose_accepted_calls (env : Env) (diagnostic : JsVal) (st : State) :
  accepted diagnostic = true ->
  firstn (List.length (calls st) + 3) (calls (snd (post_diagnose env diagnostic st)))
  = (calls st
     ++ [CallDetectIssues diagnostic;
         CallAnalyzeWithAI diagnostic (map Detection.id (detectIssues diagnostic));
         CallFixesSet (nanoid env)])%list.
Proof.
  unfold accepted, post_diagnose. intros H.
  apply andb_true_iff in H as [Htruthy Hsystem].
  rewrite Htruthy.
  rewrite (get_prop_not_nullish _ _ (truthy_not_nullish _ Htruthy)).
  change (negb true) with false. cbv iota. unfold Js.bind.
  rewrite Hsystem. change (negb true) with false. cbv iota.
  unfold mbind, record, read_fixes, write_fixes, ret. simpl.
  destruct (1000 <? _)%nat; [destruct (fixes_first_key _)|]; simpl;
    rewrite <- !app_assoc; simpl app; rewrite firstn_app_2; reflexivity.
Qed.

(** C2. A request whose body is absent, or whose body has no [system], is
    answered with status 400, the error [Invalid diagnostic payload] and
    the hint to run the diagnostic script.  The state is unchanged: no call
    to the detector or to the provider is recorded and nothing is stored. *)
Theorem post_diagnose_rejects_missing_system
  (env : Env) (diagnostic : JsVal) (st : State) :
  diagnostic = JUndefined \/ get_prop diagnostic "system" = Normal JUndefined ->
  fst (post_diagnose env diagnostic st)
    = {| status := 400;
         body := ErrorBody "Invalid diagnostic payload" None
           (Some "Run the diagnostic script: curl -sSL clawfix.com/fix | bash") |}
  /\ calls (snd (post_diagnose env diagnostic st)) = calls st
  /\ fixes (snd (post_diagnose env diagnostic st)) = fixes st.
Proof.
  intros H.
  rewrite post_diagnose_rejected; [repeat split|].
  unfold accepted. destruct H as [-> | H]; [reflexivity|].
  destruct (is_nullish diagnostic) eqn:Hnull.
  - destruct diagnostic; try discriminate; reflexivity.
  - rewrite (get_prop_not_nullish _ _ Hnull) in H. injection H as ->.
    apply andb_false_r.
Qed.

(** An absent body and the body [{}], on a process that has served
    nothing. *)
Lemma post_diagnose_rejects_missing_system_witness :
  post_diagnose (sample_env "V1StGXR8_Z5j") JUndefined initial
    = (invalid_input, initial)
  /\ calls (snd (post_diagnose (sample_env "V1StGXR8_Z5j") (JObj []) initial)) = []
  /\ fixes (snd (post_diagnose (sample_env "V1StGXR8_Z5j") (JObj []) initial)) = [].
Proof.
  split.
  - reflexivity.
  - apply (post_diagnose_rejects_missing_system
             (sample_env "V1StGXR8_Z5j") (JObj []) initial).
    right. reflexivity.
Defined.

(** ** Degraded diagnosis *)

Lemma string_app_assoc (a b c : string) : (a ++ b) ++ c = a ++ (b ++ c).
Proof.
  induction a as [|x a IH]; simpl; [reflexivity | rewrite IH; reflexivity].
Qed.

Lemma concat_app (sep : string) (front back : list string) :
  front <> [] -> back <> [] ->
  String.concat sep (front ++ back)
  = String.concat sep front ++ sep ++ String.concat sep back.
Proof.
  intros Hfront Hback.
  induction front as [|x front IH]; [congruence|].
  destruct front as [|y front].
  - destruct back; [congruence | reflexivity].
  - change (String.concat sep ((x :: y :: front) ++ back))
      with (x ++ sep ++ String.concat sep ((y :: front) ++ back)).
    rewrite IH by discriminate.
    change (String.concat sep (x :: y :: front))
      with (x ++ sep ++ String.concat sep (y :: front)).
    rewrite !string_app_assoc. reflexivity.
Qed.

(** A joined text holds the joined text of each run of its parts. *)
Lemma includes_concat_block (sep : string) (front block back : list string) :
  block <> [] ->
  includes (String.concat sep block)
    (String.concat sep (front ++ block ++ back)) = true.
Proof.
  intros Hblock.
  assert (Hinner : includes (String.concat sep block)
                     (String.concat sep (block ++ back)) = true).
  { destruct back as [|z back].
    - rewrite app_nil_r. apply includes_refl.
    - rewrite concat_app by (assumption || discriminate).
      apply includes_app_l, includes_refl. }
  destruct front as [|x front]; [exact Hinner|].
  rewrite concat_app; [|discriminate|].
  - apply includes_app_r, includes_app_r, Hinner.
  - destruct block; [congruence | discriminate].
Qed.

Lemma flat_map_split {A B : Type} (f : A -> list B) (x : A) (l : list A) :
  In x l ->
  exists front back, flat_map f l = (front ++ f x ++ back)%list.
Proof.
  intros Hin. destruct (in_split _ _ Hin) as [l1 [l2 ->]].
  exists (flat_map f l1), (flat_map f l2).
  rewrite flat_map_app. reflexivity.
Qed.

(** C5. When the provider call fails on an accepted payload, the request
    is still answered with status 200.  The summary reports the number of
    pattern matches and that the provider was unavailable; insights and
    additional fixes are empty; the script has no provider block, holds the
    block of every detection result and ends with the completion banner,
    which is not empty. *)
Theorem diagnosis_survives_provider_failure
  (env : Env) (diagnostic : JsVal) (st : State) (message : string) :
  accepted diagnostic = true ->
  provider env diagnostic (map Detection.id (detectIssues diagnostic))
    = Throws message ->
  let known := detectIssues diagnostic in
  exists result,
    fst (post_diagnose env diagnostic st)
      = {| status := 200; body := ResultBody result |}
    /\ analysis result
       = "Pattern matching found " ++ decimal (List.length known)
         ++ " issue(s). AI analysis unavailable (" ++ message ++ ")."
    /\ aiInsights result = EmptyString
    /\ additionalFixes (analyzeWithAI (Throws message) known) = EmptyString
    /\ issuesFound result = List.length known
    /\ fixScript result
       = String.concat nl
           (header_block (nanoid env) (script_clock env)
            ++ flat_map issue_block known
            ++ (if references_config known then restart_block else [])
            ++ completion_banner (nanoid env))%list
    /\ (forall r, In r known ->
          includes (String.concat nl (issue_block r)) (fixScript result) = true)
    /\ includes (String.concat nl (completion_banner (nanoid env)))
         (fixScript result) = true
    /\ completion_banner (nanoid env) <> [].
Proof.
  intros Haccepted Hdown known.
  assert (Hdown' : provider env diagnostic (map Detection.id known) = Throws message)
    by exact Hdown.
  exists (diagnosis env diagnostic).
  assert (Hscript :
    fixScript (diagnosis env diagnostic)
    = String.concat nl
        (header_block (nanoid env) (script_clock env)
         ++ flat_map issue_block known
         ++ (if references_config known then restart_block else [])
         ++ completion_banner (nanoid env))%list).
  { unfold diagnosis. fold known. rewrite Hdown'. simpl fixScript.
    unfold generateFixScript. rewrite script_lines_shape. reflexivity. }
  split; [apply (post_diagnose_accepted env diagnostic st Haccepted)|].
  split; [unfold diagnosis; fold known; rewrite Hdown'; reflexivity|].
  split; [unfold diagnosis; fold known; rewrite Hdown'; reflexivity|].
  split; [reflexivity|].
  split; [unfold diagnosis; fold known; rewrite Hdown'; simpl; lia|].
  split; [exact Hscript|].
  rewrite Hscript. split; [|split].
  - intros r Hr.
    destruct (flat_map_split issue_block r known Hr) as [front [back Hsplit]].
    rewrite Hsplit, <- !app_assoc, app_assoc.
    apply includes_concat_block. discriminate.
  - rewrite !app_assoc.
    rewrite <- (app_nil_r (completion_banner (nanoid env))) at 2.
    apply includes_concat_block. discriminate.
  - discriminate.
Qed.

(** The minimal payload with the provider down. *)
Lemma diagnosis_survives_provider_failure_witness :
  exists result,
    fst (post_diagnose (sample_env "V1StGXR8_Z5j") minimal_payload initial)
      = {| status := 200; body := ResultBody result |}
    /\ analysis result
       = "Pattern matching found 4 issue(s). AI analysis unavailable (connect ECONNREFUSED)."
    /\ aiInsights result = EmptyString.
Proof.
  destruct (diagnosis_survives_provider_failure
              (sample_env "V1StGXR8_Z5j") minimal_payload initial
              "connect ECONNREFUSED" eq_refl eq_refl)
    as [result [Hresponse [Hanalysis [Hinsights _]]]].
  exists result. split; [exact Hresponse|]. split; [exact Hanalysis|exact Hinsights].
Defined.

(** ** The map [fixes] *)

Section Store.

Implicit Types (f : Fixes) (k : string) (v : AnalysisResult).

Lemma existsb_eqb_In k (keys : list string) :
  existsb (String.eqb k) keys = true <-> In k keys.
Proof.
  rewrite existsb_exists. split.
  - intros [x [Hin Heq]]. apply String.eqb_eq in Heq. subst. exact Hin.
  - intros Hin. exists k. split; [exact Hin | apply String.eqb_refl].
Qed.

Lemma distinct_NoDup (keys : list string) : distinct keys = true -> NoDup keys.
Proof.
  induction keys as [|k keys IH]; simpl; intros H; constructor.
  - apply andb_true_iff in H as [H _]. apply negb_true_iff in H.
    intros Hin. apply existsb_eqb_In in Hin. congruence.
  - apply IH. apply andb_true_iff in H as [_ H]. exact H.
Qed.

Lemma fixes_get_absent f k : ~ In k (map fst f) -> fixes_get f k = None.
Proof.
  induction f as [|[k' v'] f IH]; simpl; intros H; [reflexivity|].
  destruct (String.eqb_spec k' k) as [->|Hne].
  - exfalso. apply H. left. reflexivity.
  - apply IH. intros Hin. apply H. right. exact Hin.
Qed.

Lemma fixes_get_present f k v :
  NoDup (map fst f) -> In (k, v) f -> fixes_get f k = Some v.
Proof.
  induction f as [|[k' v'] f IH]; simpl; intros Hnodup Hin; [contradiction|].
  inversion Hnodup as [|? ? Hfresh Hrest]; subst.
  destruct Hin as [Heq|Hin].
  - injection Heq as -> ->. rewrite String.eqb_refl. reflexivity.
  - destruct (String.eqb_spec k' k) as [->|Hne].
    + exfalso. apply Hfresh. apply (in_map fst) in Hin. exact Hin.
    + apply IH; assumption.
Qed.

(** [set] on a key that is not in the map appends an entry. *)
Lemma fixes_set_fresh f k v :
  ~ In k (map fst f) -> fixes_set f k v = (f ++ [(k, v)])%list.
Proof.
  induction f as [|[k' v'] f IH]; simpl; intros H; [reflexivity|].
  destruct (String.eqb_spec k' k) as [->|Hne].
  - exfalso. apply H. left. reflexivity.
  - rewrite IH; [reflexivity|]. intros Hin. apply H. right. exact Hin.
Qed.

(** [set] on a key that is in the map keeps the keys as they are. *)
Lemma fixes_set_present f k v :
  In k (map fst f) -> map fst (fixes_set f k v) = map fst f.
Proof.
  induction f as [|[k' v'] f IH]; simpl; intros H; [contradiction|].
  destruct (String.eqb_spec k' k) as [->|Hne]; simpl.
  - reflexivity.
  - rewrite IH; [reflexivity|]. destruct H as [H|H]; [congruence | exact H].
Qed.

Lemma fixes_get_set_same f k v : fixes_get (fixes_set f k v) k = Some v.
Proof.
  induction f as [|[k' v'] f IH]; simpl.
  - rewrite String.eqb_refl. reflexivity.
  - destruct (String.eqb_spec k' k) as [->|Hne]; simpl.
    + rewrite String.eqb_refl. reflexivity.
    + destruct (String.eqb_spec k' k); [congruence | exact IH].
Qed.

Lemma fixes_get_set_other f k k' v :
  k <> k' -> fixes_get (fixes_set f k' v) k = fixes_get f k.
Proof.
  intros Hne. induction f as [|[k0 v0] f IH]; simpl.
  - destruct (String.eqb_spec k' k); [congruence | reflexivity].
  - destruct (String.eqb_spec k0 k') as [->|Hne']; simpl.
    + destruct (String.eqb_spec k' k); [congruence | reflexivity].
    + destruct (String.eqb_spec k0 k); [reflexivity | exact IH].
Qed.

Lemma fixes_get_delete_other f k k' :
  k <> k' -> fixes_get (fixes_delete f k') k = fixes_get f k.
Proof.
  intros Hne. induction f as [|[k0 v0] f IH]; simpl; [reflexivity|].
  destruct (String.eqb_spec k0 k') as [->|Hne']; simpl.
  - destruct (String.eqb_spec k' k); [congruence | reflexivity].
  - destruct (String.eqb_spec k0 k); [reflexivity | exact IH].
Qed.

Lemma fixes_get_delete_same f k :
  NoDup (map fst f) -> fixes_get (fixes_delete f k) k = None.
Proof.
  induction f as [|[k0 v0] f IH]; simpl; intros H; [reflexivity|].
  inversion H as [|? ? Hfresh Hrest]; subst.
  destruct (String.eqb_spec k0 k) as [->|Hne]; simpl.
  - apply fixes_get_absent. exact Hfresh.
  - destruct (String.eqb_spec k0 k); [congruence | apply IH; exact Hrest].
Qed.

Lemma fixes_set_NoDup f k v :
  NoDup (map fst f) -> NoDup (map fst (fixes_set f k v)).
Proof.
  intros H. destruct (in_dec string_dec k (map fst f)) as [Hin|Hout].
  - rewrite fixes_set_present; assumption.
  - rewrite fixes_set_fresh by exact Hout.
    rewrite map_app. simpl. apply NoDup_app; [exact H | repeat constructor; tauto |].
    intros x Hx [<-|[]]. exact (Hout Hx).
Qed.

Lemma fixes_set_length f k v :
  List.length (fixes_set f k v) = List.length f
  \/ (~ In k (map fst f) /\ fixes_set f k v = (f ++ [(k, v)])%list).
Proof.
  destruct (in_dec string_dec k (map fst f)) as [Hin|Hout].
  - left. rewrite <- (length_map fst), fixes_set_present, length_map; trivial.
  - right. split; [exact Hout | apply fixes_set_fresh; exact Hout].
Qed.

Lemma fixes_delete_first k v f : fixes_delete ((k, v) :: f) k = f.
Proof.
  simpl. rewrite String.eqb_refl. reflexivity.
Qed.

(** What the handler does to a full or non-full map when the key is new. *)
Lemma store_result_fresh f k v :
  ~ In k (map fst f) ->
  store_result f k v
  = if (1000 <=? List.length f)%nat then (tl f ++ [(k, v)])%list
    else (f ++ [(k, v)])%list.
Proof.
  intros Hout. unfold store_result, fixes_size.
  rewrite (fixes_set_fresh f k v Hout), length_app. simpl List.length.
  destruct (Nat.leb_spec 1000 (List.length f)) as [Hfull|Hroom];
    destruct (Nat.ltb_spec 1000 (List.length f + 1)) as [Hover|Hfit]; try lia.
  - destruct f as [|[k0 v0] f]; [simpl in Hfull; lia|].
    simpl. rewrite String.eqb_refl. reflexivity.
  - reflexivity.
Qed.

Lemma store_result_ok f k v : store_ok f -> store_ok (store_result f k v).
Proof.
  intros [Hlen Hnodup]. unfold store_result, fixes_size.
  pose proof (fixes_set_NoDup f k v Hnodup) as Hset.
  destruct (Nat.ltb_spec 1000 (List.length (fixes_set f k v))) as [Hover|Hfit].
  - destruct (fixes_set_length f k v) as [Hsame | [Hout Happ]]; [lia|].
    rewrite Happ in *. rewrite length_app in Hover. simpl in Hover.
    destruct f as [|[k0 v0] f]; [simpl in Hover; lia|].
    simpl app. simpl fixes_first_key. cbv iota. rewrite fixes_delete_first.
    split.
    + rewrite length_app. simpl in *. lia.
    + simpl in Hset. inversion Hset; assumption.
  - split; [exact Hfit | exact Hset].
Qed.

(** A stored result is there to be read back. *)
Lemma store_result_get_same f k v :
  store_ok f -> fixes_get (store_result f k v) k = Some v.
Proof.
  intros [Hlen Hnodup]. unfold store_result, fixes_size.
  destruct (Nat.ltb_spec 1000 (List.length (fixes_set f k v))) as [Hover|Hfit];
    [|apply fixes_get_set_same].
  destruct (fixes_set_length f k v) as [Hsame | [Hout Happ]]; [lia|].
  rewrite Happ in *. rewrite length_app in Hover. simpl in Hover.
  destruct f as [|[k0 v0] f]; [simpl in Hover; lia|].
  simpl app. simpl fixes_first_key. cbv iota. rewrite fixes_delete_first.
  rewrite <- (fixes_set_fresh f k v); [apply fixes_get_set_same|].
  intros Hin. apply Hout. right. exact Hin.
Qed.

(** Storing under another key leaves an entry as it is, or evicts it. *)
Lemma store_result_get_other f k k' v :
  store_ok f -> k <> k' ->
  fixes_get (store_result f k' v) k = fixes_get f k
  \/ fixes_get (store_result f k' v) k = None.
Proof.
  intros [Hlen Hnodup] Hne. unfold store_result, fixes_size.
  destruct (1000 <? _)%nat;
    [|left; apply fixes_get_set_other; exact Hne].
  destruct (fixes_first_key (fixes_set f k' v)) as [oldest|];
    [|left; apply fixes_get_set_other; exact Hne].
  destruct (string_dec k oldest) as [->|Hother].
  - right. apply fixes_get_delete_same, fixes_set_NoDup, Hnodup.
  - left. rewrite fixes_get_delete_other by exact Hother.
    apply fixes_get_set_other. exact Hne.
Qed.

End Store.

(** ** Sequences of requests *)

Lemma post_diagnose_ok (env : Env) (diagnostic : JsVal) (st : State) :
  store_ok (fixes st) -> store_ok (fixes (snd (post_diagnose env diagnostic st))).
Proof.
  intros Hok. destruct (accepted diagnostic) eqn:Haccepted.
  - rewrite (proj2 (post_diagnose_accepted env diagnostic st Haccepted)).
    apply store_result_ok, Hok.
  - rewrite (post_diagnose_rejected env diagnostic st Haccepted). exact Hok.
Qed.

Lemma serve_ok (requests : list (Env * JsVal)) (st : State) :
  store_ok (fixes st) -> store_ok (fixes (serve requests st)).
Proof.
  revert st. induction requests as [|r requests IH]; intros st Hok; [exact Hok|].
  apply IH, post_diagnose_ok, Hok.
Qed.

Lemma initial_ok : store_ok (fixes initial).
Proof.
  split; simpl; [lia | constructor].
Qed.

(** Accepted requests act on the map by [store_result]. *)
Lemma serve_fixes (requests : list (Env * JsVal)) (st : State) :
  forallb (fun r => accepted (snd r)) requests = true ->
  fixes (serve requests st)
  = fold_left (fun f r => store_result f (fst (request_entry r)) (snd (request_entry r)))
      requests (fixes st).
Proof.
  revert st. induction requests as [|[env d] requests IH]; intros st Hall;
    [reflexivity|].
  simpl in Hall. apply andb_true_iff in Hall as [Hd Hall].
  simpl. rewrite (IH _ Hall).
  rewrite (proj2 (post_diagnose_accepted env d st Hd)). reflexivity.
Qed.

Lemma fold_left_over_map {A B C : Type} (g : B -> C) (f : A -> C -> A)
  (l : list B) (a : A) :
  fold_left f (map g l) a = fold_left (fun a x => f a (g x)) l a.
Proof.
  revert a. induction l as [|x l IH]; intros a; [reflexivity | apply IH].
Qed.

Lemma tl_skipn {A : Type} (m : nat) (l : list A) : tl (skipn m l) = skipn (S m) l.
Proof.
  revert l. induction m as [|m IH]; intros [|x l]; try reflexivity.
  simpl skipn at 1. rewrite IH. reflexivity.
Qed.

Lemma NoDup_app_disjoint {A : Type} (l1 l2 : list A) (x : A) :
  NoDup (l1 ++ l2) -> In x l1 -> ~ In x l2.
Proof.
  induction l1 as [|a l1 IH]; simpl; intros Hnodup Hin; [contradiction|].
  inversion Hnodup as [|? ? Hfresh Hrest]; subst.
  destruct Hin as [->|Hin].
  - intros H2. apply Hfresh. apply in_or_app. right. exact H2.
  - apply IH; assumption.
Qed.

Lemma In_skipn {A : Type} (m : nat) (l : list A) (x : A) :
  In x (skipn m l) -> In x l.
Proof.
  intros H. rewrite <- (firstn_skipn m l). apply in_or_app. right. exact H.
Qed.

(** Entries with pairwise distinct keys, stored one after the other into an
    empty map, leave the last 1000 of them, in the order of insertion. *)
Lemma store_sequence (entries : list (string * AnalysisResult)) :
  NoDup (map fst entries) ->
  fold_left (fun f e => store_result f (fst e) (snd e)) entries []
  = skipn (List.length entries - 1000) entries.
Proof.
  induction entries as [|[k v] entries IH] using rev_ind; intros Hnodup;
    [reflexivity|].
  rewrite map_app in Hnodup. simpl in Hnodup.
  assert (Hfresh : ~ In k (map fst entries)).
  { intros Hin. apply (NoDup_app_disjoint _ _ k Hnodup Hin). left. reflexivity. }
  apply NoDup_app_remove_r in Hnodup.
  rewrite fold_left_app. simpl fold_left. rewrite (IH Hnodup).
  rewrite store_result_fresh.
  2:{ intros Hin. apply Hfresh. rewrite <- skipn_map in Hin.
      apply (In_skipn _ _ _ Hin). }
  rewrite length_skipn, length_app. simpl List.length.
  destruct (Nat.leb_spec 1000
              (List.length entries - (List.length entries - 1000))) as [Hfull|Hroom].
  - rewrite tl_skipn.
    replace (List.length entries + 1 - 1000) with (S (List.length entries - 1000))
      by lia.
    rewrite skipn_app.
    replace (S (List.length entries - 1000) - List.length entries) with 0 by lia.
    reflexivity.
  - replace (List.length entries - 1000) with 0 by lia.
    replace (List.length entries + 1 - 1000) with 0 by lia.
    reflexivity.
Qed.

(** The GET handler reads the map and leaves the state alone. *)
Lemma get_fix_response (req : FixRequest) (st : State) :
  fst (get_fix req st)
  = match fixes_get (fixes st) (param_fixId req) with
    | None => not_found
    | Some stored =>
        if is_literal "text/plain" (header_accept req)
           || is_literal "script" (query_format req)
        then {| status := 200; body := TextBody (fixScript stored) |}
        else {| status := 200; body := ResultBody stored |}
    end.
Proof.
  unfold get_fix, mbind, read_fixes, ret. simpl.
  destruct (fixes_get (fixes st) (param_fixId req)); [|reflexivity].
  destruct (_ || _); reflexivity.
Qed.

Lemma get_fix_state (req : FixRequest) (st : State) : snd (get_fix req st) = st.
Proof.
  unfold get_fix, mbind, read_fixes, ret. simpl.
  destruct (fixes_get (fixes st) (param_fixId req)); [|reflexivity].
  destruct (_ || _); reflexivity.
Qed.

(** C6. Serve any sequence of accepted requests with pairwise distinct
    identifiers, from a fresh process.  The map then holds at most 1000
    entries; its keys are the identifiers of the last 1000 requests, in
    the order they were served, so the entries evicted are exactly the
    earliest ones.  Retrieving the identifier of an evicted request, or an
    identifier never given out, answers not-found; retrieving a retained
    one answers with the result that its POST request returned.  A
    retrieval leaves the map as it is, so the order of eviction is the
    order of insertion. *)
Theorem result_store_keeps_latest_1000 (requests : list (Env * JsVal)) :
  forallb (fun r => accepted (snd r)) requests = true ->
  distinct (map request_key requests) = true ->
  let st := serve requests initial in
  let evicted := List.length requests - 1000 in
  fixes_size (fixes st) <= 1000
  /\ map fst (fixes st) = skipn evicted (map request_key requests)
  /\ (forall i env diagnostic,
        nth_error requests i = Some (env, diagnostic) ->
        fst (get_fix (json_request (nanoid env)) st)
        = if (i <? evicted)%nat then not_found
          else fst (post_diagnose env diagnostic (serve (firstn i requests) initial)))
  /\ (forall key,
        ~ In key (map request_key requests) ->
        fst (get_fix (json_request key) st) = not_found)
  /\ (forall req, snd (get_fix req st) = st).
Proof.
  intros Hall Hdistinct st evicted.
  apply distinct_NoDup in Hdistinct.
  assert (Hkeys : map fst (map request_entry requests) = map request_key requests).
  { rewrite map_map. reflexivity. }
  assert (Hfixes : fixes st = skipn evicted (map request_entry requests)).
  { unfold st. rewrite (serve_fixes requests initial Hall).
    rewrite <- (fold_left_over_map request_entry
                  (fun f e => store_result f (fst e) (snd e))).
    rewrite store_sequence by (rewrite Hkeys; exact Hdistinct).
    rewrite length_map. reflexivity. }
  assert (Hsplit : NoDup (firstn evicted (map request_key requests)
                          ++ skipn evicted (map request_key requests))%list).
  { rewrite firstn_skipn. exact Hdistinct. }
  assert (Hretained : NoDup (map fst (fixes st))).
  { rewrite Hfixes, <- skipn_map, Hkeys. apply (NoDup_app_remove_l _ _ Hsplit). }
  split; [apply (serve_ok requests initial initial_ok)|].
  split; [rewrite Hfixes, <- skipn_map, Hkeys; reflexivity|].
  split; [|split; [|intros req; apply get_fix_state]].
  - intros i env diagnostic Hi.
    rewrite get_fix_response. simpl param_fixId. simpl orb. cbv iota.
    destruct (Nat.ltb_spec i evicted) as [Hgone|Hkept].
    + rewrite fixes_get_absent; [reflexivity|].
      rewrite Hfixes, <- skipn_map, Hkeys.
      apply (NoDup_app_disjoint _ _ _ Hsplit).
      apply (nth_error_In _ i). rewrite nth_error_firstn.
      destruct (Nat.ltb_spec i evicted); [|lia].
      apply (map_nth_error request_key _ _ Hi).
    + assert (Haccepted : accepted diagnostic = true).
      { rewrite forallb_forall in Hall.
        apply (Hall (env, diagnostic)), (nth_error_In _ _ Hi). }
      rewrite (proj1 (post_diagnose_accepted env diagnostic _ Haccepted)).
      rewrite (fixes_get_present _ _ (diagnosis env diagnostic) Hretained);
        [reflexivity|].
      rewrite Hfixes. apply (nth_error_In _ (i - evicted)).
      rewrite nth_error_skipn.
      replace (evicted + (i - evicted)) with i by lia.
      apply (map_nth_error request_entry _ _ Hi).
  - intros key Hunknown.
    rewrite get_fix_response. simpl param_fixId.
    rewrite fixes_get_absent; [reflexivity|].
    rewrite Hfixes, <- skipn_map, Hkeys.
    intros Hin. apply Hunknown, (In_skipn _ _ _ Hin).
Qed.

(** 1001 requests: the first identifier is evicted, the second is kept. *)
Lemma result_store_keeps_latest_1000_witness :
  let st := serve (sample_requests 1001) initial in
  fixes_size (fixes st) <= 1000
  /\ fst (get_fix (json_request "fix-0") st) = not_found
  /\ fst (get_fix (json_request "fix-1") st)
     = fst (post_diagnose (sample_env "fix-1") minimal_payload
              (serve (firstn 1 (sample_requests 1001)) initial)).
Proof.
  assert (Haccepted :
    forallb (fun r => accepted (snd r)) (sample_requests 1001) = true)
    by (vm_compute; reflexivity).
  assert (Hdistinct : distinct (map request_key (sample_requests 1001)) = true)
    by (vm_compute; reflexivity).
  destruct (result_store_keeps_latest_1000 (sample_requests 1001)
              Haccepted Hdistinct) as [Hsize [_ [Hget _]]].
  split; [exact Hsize|]. split.
  - exact (Hget 0 (sample_env "fix-0") minimal_payload eq_refl).
  - exact (Hget 1 (sample_env "fix-1") minimal_payload eq_refl).
Defined.

(** C9. A result stored by an accepted POST request is read back by the
    GET handler with the script text it was stored with.  This holds right
    after the request, in any state the process can be in; and after any
    further requests under other identifiers the script is either still
    read back unchanged or the entry has been evicted. *)
Theorem stored_script_round_trip
  (earlier later : list (Env * JsVal)) (env : Env) (diagnostic : JsVal) :
  accepted diagnostic = true ->
  forallb (fun r => negb (String.eqb (request_key r) (nanoid env))) later = true ->
  let st0 := serve earlier initial in
  let st1 := snd (post_diagnose env diagnostic st0) in
  let st2 := serve later st1 in
  exists result,
    fst (post_diagnose env diagnostic st0)
      = {| status := 200; body := ResultBody result |}
    /\ fixId result = nanoid env
    /\ fixes_get (fixes st1) (fixId result) = Some result
    /\ fst (get_fix (script_request (fixId result)) st1)
       = {| status := 200; body := TextBody (fixScript result) |}
    /\ (fst (get_fix (script_request (fixId result)) st2)
          = {| status := 200; body := TextBody (fixScript result) |}
        \/ fst (get_fix (script_request (fixId result)) st2) = not_found).
Proof.
  intros Haccepted Hother st0 st1 st2.
  exists (diagnosis env diagnostic).
  assert (Hok0 : store_ok (fixes st0)) by apply (serve_ok earlier initial initial_ok).
  assert (Hstored : fixes_get (fixes st1) (nanoid env) = Some (diagnosis env diagnostic)).
  { unfold st1. rewrite (proj2 (post_diagnose_accepted env diagnostic st0 Haccepted)).
    apply store_result_get_same, Hok0. }
  assert (Hok1 : store_ok (fixes st1)) by apply (post_diagnose_ok env diagnostic st0 Hok0).
  split; [apply (post_diagnose_accepted env diagnostic st0 Haccepted)|].
  split; [reflexivity|].
  split; [exact Hstored|].
  split; [rewrite get_fix_response; simpl param_fixId; rewrite Hstored; reflexivity|].
  assert (Hlater :
    fixes_get (fixes st2) (nanoid env) = Some (diagnosis env diagnostic)
    \/ fixes_get (fixes st2) (nanoid env) = None).
  { unfold st2. clearbody st1. clear st2 Hok0.
    revert st1 Hstored Hok1 Hother.
    induction later as [|[env' d'] later IH]; intros st1 Hstored Hok1 Hother.
    - left. exact Hstored.
    - simpl in Hother. apply andb_true_iff in Hother as [Hkey Hother].
      apply negb_true_iff in Hkey. unfold request_key in Hkey. simpl in Hkey.
      apply String.eqb_neq in Hkey.
      simpl serve.
      assert (Hok1' : store_ok (fixes (snd (post_diagnose env' d' st1))))
        by apply (post_diagnose_ok env' d' st1 Hok1).
      assert (Hstep :
        fixes_get (fixes (snd (post_diagnose env' d' st1))) (nanoid env)
          = Some (diagnosis env diagnostic)
        \/ fixes_get (fixes (snd (post_diagnose env' d' st1))) (nanoid env) = None).
      { destruct (accepted d') eqn:Hd'.
        - rewrite (proj2 (post_diagnose_accepted env' d' st1 Hd')).
          destruct (store_result_get_other (fixes st1) (nanoid env) (nanoid env')
                      (diagnosis env' d') Hok1 (not_eq_sym Hkey)) as [Hsame|Hgone].
          + left. rewrite Hsame. exact Hstored.
          + right. exact Hgone.
        - rewrite (post_diagnose_rejected env' d' st1 Hd'). left. exact Hstored. }
      destruct Hstep as [Hkept|Hgone].
      + apply (IH _ Hkept Hok1' Hother).
      + right. clear IH Hstored Hok1.
        revert Hgone Hok1' Hother. generalize (snd (post_diagnose env' d' st1)).
        induction later as [|[env2 d2] later IH2]; intros st Hgone Hok Hother;
          [exact Hgone|].
        simpl in Hother. apply andb_true_iff in Hother as [Hkey2 Hother].
        apply negb_true_iff in Hkey2. unfold request_key in Hkey2. simpl in Hkey2.
        apply String.eqb_neq in Hkey2.
        simpl serve.
        apply IH2; [|apply (post_diagnose_ok env2 d2 st Hok)|exact Hother].
        destruct (accepted d2) eqn:Hd2.
        * rewrite (proj2 (post_diagnose_accepted env2 d2 st Hd2)).
          destruct (store_result_get_other (fixes st) (nanoid env) (nanoid env2)
                      (diagnosis env2 d2) Hok (not_eq_sym Hkey2)) as [Hsame|Hnone].
          -- rewrite Hsame. exact Hgone.
          -- exact Hnone.
        * rewrite (post_diagnose_rejected env2 d2 st Hd2). exact Hgone. }
  rewrite get_fix_response. simpl param_fixId.
  destruct Hlater as [-> | ->]; [left | right]; reflexivity.
Qed.

(** A first request on a fresh process, read back at once and after one
    more request. *)
Lemma stored_script_round_trip_witness :
  exists result,
    fst (post_diagnose (sample_env "fix-0") minimal_payload initial)
      = {| status := 200; body := ResultBody result |}
    /\ fixId result = "fix-0"
    /\ fst (get_fix (script_request (fixId result))
              (snd (post_diagnose (sample_env "fix-0") minimal_payload initial)))
       = {| status := 200; body := TextBody (fixScript result) |}.
Proof.
  destruct (stored_script_round_trip [] [(sample_env "fix-1", minimal_payload)]
              (sample_env "fix-0") minimal_payload eq_refl eq_refl)
    as [result [Hresponse [Hid [_ [Hread _]]]]].
  exists result. split; [exact Hresponse|]. split; [exact Hid | exact Hread].
Defined.

(** * Further properties *)

Import Patterns.

(** ** Regular expressions *)

Section Regex.

Variable ic : bool.

Lemma lang_seq_inv (r s : regex) (w : jsstring) :
  Lang ic (Seq r s) w ->
  exists u v, w = (u ++ v)%list /\ Lang ic r u /\ Lang ic s v.
Proof.
  intros H. inversion H; subst. eauto.
Qed.

Lemma lang_alt_inv (r s : regex) (w : jsstring) :
  Lang ic (Alt r s) w -> Lang ic r w \/ Lang ic s w.
Proof.
  intros H. inversion H; subst; auto.
Qed.

Lemma nullable_lang (r : regex) : nullable r = true <-> Lang ic r [].
Proof.
  induction r as [| | a | | | | r1 IH1 r2 IH2 | r1 IH1 r2 IH2 | r IH]; simpl.
  - split; intros H; [discriminate | inversion H].
  - split; intros H; [constructor | reflexivity].
  - split; intros H; [discriminate | inversion H].
  - split; intros H; [discriminate | inversion H].
  - split; intros H; [discriminate | inversion H].
  - split; intros H; [discriminate | inversion H].
  - rewrite andb_true_iff, IH1, IH2. split.
    + intros [H1 H2]. change (@nil N) with (@nil N ++ [])%list.
      constructor; assumption.
    + intros H. apply lang_seq_inv in H as [u [v [Heq [Hu Hv]]]].
      symmetry in Heq. apply app_eq_nil in Heq as [-> ->]. split; assumption.
  - rewrite orb_true_iff, IH1, IH2. split.
    + intros [H|H]; [apply lang_alt_l | apply lang_alt_r]; exact H.
    + apply lang_alt_inv.
  - split; intros H; [constructor | reflexivity].
Qed.

Lemma lang_void (w : jsstring) : ~ Lang ic Void w.
Proof.
  intros H. inversion H.
Qed.

Lemma lang_eps_inv (w : jsstring) : Lang ic Eps w -> w = [].
Proof.
  intros H. inversion H. reflexivity.
Qed.

Lemma mkSeq_lang (r s : regex) (w : jsstring) :
  Lang ic (mkSeq r s) w <-> Lang ic (Seq r s) w.
Proof.
  assert (Hvoid_l : forall s' w', Lang ic (Seq Void s') w' -> False).
  { intros s' w' H. apply lang_seq_inv in H as [u [v [_ [Hu _]]]].
    exact (lang_void _ Hu). }
  assert (Hvoid_r : forall r' w', Lang ic (Seq r' Void) w' -> False).
  { intros r' w' H. apply lang_seq_inv in H as [u [v [_ [_ Hv]]]].
    exact (lang_void _ Hv). }
  assert (Heps : forall s' w', Lang ic s' w' <-> Lang ic (Seq Eps s') w').
  { intros s' w'. split; intros H.
    - change w' with ([] ++ w')%list. constructor; [constructor | exact H].
    - apply lang_seq_inv in H as [u [v [-> [Hu Hv]]]].
      apply lang_eps_inv in Hu. subst. exact Hv. }
  destruct r; destruct s; simpl; try tauto;
    try (split; intros H; [destruct (lang_void _ H) | exfalso; eauto]);
    try apply Heps.
Qed.

Lemma mkAlt_lang (r s : regex) (w : jsstring) :
  Lang ic (mkAlt r s) w <-> Lang ic (Alt r s) w.
Proof.
  assert (Hl : forall s', Lang ic s' w <-> Lang ic (Alt Void s') w).
  { intros s'. split; intros H; [apply lang_alt_r, H|].
    apply lang_alt_inv in H as [H|H]; [destruct (lang_void _ H) | assumption]. }
  assert (Hr : forall r', Lang ic r' w <-> Lang ic (Alt r' Void) w).
  { intros r'. split; intros H; [apply lang_alt_l, H|].
    apply lang_alt_inv in H as [H|H]; [assumption | destruct (lang_void _ H)]. }
  destruct r; destruct s; simpl; try tauto; try apply Hl; try apply Hr.
Qed.

Lemma of_bool_lang (b : bool) (w : jsstring) :
  Lang ic (of_bool b) w <-> b = true /\ w = [].
Proof.
  destruct b; simpl; split.
  - intros H. apply lang_eps_inv in H. auto.
  - intros [_ ->]. constructor.
  - intros H. destruct (lang_void _ H).
  - intros [H _]. discriminate.
Qed.

(** A non-empty word of [Star r] starts with a non-empty word of [r]. *)
Lemma lang_star_cons_inv (r : regex) (c : N) (w : jsstring) :
  Lang ic (Star r) (c :: w) ->
  exists u v, w = (u ++ v)%list /\ Lang ic r (c :: u) /\ Lang ic (Star r) v.
Proof.
  intros H. remember (Star r) as sr eqn:Hsr. remember (c :: w) as cw eqn:Hcw.
  revert Hsr Hcw.
  induction H as [| | | | | | | | |r0 u v Hu _ Hv IH]; intros Hsr Hcw;
    try discriminate.
  injection Hsr as ->.
  destruct u as [|x u]; simpl in Hcw.
  - apply IH; [reflexivity | exact Hcw].
  - injection Hcw as Hx Hw. subst x w.
    exists u, v. repeat split; assumption.
Qed.

Lemma deriv_lang (c : N) (r : regex) (w : jsstring) :
  Lang ic (deriv ic c r) w <-> Lang ic r (c :: w).
Proof.
  revert w. induction r; intros w; simpl.
  - split; intros H; inversion H.
  - split; intros H; inversion H.
  - rewrite of_bool_lang. split.
    + intros [H ->]. apply N.eqb_eq in H. constructor. exact H.
    + intros H. inversion H; subst. split; [apply N.eqb_eq; assumption | reflexivity].
  - rewrite of_bool_lang. split.
    + intros [H ->]. apply negb_true_iff in H. constructor. exact H.
    + intros H. inversion H; subst. split; [apply negb_true_iff; assumption | reflexivity].
  - rewrite of_bool_lang. split.
    + intros [H ->]. constructor. exact H.
    + intros H. inversion H; subst. split; [assumption | reflexivity].
  - split.
    + intros H. apply lang_eps_inv in H. subst. constructor.
    + intros H. inversion H; subst. constructor.
  - assert (Hleft : Lang ic (mkSeq (deriv ic c r1) r2) w
                    <-> exists u v, w = (u ++ v)%list /\ Lang ic r1 (c :: u) /\ Lang ic r2 v).
    { rewrite mkSeq_lang. split.
      - intros H. apply lang_seq_inv in H as [u [v [-> [Hu Hv]]]].
        exists u, v. repeat split; [apply IHr1|]; assumption.
      - intros [u [v [-> [Hu Hv]]]]. constructor; [apply IHr1|]; assumption. }
    assert (Hseq : Lang ic (Seq r1 r2) (c :: w)
                   <-> (exists u v, w = (u ++ v)%list /\ Lang ic r1 (c :: u) /\ Lang ic r2 v)
                       \/ (Lang ic r1 [] /\ Lang ic r2 (c :: w))).
    { split.
      - intros H. apply lang_seq_inv in H as [u [v [Heq [Hu Hv]]]].
        destruct u as [|x u]; simpl in Heq.
        + right. subst. split; assumption.
        + injection Heq as -> ->. left. exists u, v. repeat split; assumption.
      - intros [[u [v [-> [Hu Hv]]]] | [Hu Hv]].
        + change (c :: u ++ v)%list with ((c :: u) ++ v)%list. constructor; assumption.
        + change (c :: w) with ([] ++ c :: w)%list. constructor; assumption. }
    rewrite Hseq. destruct (nullable r1) eqn:Hnull.
    + rewrite mkAlt_lang. split.
      * intros H. apply lang_alt_inv in H as [H|H].
        -- left. apply Hleft. assumption.
        -- right. split; [apply nullable_lang; assumption | apply IHr2; assumption].
      * intros [H | [_ H]].
        -- apply lang_alt_l, Hleft, H.
        -- apply lang_alt_r, IHr2, H.
    + rewrite Hleft. split; [auto|].
      intros [H | [H _]]; [exact H|].
      apply nullable_lang in H. congruence.
  - rewrite mkAlt_lang. split.
    + intros H. apply lang_alt_inv in H as [H|H];
        [apply lang_alt_l, IHr1 | apply lang_alt_r, IHr2]; assumption.
    + intros H. apply lang_alt_inv in H as [H|H];
        [apply lang_alt_l, IHr1 | apply lang_alt_r, IHr2]; assumption.
  - rewrite mkSeq_lang. split.
    + intros H. apply lang_seq_inv in H as [u [v [-> [Hu Hv]]]].
      change (c :: u ++ v)%list with ((c :: u) ++ v)%list.
      constructor; [apply IHr|]; assumption.
    + intros H. apply lang_star_cons_inv in H as [u [v [-> [Hu Hv]]]].
      constructor; [apply IHr|]; assumption.
Qed.

(** The derivative matcher decides the language of a pattern. *)
Lemma matches_lang (r : regex) (s : jsstring) :
  matches ic r s = true <-> Lang ic r s.
Proof.
  unfold matches. revert r. induction s as [|c s IH]; intros r; simpl.
  - apply nullable_lang.
  - rewrite IH. apply deriv_lang.
Qed.

Lemma lang_star_all (s : jsstring) : Lang ic (Star All) s.
Proof.
  induction s as [|c s IH]; [constructor|].
  change (c :: s) with ([c] ++ s)%list. constructor; [constructor | exact IH].
Qed.

(** A pattern with no anchor matches when some part of the input is in its
    language. *)
Lemma search_lang (r : regex) (s : jsstring) :
  matches ic (Seq (Star All) (Seq r (Star All))) s = true
  <-> exists before w after, s = (before ++ w ++ after)%list /\ Lang ic r w.
Proof.
  rewrite matches_lang. split.
  - intros H. apply lang_seq_inv in H as [u [v [-> [_ Hv]]]].
    apply lang_seq_inv in Hv as [u' [v' [-> [Hu' _]]]].
    exists u, u', v'. split; [reflexivity | assumption].
  - intros [before [w [after [-> Hw]]]].
    constructor; [apply lang_star_all|]. constructor; [exact Hw | apply lang_star_all].
Qed.

End Regex.

(** ** What the log patterns match *)

Section Words.

Variable ic : bool.

Lemma lang_literal (l : list N) (w : jsstring) :
  Lang ic (fold_right (fun c r => Seq (Lit c) r) Eps l) w
  <-> map (canonicalize ic) w = map (canonicalize ic) l.
Proof.
  revert w. induction l as [|a l IH]; intros w; simpl.
  - split.
    + intros H. apply lang_eps_inv in H. subst. reflexivity.
    + intros H. destruct w; [constructor | discriminate].
  - split.
    + intros H. apply lang_seq_inv in H as [u [v [-> [Hu Hv]]]].
      inversion Hu; subst. simpl. f_equal; [congruence | apply IH; exact Hv].
    + intros H. destruct w as [|c w]; [discriminate|].
      simpl in H. injection H as Hc Hw.
      change (c :: w) with ([c] ++ w)%list.
      constructor; [constructor; congruence | apply IH; exact Hw].
Qed.

Lemma lang_star_dot (w : jsstring) : Lang ic (Star Dot) w <-> one_line w.
Proof.
  split.
  - intros H. remember (Star Dot) as sd eqn:Hsd. revert Hsd.
    induction H as [| | | | | | | | |r u v Hu _ Hv IH]; intros Hsd;
      try discriminate; [constructor|].
    injection Hsd as ->. inversion Hu; subst.
    constructor; [assumption | apply IH; reflexivity].
  - intros H. induction H as [|c w Hc _ IH]; [constructor|].
    change (c :: w) with ([c] ++ w)%list.
    constructor; [constructor; exact Hc | exact IH].
Qed.

End Words.

Lemma lang_word (word : string) (w : jsstring) :
  Lang true (lit word) w <-> spells word w.
Proof.
  apply lang_literal.
Qed.

(** [/first.*second/i], matched in full. *)
Lemma lang_then (first second : string) (w : jsstring) :
  Lang true (Seq (lit first) (Seq (Star Dot) (lit second))) w
  <-> exists w1 between w2,
        w = (w1 ++ between ++ w2)%list
        /\ spells first w1 /\ one_line between /\ spells second w2.
Proof.
  split.
  - intros H. apply lang_seq_inv in H as [w1 [rest [-> [H1 H]]]].
    apply lang_seq_inv in H as [between [w2 [-> [Hb H2]]]].
    exists w1, between, w2. repeat split;
      [apply lang_word | apply (lang_star_dot true) | apply lang_word]; assumption.
  - intros [w1 [between [w2 [-> [H1 [Hb H2]]]]]].
    constructor; [apply lang_word; exact H1|].
    constructor; [apply lang_star_dot; exact Hb | apply lang_word; exact H2].
Qed.

(** [/word/i.test(s)] *)
Lemma test_word (word : string) (s : jsstring) :
  test_string (regexp_i (lit word)) s = true <-> occurs word s.
Proof.
  unfold test_string, regexp_i, occurs. simpl. rewrite search_lang.
  split; intros [before [w [after [Hs Hw]]]]; exists before, w, after;
    (split; [exact Hs | apply lang_word; exact Hw]).
Qed.

(** [/first.*second/i.test(s)] *)
Lemma search_then (first second : string) (s : jsstring) :
  (exists before w after,
      s = (before ++ w ++ after)%list
      /\ Lang true (Seq (lit first) (Seq (Star Dot) (lit second))) w)
  <-> follows first second s.
Proof.
  unfold follows. split.
  - intros [before [w [after [-> Hw]]]].
    apply lang_then in Hw as [w1 [between [w2 [-> [H1 [Hb H2]]]]]].
    exists before, w1, between, w2, after.
    rewrite <- !app_assoc. repeat split; assumption.
  - intros [before [w1 [between [w2 [after [-> [H1 [Hb H2]]]]]]]].
    exists before, (w1 ++ between ++ w2)%list, after.
    rewrite <- !app_assoc. split; [reflexivity|].
    apply lang_then. exists w1, between, w2. repeat split; assumption.
Qed.

(** [/first.*second.*third/i.test(s)] *)
Lemma search_then3 (first second third : string) (s : jsstring) :
  (exists before w after,
      s = (before ++ w ++ after)%list
      /\ Lang true (Seq (lit first) (Seq (Star Dot)
                     (Seq (lit second) (Seq (Star Dot) (lit third))))) w)
  <-> follows3 first second third s.
Proof.
  unfold follows3. split.
  - intros [before [w [after [-> Hw]]]].
    apply lang_seq_inv in Hw as [w1 [rest [-> [H1 H]]]].
    apply lang_seq_inv in H as [gap1 [rest' [-> [Hg1 H]]]].
    apply lang_then in H as [w2 [gap2 [w3 [-> [H2 [Hg2 H3]]]]]].
    exists before, w1, gap1, w2, gap2, w3, after.
    rewrite <- !app_assoc. repeat split;
      try assumption; [apply lang_word | apply (lang_star_dot true)]; assumption.
  - intros [before [w1 [gap1 [w2 [gap2 [w3 [after
             [-> [H1 [Hg1 [H2 [Hg2 H3]]]]]]]]]]]].
    exists before, (w1 ++ gap1 ++ w2 ++ gap2 ++ w3)%list, after.
    rewrite <- !app_assoc. split; [reflexivity|].
    constructor; [apply lang_word; exact H1|].
    constructor; [apply lang_star_dot; exact Hg1|].
    apply lang_then. exists w2, gap2, w3. repeat split; assumption.
Qed.

(** An alternation with no anchor matches when one of its branches does. *)
Lemma search_alt (r s : regex) (x : jsstring) :
  (exists before w after, x = (before ++ w ++ after)%list /\ Lang true (Alt r s) w)
  <-> (exists before w after, x = (before ++ w ++ after)%list /\ Lang true r w)
      \/ (exists before w after, x = (before ++ w ++ after)%list /\ Lang true s w).
Proof.
  split.
  - intros [before [w [after [Hx Hw]]]].
    apply lang_alt_inv in Hw as [Hw|Hw]; [left | right];
      exists before, w, after; split; assumption.
  - intros [[before [w [after [Hx Hw]]]] | [before [w [after [Hx Hw]]]]];
      exists before, w, after; (split; [exact Hx|]);
      [apply lang_alt_l | apply lang_alt_r]; exact Hw.
Qed.

Lemma search_word (word : string) (s : jsstring) :
  (exists before w after, s = (before ++ w ++ after)%list /\ Lang true (lit word) w)
  <-> occurs word s.
Proof.
  unfold occurs.
  split; intros [before [w [after [Hs Hw]]]]; exists before, w, after;
    (split; [exact Hs | apply lang_word; exact Hw]).
Qed.

(** ** The log rules *)

Lemma or_else_string (s : jsstring) : or_else (JStr s) (JStr []) = JStr s.
Proof.
  destruct s; reflexivity.
Qed.

Lemma not_nullish_of_read (v : JsVal) (k1 k2 : string) (s : jsstring) :
  v ?. k1 ?. k2 = JStr s -> is_nullish v = false.
Proof.
  destruct v; simpl; intros H; try discriminate; reflexivity.
Qed.

(** A rule of the shape
    [const logs = diag.logs?.errors || ''; return /re/i.test(logs)]. *)
Lemma matched_errors_rule (issue : Issue) (r : regex) (diagnostic : JsVal)
  (errors : jsstring) :
  detect issue = (fun diag =>
    Js.bind (get_prop diag "logs") (fun logs =>
      let logs := or_else (logs ?. "errors") (JStr []) in
      Js.bind (test (regexp_i r) logs) (fun hit => Normal (JBool hit)))) ->
  diagnostic ?. "logs" ?. "errors" = JStr errors ->
  matched diagnostic issue = true
  <-> exists before w after,
        errors = (before ++ w ++ after)%list /\ Lang true r w.
Proof.
  intros Hdetect Herrors. unfold matched. rewrite Hdetect.
  rewrite (get_prop_not_nullish _ _ (not_nullish_of_read _ _ _ _ Herrors)).
  simpl Js.bind. rewrite Herrors, or_else_string. simpl.
  rewrite <- search_lang.
  unfold test_string, regexp_i. simpl.
  destruct (matches true _ errors); simpl; split; auto.
Qed.

(** X1. With [logs.errors] a string, the port-conflict rule matches exactly
    when the text holds [EADDRINUSE], in any letter case. *)
Theorem port_conflict_matches_word (diagnostic : JsVal) (errors : jsstring) :
  diagnostic ?. "logs" ?. "errors" = JStr errors ->
  (matched diagnostic port_conflict = true <-> occurs "EADDRINUSE" errors).
Proof.
  intros Herrors.
  rewrite (matched_errors_rule port_conflict _ diagnostic errors eq_refl Herrors).
  apply search_word.
Qed.

Lemma port_conflict_matches_word_witness :
  matched (errors_payload "Error: listen eaddrinuse: address already in use :::18789")
    port_conflict = true.
Proof.
  apply (proj2 (port_conflict_matches_word
    (errors_payload "Error: listen eaddrinuse: address already in use :::18789")
    (cu "Error: listen eaddrinuse: address already in use :::18789") eq_refl)).
  exists (cu "Error: listen "), (cu "eaddrinuse"),
    (cu ": address already in use :::18789").
  split; reflexivity.
Defined.

(** X2. With [logs.errors] a string, the browser-port rule matches exactly
    when some line of the text holds [18791] and later [EADDRINUSE], or
    [browser], [control] and [fail] in that order, or [browser], [service]
    and [start] in that order, in any letter case. *)
Theorem browser_port_binding_matches_lines (diagnostic : JsVal) (errors : jsstring) :
  diagnostic ?. "logs" ?. "errors" = JStr errors ->
  (matched diagnostic browser_port_binding = true
   <-> follows "18791" "EADDRINUSE" errors
       \/ follows3 "browser" "control" "fail" errors
       \/ follows3 "browser" "service" "start" errors).
Proof.
  intros Herrors.
  rewrite (matched_errors_rule browser_port_binding _ diagnostic errors eq_refl Herrors).
  rewrite search_alt, search_alt, search_then, !search_then3. reflexivity.
Qed.

Lemma browser_port_binding_matches_lines_witness :
  matched (errors_payload "Browser control server failed to bind")
    browser_port_binding = true.
Proof.
  apply (proj2 (browser_port_binding_matches_lines
    (errors_payload "Browser control server failed to bind")
    (cu "Browser control server failed to bind") eq_refl)).
  right. left.
  exists [], (cu "Browser"), (cu " "), (cu "control"), (cu " server "),
    (cu "fail"), (cu "ed to bind").
  repeat split; repeat constructor.
Defined.

(** X3. A line that holds [18791] and later [EADDRINUSE] is reported twice:
    as a port conflict and, after it, as a browser-port failure. *)
Theorem browser_port_conflict_reported_twice (diagnostic : JsVal) (errors : jsstring) :
  diagnostic ?. "logs" ?. "errors" = JStr errors ->
  follows "18791" "EADDRINUSE" errors ->
  exists others1 others2 others3,
    map Detection.id (detectIssues diagnostic)
    = (others1 ++ "port-conflict" :: others2
         ++ "browser-port-binding" :: others3)%list.
Proof.
  intros Herrors Hfollows.
  assert (Hport : matched diagnostic port_conflict = true).
  { apply (matched_errors_rule port_conflict _ diagnostic errors eq_refl Herrors).
    apply search_word.
    destruct Hfollows as [before [w1 [between [w2 [after [-> [_ [_ H2]]]]]]]].
    exists (before ++ w1 ++ between)%list, w2, after.
    rewrite <- !app_assoc. split; [reflexivity | exact H2]. }
  assert (Hbrowser : matched diagnostic browser_port_binding = true).
  { apply (matched_errors_rule browser_port_binding _ diagnostic errors eq_refl Herrors).
    apply search_alt. left. apply search_then. exact Hfollows. }
  unfold detectIssues, detectIssuesIn, KNOWN_ISSUES.
  cbn [filter]. rewrite Hport, Hbrowser.
  exists (map Detection.id (map project
            (filter (matched diagnostic) [mem0_graph_free; gateway_not_running]))),
    [],
    (map Detection.id (map project
            (filter (matched diagnostic)
               [no_hybrid_search; no_context_pruning; no_memory_flush; no_soul;
                no_memory_files; ggml_metal_crash; orphan_tool_calls;
                high_token_usage]))).
  cbn [filter].
  destruct (matched diagnostic mem0_graph_free);
    destruct (matched diagnostic gateway_not_running); reflexivity.
Qed.

Lemma browser_port_conflict_reported_twice_witness :
  exists others1 others2 others3,
    map Detection.id (detectIssues
      (errors_payload "listen EADDRINUSE 127.0.0.1:18791 (port 18791: EADDRINUSE)"))
    = (others1 ++ "port-conflict" :: others2
         ++ "browser-port-binding" :: others3)%list.
Proof.
  apply (browser_port_conflict_reported_twice
    (errors_payload "listen EADDRINUSE 127.0.0.1:18791 (port 18791: EADDRINUSE)")
    (cu "listen EADDRINUSE 127.0.0.1:18791 (port 18791: EADDRINUSE)") eq_refl).
  exists (cu "listen EADDRINUSE 127.0.0.1:"), (cu "18791"), (cu " (port 18791: "),
    (cu "EADDRINUSE"), (cu ")").
  repeat split; repeat constructor.
Defined.

(** X4. With [logs.errors] a string, the orphan-tool-calls rule matches
    exactly when some line of the text holds [tool_call_id] and later
    [not found], or [orphan] and later [tool], in any letter case. *)
Theorem orphan_tool_calls_matches_lines (diagnostic : JsVal) (errors : jsstring) :
  diagnostic ?. "logs" ?. "errors" = JStr errors ->
  (matched diagnostic orphan_tool_calls = true
   <-> follows "tool_call_id" "not found" errors
       \/ follows "orphan" "tool" errors).
Proof.
  intros Herrors.
  rewrite (matched_errors_rule orphan_tool_calls _ diagnostic errors eq_refl Herrors).
  rewrite search_alt, !search_then. reflexivity.
Qed.

Lemma orphan_tool_calls_matches_lines_witness :
  matched (errors_payload "400 tool_call_id is not found")
    orphan_tool_calls = true.
Proof.
  apply (proj2 (orphan_tool_calls_matches_lines
    (errors_payload "400 tool_call_id is not found")
    (cu "400 tool_call_id is not found") eq_refl)).
  left. exists (cu "400 "), (cu "tool_call_id"), (cu " is "), (cu "not found"), [].
  repeat split; repeat constructor.
Defined.

(** X5. With [logs.errors] and [logs.stderr] strings, the Metal-crash rule
    looks at the two texts joined with nothing in between: it matches
    exactly when some line of the joined text holds [GGML_ASSERT] and later
    [ggml-metal], or [ggml-metal] and later [ASSERT], in any letter case.  A
    match may start in one text and end in the other. *)
Theorem ggml_metal_crash_matches_joined_logs
  (diagnostic : JsVal) (errors stderr : jsstring) :
  diagnostic ?. "logs" ?. "errors" = JStr errors ->
  diagnostic ?. "logs" ?. "stderr" = JStr stderr ->
  (matched diagnostic ggml_metal_crash = true
   <-> follows "GGML_ASSERT" "ggml-metal" (errors ++ stderr)%list
       \/ follows "ggml-metal" "ASSERT" (errors ++ stderr)%list).
Proof.
  intros Herrors Hstderr.
  rewrite <- !search_then, <- search_alt, <- search_lang.
  unfold matched. simpl detect.
  rewrite (get_prop_not_nullish _ _ (not_nullish_of_read _ _ _ _ Herrors)).
  simpl Js.bind. rewrite Herrors, Hstderr, !or_else_string. simpl.
  unfold test_string, regexp_i. simpl.
  destruct (matches true _ (errors ++ stderr)%list); simpl; split; auto.
Qed.

Lemma ggml_metal_crash_matches_joined_logs_witness :
  matched (logs_payload "GGML_ASSERT(buf) failed in " "ggml-metal.m:1520") ggml_metal_crash
  = true.
Proof.
  apply (proj2 (ggml_metal_crash_matches_joined_logs
    (logs_payload "GGML_ASSERT(buf) failed in " "ggml-metal.m:1520")
    (cu "GGML_ASSERT(buf) failed in ") (cu "ggml-metal.m:1520") eq_refl eq_refl)).
  left. exists [], (cu "GGML_ASSERT"), (cu "(buf) failed in "), (cu "ggml-metal"),
    (cu ".m:1520").
  repeat split; repeat constructor.
Defined.

(** X6. With [openclaw.gatewayStatus] a string, the gateway rule matches
    exactly when the status holds [not running], [error], [failed] or
    [stopped], in any letter case, and [openclaw.gatewayPid] is missing or
    falsy. *)
Theorem gateway_not_running_needs_status_and_no_pid
  (diagnostic : JsVal) (status : jsstring) :
  diagnostic ?. "openclaw" ?. "gatewayStatus" = JStr status ->
  (matched diagnostic gateway_not_running = true
   <-> (occurs "not running" status \/ occurs "error" status
        \/ occurs "failed" status \/ occurs "stopped" status)
       /\ truthy (diagnostic ?. "openclaw" ?. "gatewayPid") = false).
Proof.
  intros Hstatus.
  rewrite <- !search_word, <- !search_alt, <- search_lang.
  unfold matched. simpl detect.
  rewrite (get_prop_not_nullish _ _ (not_nullish_of_read _ _ _ _ Hstatus)).
  simpl Js.bind. rewrite Hstatus, or_else_string. simpl.
  unfold test_string, regexp_i. simpl.
  destruct (matches true _ status); simpl.
  - destruct (truthy (diagnostic ?. "openclaw" ?. "gatewayPid")); simpl;
      split; intros H; auto; destruct H; discriminate.
  - split; intros H; [discriminate | destruct H; discriminate].
Qed.

Lemma gateway_not_running_needs_status_and_no_pid_witness :
  matched (gateway_payload "Gateway: stopped" None) gateway_not_running = true
  /\ matched (gateway_payload "last error: none" (Some 4242%Z)) gateway_not_running = false.
Proof.
  split.
  - apply (proj2 (gateway_not_running_needs_status_and_no_pid
      (gateway_payload "Gateway: stopped" None) (cu "Gateway: stopped") eq_refl)).
    split; [|reflexivity].
    right. right. right. exists (cu "Gateway: "), (cu "stopped"), [].
    split; reflexivity.
  - destruct (matched (gateway_payload "last error: none" (Some 4242%Z))
                gateway_not_running) eqn:Hmatched; [|reflexivity].
    apply (proj1 (gateway_not_running_needs_status_and_no_pid
      (gateway_payload "last error: none" (Some 4242%Z)) (cu "last error: none")
      eq_refl)) in Hmatched.
    destruct Hmatched as [_ Hpid]. discriminate Hpid.
Defined.

(** ** The heartbeat rule *)

Lemma digit_cases (c : N) :
  is_digit c = true ->
  (c = 48 \/ c = 49 \/ c = 50 \/ c = 51 \/ c = 52 \/ c = 53 \/ c = 54 \/ c = 55
   \/ c = 56 \/ c = 57)%N.
Proof.
  unfold is_digit. intros H. apply andb_true_iff in H as [H1 H2].
  apply N.leb_le in H1, H2. lia.
Qed.

Lemma digit_value_digit (c : N) :
  is_digit c = true -> digit_value 10 c = Some (c - 48)%N.
Proof.
  intros H. destruct (digit_cases c H) as [->|[->|[->|[->|[->|[->|[->|[->|[->| ->]]]]]]]]];
    reflexivity.
Qed.

(** Reading digits up to the letter [m]. *)
Lemma read_digits_run (digits : jsstring) (a : N) :
  Forall (fun c => is_digit c = true) digits ->
  read_digits 10 (Some a) (digits ++ cu "m")%list = Some (digits_value a digits).
Proof.
  intros H. revert a. induction H as [|c digits Hc _ IH]; intros a.
  - reflexivity.
  - simpl. rewrite (digit_value_digit c Hc). apply IH.
Qed.

Lemma parseInt_minutes (c : N) (digits : jsstring) :
  Forall (fun c => is_digit c = true) (c :: digits) ->
  parseInt (JStr (c :: digits ++ cu "m")%list)
  = Normal (Some (Z.of_N (digits_value 0 (c :: digits)))).
Proof.
  intros H. inversion H as [|? ? Hc Hdigits]; subst. clear H.
  assert (Hread : forall (l : jsstring) (a : N),
            Forall (fun c => is_digit c = true) l ->
            read_digits 10 (Some a) (l ++ cu "m")%list
            = Some (fold_left (fun a c => a * 10 + (c - 48))%N l a))
    by (intros l a Hl; apply read_digits_run; exact Hl).
  unfold digits_value. unfold parseInt. simpl Js.bind.
  destruct (digit_cases c Hc) as [->|[->|[->|[->|[->|[->|[->|[->|[->| ->]]]]]]]]];
    try (simpl; rewrite (Hread digits _ Hdigits); destruct (Z.of_N _); reflexivity).
  destruct Hdigits as [|c2 digits Hc2 Hdigits]; [reflexivity|].
  destruct (digit_cases c2 Hc2) as [->|[->|[->|[->|[->|[->|[->|[->|[->| ->]]]]]]]]];
    simpl; rewrite (Hread digits _ Hdigits); destruct (Z.of_N _); reflexivity.
Qed.

Lemma minutes_pattern (c : N) (digits : jsstring) :
  Forall (fun c => is_digit c = true) (c :: digits) ->
  test_string {| Js.body := Seq (Plus Digit) (lit "m");
                 ignoreCase := false; anchored := true |}
    (c :: digits ++ cu "m")%list = true.
Proof.
  intros H. inversion H as [|? ? Hc Hdigits]; subst.
  unfold test_string. simpl anchored. cbv iota. simpl ignoreCase. simpl Js.body.
  apply matches_lang.
  change (c :: digits ++ cu "m")%list with ((c :: digits) ++ cu "m")%list.
  constructor; [|apply lang_literal; reflexivity].
  change (c :: digits) with ([c] ++ digits)%list.
  constructor; [constructor; exact Hc|].
  clear H Hc. induction Hdigits as [|c2 digits Hc2 _ IH]; [constructor|].
  change (c2 :: digits) with ([c2] ++ digits)%list.
  constructor; [constructor; exact Hc2 | exact IH].
Qed.

(** The digits of a number, as [decimal] prints them. *)
Lemma uint_digits (d : Decimal.uint) (a : N) :
  Forall (fun c => is_digit c = true) (cu (NilEmpty.string_of_uint d))
  /\ digits_value a (cu (NilEmpty.string_of_uint d))
     = N.of_nat (Nat.of_uint_acc d (N.to_nat a)).
Proof.
  revert a. induction d as [|d IH|d IH|d IH|d IH|d IH|d IH|d IH|d IH|d IH|d IH];
    intros a.
  1:{ split; [apply Forall_nil | symmetry; apply N2Nat.id]. }
  all: split;
    [ apply Forall_cons; [reflexivity | apply (IH a)]
    | match goal with
      | |- digits_value ?x (cu (NilEmpty.string_of_uint (?D ?y))) = _ =>
          change (digits_value x (cu (NilEmpty.string_of_uint (D y))))
            with (digits_value
                    (x * 10 + (hd 0%N (cu (NilEmpty.string_of_uint (D Decimal.Nil))) - 48))%N
                    (cu (NilEmpty.string_of_uint y)))
      end;
      rewrite (proj2 (IH _)); simpl Nat.of_uint_acc;
      f_equal; f_equal; rewrite Nat.tail_mul_spec; simpl hd; lia ].
Qed.

Lemma decimal_digits (n : nat) :
  exists c digits,
    cu (decimal n) = c :: digits
    /\ Forall (fun c => is_digit c = true) (c :: digits)
    /\ digits_value 0 (c :: digits) = N.of_nat n.
Proof.
  unfold decimal.
  assert (Hnonnil : Nat.to_uint n <> Decimal.Nil).
  { rewrite <- (DecimalNat.Unsigned.of_to n) at 1. rewrite DecimalNat.Unsigned.to_of.
    apply DecimalFacts.unorm_nonnil. }
  assert (Hsame : NilZero.string_of_uint (Nat.to_uint n)
                  = NilEmpty.string_of_uint (Nat.to_uint n)).
  { destruct (Nat.to_uint n); [congruence | reflexivity ..]. }
  rewrite Hsame.
  destruct (uint_digits (Nat.to_uint n) 0) as [Hall Hval].
  change (N.to_nat 0) with 0 in Hval. fold (Nat.of_uint (Nat.to_uint n)) in Hval.
  rewrite DecimalNat.Unsigned.of_to in Hval.
  destruct (cu (NilEmpty.string_of_uint (Nat.to_uint n))) as [|c digits] eqn:Hcu.
  - exfalso. destruct (Nat.to_uint n); try congruence; discriminate Hcu.
  - exists c, digits. repeat split; assumption.
Qed.

Lemma cu_app (a b : string) : cu (a ++ b) = (cu a ++ cu b)%list.
Proof.
  unfold cu. induction a as [|x a IH]; simpl; [reflexivity | rewrite IH; reflexivity].
Qed.

(** X7. With context pruning missing or falsy and the heartbeat interval
    written as a number of minutes, [N] followed by [m], the token-usage
    rule matches exactly when [N] is below 30. *)
Theorem high_token_usage_below_30_minutes (diagnostic : JsVal) (n : nat) :
  truthy (diagnostic ?. "config" ?. "agents" ?. "defaults" ?. "contextPruning") = false ->
  diagnostic ?. "config" ?. "agents" ?. "defaults" ?. "heartbeat" ?. "every"
    = JStr (cu (decimal n ++ "m")) ->
  (matched diagnostic high_token_usage = true <-> n < 30).
Proof.
  intros Hpruning Hevery.
  assert (Hnull : is_nullish diagnostic = false).
  { destruct diagnostic; try reflexivity; discriminate Hevery. }
  destruct (decimal_digits n) as [c [digits [Hcu [Hall Hval]]]].
  assert (Htext : cu (decimal n ++ "m") = (c :: digits ++ cu "m")%list).
  { rewrite cu_app, Hcu. reflexivity. }
  assert (Hheartbeat :
    is_nullish (diagnostic ?. "config" ?. "agents" ?. "defaults" ?. "heartbeat") = false).
  { destruct (diagnostic ?. "config" ?. "agents" ?. "defaults" ?. "heartbeat");
      try reflexivity; discriminate Hevery. }
  unfold matched. simpl detect.
  rewrite (get_prop_not_nullish _ _ Hnull). simpl Js.bind.
  rewrite Hpruning. cbv iota.
  rewrite Hevery, Htext. simpl truthy. cbv iota. simpl negb. cbv iota.
  rewrite (get_prop_not_nullish _ _ Hheartbeat). simpl Js.bind.
  rewrite Hevery, Htext.
  unfold test. simpl to_string. simpl Js.bind.
  rewrite (minutes_pattern c digits Hall). simpl negb. cbv iota.
  rewrite (parseInt_minutes c digits Hall). simpl Js.bind.
  assert (Hval' : digits_value (c - 48) digits = N.of_nat n) by exact Hval.
  rewrite Hval'. simpl. rewrite Z.ltb_lt. lia.
Qed.

Lemma high_token_usage_below_30_minutes_witness :
  matched (heartbeat_payload "5m") high_token_usage = true
  /\ matched (heartbeat_payload "30m") high_token_usage = false.
Proof.
  split.
  - apply (proj2 (high_token_usage_below_30_minutes (heartbeat_payload "5m") 5
                    eq_refl eq_refl)). lia.
  - destruct (matched (heartbeat_payload "30m") high_token_usage) eqn:Hmatched;
      [|reflexivity].
    apply (proj1 (high_token_usage_below_30_minutes (heartbeat_payload "30m") 30
                    eq_refl eq_refl)) in Hmatched. lia.
Defined.

(** ** The catalog as a whole *)

Lemma subsequence_In {A : Type} (l1 l2 : list A) (x : A) :
  Subsequence l1 l2 -> In x l1 -> In x l2.
Proof.
  induction 1 as [|y l1 l2 _ IH|y l1 l2 _ IH]; simpl; intros Hin.
  - exact Hin.
  - right. apply IH, Hin.
  - destruct Hin as [->|Hin]; [left; reflexivity | right; apply IH, Hin].
Qed.

Lemma subsequence_NoDup {A : Type} (l1 l2 : list A) :
  Subsequence l1 l2 -> NoDup l2 -> NoDup l1.
Proof.
  induction 1 as [|y l1 l2 Hsub IH|y l1 l2 Hsub IH]; intros Hnodup.
  - constructor.
  - inversion Hnodup; subst. apply IH. assumption.
  - inversion Hnodup as [|? ? Hfresh Hrest]; subst. constructor.
    + intros Hin. apply Hfresh. apply (subsequence_In _ _ _ Hsub Hin).
    + apply IH, Hrest.
Qed.

Lemma catalog_ids_distinct : NoDup (map id KNOWN_ISSUES).
Proof.
  apply distinct_NoDup. vm_compute. reflexivity.
Qed.

Lemma same_id_same_entry (l : list Issue) (a b : Issue) :
  NoDup (map id l) -> In a l -> In b l -> id a = id b -> a = b.
Proof.
  induction l as [|x l IH]; simpl; intros Hnodup Ha Hb Hid; [contradiction|].
  inversion Hnodup as [|? ? Hfresh Hrest]; subst.
  destruct Ha as [->|Ha]; destruct Hb as [->|Hb].
  - reflexivity.
  - exfalso. apply Hfresh. rewrite Hid. apply in_map, Hb.
  - exfalso. apply Hfresh. rewrite <- Hid. apply in_map, Ha.
  - apply IH; assumption.
Qed.

(** X8. Whatever the payload, no issue is reported twice, a catalog entry
    is reported exactly when its predicate returns a truthy value without
    throwing, and at most twelve issues are reported. *)
Theorem detectIssues_reports_each_match_once (diagnostic : JsVal) :
  NoDup (map Detection.id (detectIssues diagnostic))
  /\ (forall issue, In issue KNOWN_ISSUES ->
        (In (project issue) (detectIssues diagnostic)
         <-> exists v, detect issue diagnostic = Normal v /\ truthy v = true))
  /\ List.length (detectIssues diagnostic) <= 12.
Proof.
  split; [|split].
  - apply (subsequence_NoDup _ (map Detection.id (map project KNOWN_ISSUES))).
    + apply map_subsequence, detectIssues_catalog_order.
    + rewrite map_map. apply catalog_ids_distinct.
  - intros issue Hin.
    assert (Hmatched : matched diagnostic issue = true
                       <-> exists v, detect issue diagnostic = Normal v /\ truthy v = true).
    { unfold matched. destruct (detect issue diagnostic) as [v|m]; simpl.
      - split; [intros H; exists v; auto | intros [v' [Hv Ht]]; congruence].
      - split; [discriminate | intros [v' [Hv _]]; discriminate]. }
    rewrite <- Hmatched. unfold detectIssues, detectIssuesIn.
    rewrite in_map_iff. split.
    + intros [issue' [Hproject Hin']]. apply filter_In in Hin' as [Hin' Hm].
      assert (issue' = issue) as <-; [|exact Hm].
      apply (same_id_same_entry KNOWN_ISSUES); try assumption.
      * apply catalog_ids_distinct.
      * change (Detection.id (project issue') = Detection.id (project issue)).
        rewrite Hproject. reflexivity.
    + intros Hm. exists issue. split; [reflexivity|].
      apply filter_In. split; assumption.
  - unfold detectIssues, detectIssuesIn. rewrite length_map.
    apply (Nat.le_trans _ _ _ (filter_length_le _ _)). apply Nat.le_refl.
Qed.

Lemma detectIssues_reports_each_match_once_witness :
  In (project no_soul) (detectIssues minimal_payload).
Proof.
  apply (proj2 (proj1 (proj2 (detectIssues_reports_each_match_once minimal_payload))
                  no_soul
                  (or_intror (or_intror (or_intror (or_intror (or_intror
                     (or_intror (or_intror (or_introl eq_refl)))))))))).
  exists (JBool true). split; reflexivity.
Defined.

Lemma truthy_pruning_of_high (diagnostic : JsVal) :
  matched diagnostic high_token_usage = true ->
  is_nullish diagnostic = false
  /\ truthy (diagnostic ?. "config" ?. "agents" ?. "defaults" ?. "contextPruning")
     = false.
Proof.
  unfold matched. simpl detect. intros H.
  destruct (is_nullish diagnostic) eqn:Hnull.
  - destruct (get_prop_nullish diagnostic "config" Hnull) as [m Hm].
    rewrite Hm in H. discriminate H.
  - split; [reflexivity|].
    rewrite (get_prop_not_nullish _ _ Hnull) in H. simpl Js.bind in H.
    destruct (truthy (diagnostic ?. "config" ?. "agents" ?. "defaults"
                        ?. "contextPruning")); [discriminate H | reflexivity].
Qed.

(** X9. Whenever the token-usage rule is reported, the context-pruning rule
    is reported too and comes earlier; the token-usage result is the last
    one. *)
Theorem high_token_usage_comes_with_context_pruning (diagnostic : JsVal) :
  matched diagnostic high_token_usage = true ->
  matched diagnostic no_context_pruning = true
  /\ exists before between,
       map Detection.id (detectIssues diagnostic)
       = (before ++ "no-context-pruning" :: between ++ ["high-token-usage"])%list.
Proof.
  intros Hhigh.
  destruct (truthy_pruning_of_high diagnostic Hhigh) as [Hnull Hpruning].
  assert (Hprune : matched diagnostic no_context_pruning = true).
  { unfold matched. simpl detect.
    rewrite (get_prop_not_nullish _ _ Hnull). simpl. rewrite Hpruning. reflexivity. }
  split; [exact Hprune|].
  exists (map Detection.id (detectIssuesIn
            [mem0_graph_free; gateway_not_running; port_conflict;
             browser_port_binding; no_hybrid_search] diagnostic)),
    (map Detection.id (detectIssuesIn
            [no_memory_flush; no_soul; no_memory_files; ggml_metal_crash;
             orphan_tool_calls] diagnostic)).
  change (detectIssues diagnostic)
    with (detectIssuesIn
            ([mem0_graph_free; gateway_not_running; port_conflict;
              browser_port_binding; no_hybrid_search]
             ++ no_context_pruning
                :: [no_memory_flush; no_soul; no_memory_files; ggml_metal_crash;
                    orphan_tool_calls]
                   ++ [high_token_usage]) diagnostic).
  rewrite (detectIssuesIn_app diagnostic _ (no_context_pruning :: _)).
  rewrite (detectIssuesIn_cons diagnostic no_context_pruning), Hprune.
  rewrite (detectIssuesIn_app diagnostic _ [high_token_usage]).
  rewrite (detectIssuesIn_cons diagnostic high_token_usage), Hhigh.
  rewrite map_app. simpl map. rewrite map_app. reflexivity.
Qed.

Lemma high_token_usage_comes_with_context_pruning_witness :
  matched (heartbeat_payload "5m") no_context_pruning = true.
Proof.
  apply (high_token_usage_comes_with_context_pruning (heartbeat_payload "5m")).
  reflexivity.
Defined.

(** X10. When the payload has no readable [config] (the payload is null or
    undefined, or [config] is missing or null), the hybrid-search,
    context-pruning and memory-flush rules all match, and the Mem0 and
    token-usage rules do not. *)
Theorem missing_config_matches_memory_rules (diagnostic : JsVal) :
  is_nullish (diagnostic ?. "config") = true ->
  matched diagnostic no_hybrid_search = true
  /\ matched diagnostic no_context_pruning = true
  /\ matched diagnostic no_memory_flush = true
  /\ matched diagnostic mem0_graph_free = false
  /\ matched diagnostic high_token_usage = false.
Proof.
  intros Hconfig. unfold matched. simpl detect.
  destruct (is_nullish diagnostic) eqn:Hnull.
  - destruct (get_prop_nullish diagnostic "config" Hnull) as [m Hm].
    rewrite Hm. repeat split.
  - rewrite (get_prop_not_nullish _ _ Hnull). simpl Js.bind.
    destruct (diagnostic ?. "config"); try discriminate Hconfig; repeat split.
Qed.

Lemma missing_config_matches_memory_rules_witness :
  matched JNull no_hybrid_search = true
  /\ matched minimal_payload no_memory_flush = true.
Proof.
  split.
  - apply (missing_config_matches_memory_rules JNull). reflexivity.
  - apply (missing_config_matches_memory_rules minimal_payload). reflexivity.
Defined.

(** ** The restart gate on the catalog *)

Lemma restart_block_emitted_gate
  (knownIssues : list Detection.t) (aiAnalysis : AiAnalysis) (fixId now : string) :
  restart_block_emitted (script_lines knownIssues aiAnalysis fixId now)
  = references_config knownIssues.
Proof.
  rewrite script_lines_shape.
  destruct (references_config knownIssues).
  - unfold restart_block_emitted.
    rewrite !app_assoc, <- (app_assoc _ restart_block).
    rewrite four_before_banner by reflexivity. apply lines_eqb_refl.
  - simpl app at 3. apply no_restart_block.
Qed.

Lemma existsb_ext_in {A : Type} (f g : A -> bool) (l : list A) :
  (forall x, In x l -> f x = g x) -> existsb f l = existsb g l.
Proof.
  induction l as [|x l IH]; simpl; intros H; [reflexivity|].
  rewrite (H x (or_introl eq_refl)), IH; [reflexivity|].
  intros y Hy. apply H. right. exact Hy.
Qed.

(** The catalog fixes that do not name [openclaw.json] are the ones of the
    three rules that restart or inspect the gateway by hand. *)
Lemma catalog_fix_marker (issue : Issue) :
  In issue KNOWN_ISSUES ->
  includes "openclaw.json" (fix_ issue)
  = negb (existsb (String.eqb (id issue))
            ["gateway-not-running"; "browser-port-binding"; "orphan-tool-calls"]).
Proof.
  intros Hin.
  assert (Hall : forallb (fun issue =>
            Bool.eqb (includes "openclaw.json" (fix_ issue))
              (negb (existsb (String.eqb (id issue))
                 ["gateway-not-running"; "browser-port-binding"; "orphan-tool-calls"])))
            KNOWN_ISSUES = true) by (vm_compute; reflexivity).
  rewrite forallb_forall in Hall. apply Bool.eqb_prop, Hall, Hin.
Qed.

(** X11. For every payload, the composed script carries the restart block
    exactly when some reported issue is other than gateway-not-running,
    browser-port-binding and orphan-tool-calls.  The fixes for a missing
    SOUL.md and for missing memory files only read [openclaw.json], and
    they trigger the restart as well. *)
Theorem restart_block_for_detected_issues
  (diagnostic : JsVal) (aiAnalysis : AiAnalysis) (fixId now : string) :
  restart_block_emitted (script_lines (detectIssues diagnostic) aiAnalysis fixId now)
  = existsb (fun r => negb (existsb (String.eqb (Detection.id r))
               ["gateway-not-running"; "browser-port-binding"; "orphan-tool-calls"]))
      (detectIssues diagnostic).
Proof.
  rewrite restart_block_emitted_gate. unfold references_config.
  apply existsb_ext_in. intros r Hr.
  unfold detectIssues, detectIssuesIn in Hr.
  apply in_map_iff in Hr as [issue [<- Hin]].
  apply filter_In in Hin as [Hin _].
  apply (catalog_fix_marker issue Hin).
Qed.

(** ** More on the POST handler *)

(** X12. A body is answered with status 200 exactly when it is an object
    whose own [system] is truthy; an object whose [system] is present but
    null, false, 0 or the empty string is rejected like one without
    [system], with status 400 and the state unchanged. *)
Theorem post_diagnose_needs_truthy_system
  (env : Env) (props : list (string * JsVal)) (st : State) :
  (status (fst (post_diagnose env (JObj props) st)) = 200
   <-> exists system, own_prop props "system" = Some system /\ truthy system = true)
  /\ (forall system,
        own_prop props "system" = Some system -> truthy system = false ->
        post_diagnose env (JObj props) st = (invalid_input, st)).
Proof.
  assert (Haccepted : accepted (JObj props)
                      = match own_prop props "system" with
                        | Some system => truthy system
                        | None => false
                        end).
  { unfold accepted. simpl. destruct (own_prop props "system"); reflexivity. }
  split.
  - destruct (accepted (JObj props)) eqn:Hacc.
    + rewrite (proj1 (post_diagnose_accepted env (JObj props) st Hacc)). simpl.
      split; [intros _ | reflexivity].
      destruct (own_prop props "system") as [system|];
        [exists system; auto | discriminate Haccepted].
    + rewrite (post_diagnose_rejected env (JObj props) st Hacc). simpl.
      split; [discriminate|].
      intros [system [Hown Htruthy]]. rewrite Hown in Haccepted. congruence.
  - intros system Hown Hfalsy. apply post_diagnose_rejected.
    rewrite Haccepted, Hown. exact Hfalsy.
Qed.

Lemma post_diagnose_needs_truthy_system_witness :
  post_diagnose (sample_env "fix-0") (JObj [("system", JStr [])]) initial
  = (invalid_input, initial).
Proof.
  apply (proj2 (post_diagnose_needs_truthy_system
                  (sample_env "fix-0") [("system", JStr [])] initial) (JStr [])).
  - reflexivity.
  - reflexivity.
Defined.

(** X13. For an accepted payload and whatever the provider answers, the
    result carries the identifier [nanoid] returned, lists the detection
    results in detection order without their fix text, and counts exactly
    the pattern matches in [issuesFound]: nothing the provider reports is
    counted. *)
Theorem diagnosis_counts_pattern_matches
  (env : Env) (diagnostic : JsVal) (st : State) :
  accepted diagnostic = true ->
  exists result,
    fst (post_diagnose env diagnostic st)
      = {| status := 200; body := ResultBody result |}
    /\ fixId result = nanoid env
    /\ timestamp result = result_clock env
    /\ issuesFound result = List.length (detectIssues diagnostic)
    /\ map Summary.id (knownIssues result)
       = map Detection.id (detectIssues diagnostic)
    /\ map Summary.severity (knownIssues result)
       = map Detection.severity (detectIssues diagnostic)
    /\ map Summary.title (knownIssues result)
       = map Detection.title (detectIssues diagnostic)
    /\ map Summary.description (knownIssues result)
       = map Detection.description (detectIssues diagnostic).
Proof.
  intros Haccepted. exists (diagnosis env diagnostic).
  split; [apply (post_diagnose_accepted env diagnostic st Haccepted)|].
  unfold diagnosis. simpl.
  repeat split; try (rewrite map_map; reflexivity).
  destruct (provider env diagnostic _); simpl; lia.
Qed.

Lemma diagnosis_counts_pattern_matches_witness :
  exists result,
    fst (post_diagnose (sample_env "fix-0") minimal_payload initial)
      = {| status := 200; body := ResultBody result |}
    /\ issuesFound result = 4.
Proof.
  destruct (diagnosis_counts_pattern_matches (sample_env "fix-0") minimal_payload
              initial eq_refl)
    as [result [Hresponse [_ [_ [Hcount _]]]]].
  exists result. split; [exact Hresponse | exact Hcount].
Defined.

(** X14. An accepted request makes exactly these calls, in this order: the
    detector on the payload, the provider on the payload and the ids of the
    detection results, [fixes.set] under the new identifier, and, only when
    the map then holds more than 1000 entries, one [fixes.delete] of its
    first key. *)
Theorem post_diagnose_call_sequence
  (env : Env) (diagnostic : JsVal) (st : State) :
  accepted diagnostic = true ->
  let stored := fixes_set (fixes st) (nanoid env) (diagnosis env diagnostic) in
  calls (snd (post_diagnose env diagnostic st))
  = (calls st
     ++ [CallDetectIssues diagnostic;
         CallAnalyzeWithAI diagnostic (map Detection.id (detectIssues diagnostic));
         CallFixesSet (nanoid env)]
     ++ (if (1000 <? List.length stored)%nat
         then match fixes_first_key stored with
              | Some oldest => [CallFixesDelete oldest]
              | None => []
              end
         else []))%list.
Proof.
  intros H stored. unfold accepted in H. unfold post_diagnose.
  apply andb_true_iff in H as [Htruthy Hsystem].
  rewrite Htruthy.
  rewrite (get_prop_not_nullish _ _ (truthy_not_nullish _ Htruthy)).
  change (negb true) with false. cbv iota. unfold Js.bind.
  rewrite Hsystem. change (negb true) with false. cbv iota.
  unfold mbind, record, read_fixes, write_fixes, ret, fixes_size. simpl.
  fold (diagnosis env diagnostic). fold stored.
  destruct (1000 <? List.length stored)%nat;
    [destruct (fixes_first_key stored)|]; simpl;
    rewrite <- !app_assoc; reflexivity.
Qed.

Lemma post_diagnose_call_sequence_witness :
  calls (snd (post_diagnose (sample_env "fix-0") minimal_payload initial))
  = [CallDetectIssues minimal_payload;
     CallAnalyzeWithAI minimal_payload
       ["no-hybrid-search"; "no-context-pruning"; "no-memory-flush"; "no-soul"];
     CallFixesSet "fix-0"].
Proof.
  apply (post_diagnose_call_sequence (sample_env "fix-0") minimal_payload initial).
  reflexivity.
Defined.

(** ** More on the map [fixes] *)

Lemma In_fixes_set (f : Fixes) (k k' : string) (v v' : AnalysisResult) :
  In (k, v) (fixes_set f k' v') -> (k, v) = (k', v') \/ In (k, v) f.
Proof.
  induction f as [|[k0 v0] f IH]; simpl.
  - intros [H|[]]. left. symmetry. exact H.
  - destruct (String.eqb_spec k0 k') as [->|Hne]; simpl.
    + intros [H|H]; [left; symmetry; exact H | right; right; exact H].
    + intros [H|H]; [right; left; exact H|].
      destruct (IH H) as [Heq|Hin]; [left; exact Heq | right; right; exact Hin].
Qed.

Lemma In_fixes_delete (f : Fixes) (k k' : string) (v : AnalysisResult) :
  In (k, v) (fixes_delete f k') -> In (k, v) f.
Proof.
  induction f as [|[k0 v0] f IH]; simpl; [tauto|].
  destruct (String.eqb_spec k0 k'); simpl; intuition.
Qed.

Lemma In_store_result (f : Fixes) (k k' : string) (v v' : AnalysisResult) :
  In (k, v) (store_result f k' v') -> (k, v) = (k', v') \/ In (k, v) f.
Proof.
  unfold store_result. intros H.
  destruct (1000 <? _)%nat; [|apply In_fixes_set; exact H].
  destruct (fixes_first_key _); [|apply In_fixes_set; exact H].
  apply In_fixes_set. apply (In_fixes_delete _ _ _ _ H).
Qed.

(** X15. After any sequence of POST requests, accepted or rejected, with
    identifiers repeated or not, the map holds at most 1000 entries, no
    key twice, and every entry is filed under the [fixId] of its result. *)
Theorem fixes_map_invariant (requests : list (Env * JsVal)) :
  let st := serve requests initial in
  fixes_size (fixes st) <= 1000
  /\ NoDup (map fst (fixes st))
  /\ Forall (fun entry => fixId (snd entry) = fst entry) (fixes st).
Proof.
  intros st.
  destruct (serve_ok requests initial initial_ok) as [Hsize Hnodup].
  split; [exact Hsize|]. split; [exact Hnodup|].
  unfold st. clear st Hsize Hnodup.
  assert (Hgen : forall st0,
            Forall (fun entry => fixId (snd entry) = fst entry) (fixes st0) ->
            Forall (fun entry => fixId (snd entry) = fst entry)
              (fixes (serve requests st0))).
  { induction requests as [|[env d] requests IH]; intros st0 H0; [exact H0|].
    simpl. apply IH.
    destruct (accepted d) eqn:Hd.
    - rewrite (proj2 (post_diagnose_accepted env d st0 Hd)).
      apply Forall_forall. intros [k v] Hin.
      destruct (In_store_result _ _ _ _ _ Hin) as [Heq|Hold].
      + injection Heq as -> ->. reflexivity.
      + rewrite Forall_forall in H0. apply (H0 _ Hold).
    - rewrite (post_diagnose_rejected env d st0 Hd). exact H0. }
  apply (Hgen initial). constructor.
Qed.

(** X16. When [nanoid] returns an identifier that is already a key of the
    map, the new result takes the place of the old one: the keys and their
    order stay as they are, nothing is evicted, the identifier reads back
    the new result, and every other key reads back what it did before. *)
Theorem repeated_identifier_overwrites_in_place
  (earlier : list (Env * JsVal)) (env : Env) (diagnostic : JsVal) :
  accepted diagnostic = true ->
  In (nanoid env) (map fst (fixes (serve earlier initial))) ->
  let st0 := serve earlier initial in
  let st1 := snd (post_diagnose env diagnostic st0) in
  map fst (fixes st1) = map fst (fixes st0)
  /\ fst (get_fix (json_request (nanoid env)) st1) = fst (post_diagnose env diagnostic st0)
  /\ (forall key, key <> nanoid env ->
        fixes_get (fixes st1) key = fixes_get (fixes st0) key).
Proof.
  intros Haccepted Hpresent st0 st1.
  destruct (serve_ok earlier initial initial_ok) as [Hsize _]. fold st0 in Hsize.
  assert (Hkeys : map fst (fixes_set (fixes st0) (nanoid env) (diagnosis env diagnostic))
                  = map fst (fixes st0))
    by (apply fixes_set_present; exact Hpresent).
  assert (Hstore : fixes st1
                   = fixes_set (fixes st0) (nanoid env) (diagnosis env diagnostic)).
  { unfold st1. rewrite (proj2 (post_diagnose_accepted env diagnostic st0 Haccepted)).
    unfold store_result, fixes_size.
    rewrite <- (length_map fst), Hkeys, length_map.
    destruct (Nat.ltb_spec 1000 (List.length (fixes st0))); [lia | reflexivity]. }
  split; [rewrite Hstore; exact Hkeys|]. split.
  - rewrite get_fix_response, Hstore. simpl param_fixId.
    rewrite fixes_get_set_same.
    rewrite (proj1 (post_diagnose_accepted env diagnostic st0 Haccepted)).
    reflexivity.
  - intros key Hkey. rewrite Hstore. apply fixes_get_set_other. exact Hkey.
Qed.

Lemma repeated_identifier_overwrites_in_place_witness :
  map fst (fixes (snd (post_diagnose (sample_env "fix-0") healthy_payload
                         (serve [(sample_env "fix-0", minimal_payload);
                                 (sample_env "fix-1", minimal_payload)] initial))))
  = ["fix-0"; "fix-1"].
Proof.
  apply (repeated_identifier_overwrites_in_place
           [(sample_env "fix-0", minimal_payload); (sample_env "fix-1", minimal_payload)]
           (sample_env "fix-0") healthy_payload).
  - reflexivity.
  - left. reflexivity.
Defined.

(** * Section extraction *)

Import Sections.

(** ** The matcher and what it accepts *)

Section Matcher.
Variable ic : bool.

Lemma repeat_set_sound (greedy : bool) (k : CharSet) (group : option jsstring)
    (c : Continuation) (s : jsstring) :
  forall i r,
  repeat_set ic greedy k group c s i = Some r ->
  exists w s',
    s = (w ++ s')%list
    /\ Forall (fun ch => in_set ic k ch = true) w
    /\ c {| endIndex := i + List.length w; rest := s'; captured := group |} = Some r.
Proof.
  assert (Hhere : forall i r (s : jsstring),
            c {| endIndex := i; rest := s; captured := group |} = Some r ->
            exists w s',
              s = (w ++ s')%list
              /\ Forall (fun ch => in_set ic k ch = true) w
              /\ c {| endIndex := i + List.length w; rest := s'; captured := group |}
                 = Some r).
  { intros i r s0 H. exists [], s0. simpl. rewrite Nat.add_0_r. auto. }
  assert (Hmore : forall ch s0 i r,
            in_set ic k ch = true ->
            (exists w s',
               s0 = (w ++ s')%list
               /\ Forall (fun ch => in_set ic k ch = true) w
               /\ c {| endIndex := S i + List.length w; rest := s'; captured := group |}
                  = Some r) ->
            exists w s',
              (ch :: s0) = (w ++ s')%list
              /\ Forall (fun ch => in_set ic k ch = true) w
              /\ c {| endIndex := i + List.length w; rest := s'; captured := group |}
                 = Some r).
  { intros ch s0 i r Hin [w [s' [Hs [Hall Hc]]]].
    exists (ch :: w), s'. subst s0. simpl. split; [reflexivity|].
    split; [constructor; assumption|].
    rewrite Nat.add_succ_r. exact Hc. }
  induction s as [|ch s' IH]; intros i r H; simpl in H.
  - apply Hhere. exact H.
  - destruct (in_set ic k ch) eqn:Hin; [|apply Hhere; exact H].
    destruct greedy.
    + destruct (repeat_set ic true k group c s' (S i)) as [r'|] eqn:Hrec.
      * injection H as <-. apply Hmore; [exact Hin|]. apply IH. exact Hrec.
      * apply Hhere. exact H.
    + destruct (c {| endIndex := i; rest := ch :: s'; captured := group |})
        as [r'|] eqn:Hc.
      * injection H as <-. apply Hhere. exact Hc.
      * apply Hmore; [exact Hin|]. apply IH. exact H.
Qed.

(** Whatever a matcher without capture group returns, its continuation
    returned it, on a state the pattern accepts. *)
Lemma matcher_sound (p : Pattern) :
  capture_free p = true ->
  forall x c r,
  matcher ic p x c = Some r ->
  exists w y,
    Accepts ic p (endIndex x) w (rest y)
    /\ rest x = (w ++ rest y)%list
    /\ endIndex y = endIndex x + List.length w
    /\ captured y = captured x
    /\ c y = Some r.
Proof.
  induction p as [|k|p IHp q IHq|p IHp q IHq|greedy k|p IHp| | |p IHp|p IHp];
    intros Hfree x c r H; simpl in H, Hfree.
  - exists [], x. simpl. rewrite Nat.add_0_r.
    repeat split; [constructor|exact H].
  - destruct x as [i s cap]. simpl in *. destruct s as [|ch s']; [discriminate|].
    destruct (in_set ic k ch) eqn:Hin; [|discriminate].
    exists [ch], {| endIndex := S i; rest := s'; captured := cap |}. simpl.
    repeat split; [constructor; exact Hin|lia|exact H].
  - apply andb_true_iff in Hfree as [Hp Hq].
    destruct (IHp Hp _ _ _ H) as [u [y1 [Hu [Hrest1 [Hidx1 [Hcap1 Hc1]]]]]].
    destruct (IHq Hq _ _ _ Hc1) as [v [y2 [Hv [Hrest2 [Hidx2 [Hcap2 Hc2]]]]]].
    exists (u ++ v)%list, y2. repeat split.
    + constructor.
      * rewrite <- Hrest2. exact Hu.
      * rewrite <- Hidx1. exact Hv.
    + rewrite Hrest1, Hrest2. apply app_assoc.
    + rewrite Hidx2, Hidx1, length_app. lia.
    + congruence.
    + exact Hc2.
  - apply andb_true_iff in Hfree as [Hp Hq].
    destruct (matcher ic p x c) as [r'|] eqn:Hleft.
    + injection H as <-.
      destruct (IHp Hp _ _ _ Hleft) as [w [y [Hw Hrest]]].
      exists w, y. split; [apply accepts_or_l; exact Hw|exact Hrest].
    + destruct (IHq Hq _ _ _ H) as [w [y [Hw Hrest]]].
      exists w, y. split; [apply accepts_or_r; exact Hw|exact Hrest].
  - destruct (repeat_set_sound _ _ _ _ _ _ _ H) as [w [s' [Hs [Hall Hc]]]].
    exists w, {| endIndex := endIndex x + List.length w; rest := s';
                 captured := captured x |}. simpl.
    repeat split; [constructor; exact Hall|exact Hs|exact Hc].
  - match type of H with
    | match ?m with _ => _ end = _ => destruct m as [r'|] eqn:Hinner
    end.
    + injection H as <-.
      destruct (IHp Hfree _ _ _ Hinner) as [w [y [Hw [Hrest [Hidx [Hcap Hc]]]]]].
      destruct (endIndex y =? endIndex x)%nat; [discriminate|].
      exists w, y. repeat split; try assumption.
      apply accepts_optional_some. exact Hw.
    + exists [], x. simpl. rewrite Nat.add_0_r.
      repeat split; [constructor|exact H].
  - destruct (endIndex x =? 0)%nat eqn:Hzero; [|discriminate].
    apply Nat.eqb_eq in Hzero.
    exists [], x. simpl. rewrite Nat.add_0_r, Hzero.
    repeat split; [constructor|exact H].
  - destruct (rest x) eqn:Hrest; [|discriminate].
    exists [], x. simpl. rewrite Nat.add_0_r, Hrest.
    repeat split; [constructor|exact H].
  - destruct (matcher ic p x Some) as [y'|] eqn:Hinner; [|discriminate].
    destruct (IHp Hfree _ _ _ Hinner) as [w [y [Hw [Hrest [Hidx [Hcap Hc]]]]]].
    injection Hc as ->.
    exists [], {| endIndex := endIndex x; rest := rest x; captured := captured y' |}.
    simpl. rewrite Nat.add_0_r.
    repeat split; [|exact Hcap|exact H].
    rewrite Hrest. constructor. exact Hw.
  - discriminate.
Qed.

Lemma exec_from_sound (p : Pattern) (s : jsstring) :
  forall i r,
  exec_from ic p s i = Some r ->
  exists pre s',
    s = (pre ++ s')%list
    /\ matcher ic p {| endIndex := i + List.length pre; rest := s'; captured := None |}
         Some = Some r.
Proof.
  induction s as [|ch s' IH]; intros i r H; simpl in H.
  - destruct (matcher ic p {| endIndex := i; rest := []; captured := None |} Some)
      as [r'|] eqn:Hm; [|discriminate].
    exists [], []. simpl. rewrite Nat.add_0_r. split; [reflexivity|]. congruence.
  - destruct (matcher ic p {| endIndex := i; rest := ch :: s'; captured := None |} Some)
      as [r'|] eqn:Hm.
    + exists [], (ch :: s'). simpl. rewrite Nat.add_0_r. split; [reflexivity|].
      congruence.
    + destruct (IH _ _ H) as [pre [s'' [Hs Hmatch]]].
      exists (ch :: pre), s''. simpl. split; [congruence|].
      rewrite Nat.add_succ_r. exact Hmatch.
Qed.

Lemma accepts_literal (l : jsstring) :
  forall i w f,
  Accepts ic (fold_right (fun a p => Then (One (Char a)) p) Empty l) i w f ->
  map (canonicalize ic) w = map (canonicalize ic) l.
Proof.
  induction l as [|a l IH]; intros i w f H; simpl in H.
  - inversion H. reflexivity.
  - inversion H as [| |p q i' u v f' Hu Hv| | | | | | | | |]; subst.
    inversion Hu as [|k ch i' f' Hin| | | | | | | | | |]; subst.
    simpl in Hin. apply N.eqb_eq in Hin. simpl. rewrite Hin.
    f_equal. exact (IH _ _ _ Hv).
Qed.

End Matcher.

Lemma in_set_line_feed (ch : N) : in_set true (Char 10) ch = true -> ch = 10%N.
Proof.
  intros H. unfold in_set in H. apply N.eqb_eq in H.
  change (canonicalize true 10) with 10%N in H.
  unfold canonicalize in H. cbn [andb] in H.
  destruct (97 <=? ch)%N eqn:Hlow; cbn [andb] in H; [|congruence].
  destruct (ch <=? 122)%N; [|congruence].
  apply N.leb_le in Hlow. lia.
Qed.

Lemma in_set_hash (ch : N) : in_set true (Char 35) ch = true -> ch = 35%N.
Proof.
  intros H. unfold in_set in H. apply N.eqb_eq in H.
  change (canonicalize true 35) with 35%N in H.
  unfold canonicalize in H. cbn [andb] in H.
  destruct (97 <=? ch)%N eqn:Hlow; cbn [andb] in H; [|congruence].
  destruct (ch <=? 122)%N; [|congruence].
  apply N.leb_le in Hlow. lia.
Qed.

Lemma capture_free_literal (keyword : string) : capture_free (literal keyword) = true.
Proof.
  unfold literal. induction (cu keyword) as [|a l IH]; [reflexivity|exact IH].
Qed.

Lemma all_hashes (v : jsstring) :
  Forall (fun ch => in_set true (Char 35) ch = true) v ->
  v = repeat 35%N (List.length v).
Proof.
  induction 1 as [|ch v Hch _ IH]; [reflexivity|].
  simpl. rewrite <- IH, (in_set_hash _ Hch). reflexivity.
Qed.

Lemma accepts_hashes (i : nat) (w f : jsstring) :
  Accepts true (at_least_one (Char 35)) i w f -> exists n, w = repeat 35%N (S n).
Proof.
  intros H. unfold at_least_one in H.
  inversion H as [| |p q i' u v f' Hu Hv| | | | | | | | |]; subst.
  inversion Hu as [|k ch i' f' Hin| | | | | | | | | |]; subst.
  inversion Hv as [| | | | |greedy k i' w' f' Hall| | | | | |]; subst.
  exists (List.length v). simpl.
  rewrite (in_set_hash _ Hin), <- (all_hashes _ Hall). reflexivity.
Qed.

Lemma firstn_length_app (A : Type) (u v : list A) n :
  firstn (n + List.length u - n) (u ++ v) = u.
Proof.
  replace (n + List.length u - n) with (List.length u) by lia.
  induction u as [|a u IH]; simpl; [reflexivity|]. rewrite IH. reflexivity.
Qed.

(** ** Running the matcher forward *)

Section Forward.
Variable ic : bool.

Lemma repeat_set_stop (greedy : bool) (k : CharSet) (group : option jsstring)
    (c : Continuation) (f : jsstring) (i : nat) :
  (forall ch f', f = ch :: f' -> in_set ic k ch = false) ->
  repeat_set ic greedy k group c f i
  = c {| endIndex := i; rest := f; captured := group |}.
Proof.
  intros Hstop. destruct f as [|ch f']; simpl; [reflexivity|].
  rewrite (Hstop _ _ eq_refl). reflexivity.
Qed.

(** A greedy quantifier that succeeds after [w] succeeds before it. *)
Lemma repeat_set_greedy (k : CharSet) (group : option jsstring)
    (c : Continuation) (w f : jsstring) (r : MatchState) :
  Forall (fun ch => in_set ic k ch = true) w ->
  forall i,
  repeat_set ic true k group c f (i + List.length w) = Some r ->
  repeat_set ic true k group c (w ++ f)%list i = Some r.
Proof.
  induction 1 as [|a w Ha _ IH]; intros i H; simpl in *.
  - rewrite Nat.add_0_r in H. exact H.
  - rewrite Ha, (IH (S i)); [reflexivity|].
    rewrite <- H. f_equal. lia.
Qed.

(** A greedy quantifier gives back its last character when the
    continuation fails after it and succeeds before it. *)
Lemma repeat_set_back (k : CharSet) (group : option jsstring)
    (c : Continuation) (ch : N) (f : jsstring) (i : nat) (r : MatchState) :
  in_set ic k ch = true ->
  (forall ch' f', f = ch' :: f' -> in_set ic k ch' = false) ->
  c {| endIndex := S i; rest := f; captured := group |} = None ->
  c {| endIndex := i; rest := ch :: f; captured := group |} = Some r ->
  repeat_set ic true k group c (ch :: f) i = Some r.
Proof.
  intros Hin Hstop Hnone Hsome. simpl.
  rewrite Hin, (repeat_set_stop _ _ _ _ _ _ Hstop), Hnone. exact Hsome.
Qed.

(** A lazy quantifier stops at the first place where the continuation
    succeeds. *)
Lemma repeat_set_lazy (group : option jsstring) (c : Continuation)
    (body tail : jsstring) (r : MatchState) :
  forall i,
  (forall b1 c1 b2, body = (b1 ++ c1 :: b2)%list ->
     c {| endIndex := i + List.length b1; rest := (c1 :: b2 ++ tail)%list;
          captured := group |} = None) ->
  c {| endIndex := i + List.length body; rest := tail; captured := group |} = Some r ->
  repeat_set ic false Anything group c (body ++ tail)%list i = Some r.
Proof.
  induction body as [|c1 body IH]; intros i Hnone Hsome; simpl in *.
  - rewrite Nat.add_0_r in Hsome.
    destruct tail as [|ch t]; simpl; [exact Hsome|]. rewrite Hsome. reflexivity.
  - pose proof (Hnone [] c1 body eq_refl) as Hfirst. simpl in Hfirst.
    rewrite Nat.add_0_r in Hfirst. rewrite Hfirst.
    apply IH.
    + intros b1 c2 b2 Hbody.
      pose proof (Hnone (c1 :: b1) c2 b2) as Hnext. simpl in Hnext.
      rewrite Nat.add_succ_r in Hnext. apply Hnext. rewrite Hbody. reflexivity.
    + rewrite <- Hsome. f_equal. f_equal. lia.
Qed.

(** With a continuation that always succeeds, a quantifier succeeds and
    leaves the group as it is. *)
Lemma repeat_set_some (greedy : bool) (k : CharSet) (group : option jsstring)
    (s : jsstring) :
  forall i, exists y,
    repeat_set ic greedy k group Some s i = Some y /\ captured y = group.
Proof.
  induction s as [|ch s IH]; intros i; simpl.
  - eexists. split; reflexivity.
  - destruct (in_set ic k ch); [|eexists; split; reflexivity].
    destruct greedy; [|eexists; split; reflexivity].
    destruct (IH (S i)) as [y [Hy Hcap]]. rewrite Hy.
    exists y. split; [reflexivity|exact Hcap].
Qed.

Lemma matcher_literal (l : jsstring) :
  forall w f i group c,
  map (canonicalize ic) w = map (canonicalize ic) l ->
  matcher ic (fold_right (fun a p => Then (One (Char a)) p) Empty l)
    {| endIndex := i; rest := (w ++ f)%list; captured := group |} c
  = c {| endIndex := i + List.length w; rest := f; captured := group |}.
Proof.
  induction l as [|a l IH]; intros w f i group c Hw; destruct w as [|b w];
    try discriminate Hw; simpl.
  - rewrite Nat.add_0_r. reflexivity.
  - injection Hw as Hb Hw. rewrite Hb, N.eqb_refl, (IH _ _ _ _ _ Hw).
    f_equal. f_equal. lia.
Qed.

End Forward.

Lemma in_set_self (a : N) : in_set true (Char a) a = true.
Proof. apply N.eqb_refl. Qed.

(** The lookahead at the end of the input. *)
Lemma close_end (i : nat) (group : option jsstring) (c : Continuation) :
  matcher true section_close {| endIndex := i; rest := []; captured := group |} c
  = c {| endIndex := i; rest := []; captured := group |}.
Proof. reflexivity. Qed.

(** The lookahead before a line feed and [#]. *)
Lemma close_heading (i : nat) (s : jsstring) (group : option jsstring)
    (c : Continuation) :
  starts_heading s = true ->
  matcher true section_close {| endIndex := i; rest := s; captured := group |} c
  = c {| endIndex := i; rest := s; captured := group |}.
Proof.
  intros Hs. destruct s as [|a [|b t]]; try discriminate Hs.
  simpl in Hs. apply andb_true_iff in Hs as [Ha Hb].
  apply N.eqb_eq in Ha, Hb. subst a b.
  unfold section_close, at_least_one.
  cbn [matcher rest endIndex captured].
  rewrite !in_set_self.
  destruct (repeat_set_some true true (Char 35) group t (S (S i))) as [y [Hy Hcap]].
  rewrite Hy, Hcap. reflexivity.
Qed.

(** The lookahead anywhere else. *)
Lemma close_inside (i : nat) (s : jsstring) (group : option jsstring)
    (c : Continuation) :
  s <> [] -> starts_heading s = false ->
  matcher true section_close {| endIndex := i; rest := s; captured := group |} c
  = None.
Proof.
  intros Hs Hhead. destruct s as [|a t]; [contradiction|].
  unfold section_close, at_least_one.
  cbn [matcher rest endIndex captured].
  destruct (in_set true (Char 10) a) eqn:Ha; [|reflexivity].
  apply in_set_line_feed in Ha. subst a.
  destruct t as [|b t]; [reflexivity|].
  destruct (in_set true (Char 35) b) eqn:Hb; [|reflexivity].
  apply in_set_hash in Hb. subst b. discriminate Hhead.
Qed.

Lemma no_heading_split (tail : jsstring) (b1 : jsstring) :
  forall body c1 b2,
  no_heading_inside body tail = true ->
  body = (b1 ++ c1 :: b2)%list ->
  starts_heading (c1 :: b2 ++ tail)%list = false.
Proof.
  induction b1 as [|a b1 IH]; intros body c1 b2 Hno Hbody; subst body;
    simpl in Hno; apply andb_true_iff in Hno as [Hhere Hrest].
  - apply negb_true_iff in Hhere. exact Hhere.
  - exact (IH _ _ _ Hrest eq_refl).
Qed.

(** Group 1 runs to the first line feed followed by [#], or to the end. *)
Lemma capture_body (body tail : jsstring) (i : nat) (group : option jsstring) :
  no_heading_inside body tail = true ->
  section_end tail ->
  matcher true (Then (Capture (Many false Anything)) section_close)
    {| endIndex := i; rest := (body ++ tail)%list; captured := group |} Some
  = Some {| endIndex := i + List.length body; rest := tail; captured := Some body |}.
Proof.
  intros Hno Hend.
  change (repeat_set true false Anything group
            (fun y => matcher true section_close
               {| endIndex := endIndex y; rest := rest y;
                  captured := Some (firstn (endIndex y - i) (body ++ tail)%list) |} Some)
            (body ++ tail)%list i
          = Some {| endIndex := i + List.length body; rest := tail;
                    captured := Some body |}).
  apply repeat_set_lazy.
  - intros b1 c1 b2 Hbody. cbv beta. cbn [endIndex rest].
    apply close_inside; [discriminate|].
    exact (no_heading_split _ _ _ _ _ Hno Hbody).
  - cbv beta. cbn [endIndex rest]. rewrite firstn_length_app.
    destruct Hend as [-> | Hhead]; [apply close_end|].
    apply close_heading. exact Hhead.
Qed.

Lemma starts_plain_stop (s : jsstring) :
  starts_plain s = true ->
  forall ch s', s = ch :: s' -> in_set true ColonOrSpace ch = false.
Proof.
  intros Hs ch s' ->. simpl in Hs. apply negb_true_iff in Hs. exact Hs.
Qed.

Lemma line_feed_is_space : in_set true ColonOrSpace 10 = true.
Proof. reflexivity. Qed.

(** What follows the keyword: colons and white space up to the last line
    feed before the body, and the body. *)
Lemma after_heading (mid body tail : jsstring) (i : nat) :
  Forall colon_or_space mid ->
  starts_plain (body ++ tail)%list = true ->
  no_heading_inside body tail = true ->
  section_end tail ->
  matcher true
    (Then (Many true ColonOrSpace)
    (Then (One (Char 10))
    (Then (Capture (Many false Anything)) section_close)))
    {| endIndex := i; rest := (mid ++ 10%N :: body ++ tail)%list; captured := None |}
    Some
  = Some {| endIndex := S (i + List.length mid) + List.length body; rest := tail;
            captured := Some body |}.
Proof.
  intros Hmid Hplain Hno Hend.
  change (repeat_set true true ColonOrSpace None
            (fun y => matcher true
               (Then (One (Char 10))
               (Then (Capture (Many false Anything)) section_close)) y Some)
            (mid ++ 10%N :: body ++ tail)%list i
          = Some {| endIndex := S (i + List.length mid) + List.length body;
                    rest := tail; captured := Some body |}).
  apply repeat_set_greedy; [exact Hmid|].
  apply repeat_set_back.
  - exact line_feed_is_space.
  - exact (starts_plain_stop _ Hplain).
  - cbn [matcher rest endIndex captured].
    destruct (body ++ tail)%list as [|c1 s] eqn:Hs; [reflexivity|].
    destruct (in_set true (Char 10) c1) eqn:Hc1; [|reflexivity].
    apply in_set_line_feed in Hc1. subst c1. discriminate Hplain.
  - cbn [matcher rest endIndex captured]. rewrite in_set_self.
    exact (capture_body body tail (S (i + List.length mid)) None Hno Hend).
Qed.

(** From the keyword on. *)
Lemma after_keyword (keyword : string) (w mid body tail : jsstring) (i : nat) :
  spells keyword w ->
  Forall colon_or_space mid ->
  starts_plain (body ++ tail)%list = true ->
  no_heading_inside body tail = true ->
  section_end tail ->
  matcher true
    (Then (literal keyword)
    (Then (Many true ColonOrSpace)
    (Then (One (Char 10))
    (Then (Capture (Many false Anything)) section_close))))
    {| endIndex := i; rest := (w ++ mid ++ 10%N :: body ++ tail)%list;
       captured := None |}
    Some
  = Some {| endIndex := S (i + List.length w + List.length mid) + List.length body;
            rest := tail; captured := Some body |}.
Proof.
  intros Hw Hmid Hplain Hno Hend.
  change (matcher true (literal keyword)
            {| endIndex := i; rest := (w ++ mid ++ 10%N :: body ++ tail)%list;
               captured := None |}
            (fun y => matcher true
               (Then (Many true ColonOrSpace)
               (Then (One (Char 10))
               (Then (Capture (Many false Anything)) section_close))) y Some)
          = Some {| endIndex := S (i + List.length w + List.length mid)
                                + List.length body;
                    rest := tail; captured := Some body |}).
  unfold literal. rewrite (matcher_literal true (cu keyword) w _ i None _ Hw).
  exact (after_heading mid body tail (i + List.length w) Hmid Hplain Hno Hend).
Qed.

(** ** What a match of the section pattern looks like *)

(** A lazy quantifier returns what the continuation returns at the first
    place where it succeeds. *)
Lemma repeat_set_lazy_sound (ic : bool) (group : option jsstring)
    (c : Continuation) (s : jsstring) :
  forall i r,
  repeat_set ic false Anything group c s i = Some r ->
  exists body tail,
    s = (body ++ tail)%list
    /\ c {| endIndex := i + List.length body; rest := tail; captured := group |}
       = Some r
    /\ forall b1 c1 b2, body = (b1 ++ c1 :: b2)%list ->
         c {| endIndex := i + List.length b1; rest := (c1 :: b2 ++ tail)%list;
              captured := group |} = None.
Proof.
  induction s as [|ch s IH]; intros i r H; simpl in H.
  - exists [], []. simpl. rewrite Nat.add_0_r. repeat split; [exact H|].
    intros b1 c1 b2 Hb. destruct b1; discriminate Hb.
  - destruct (c {| endIndex := i; rest := ch :: s; captured := group |})
      as [r'|] eqn:Hhere.
    + injection H as <-. exists [], (ch :: s). simpl. rewrite Nat.add_0_r.
      repeat split; [exact Hhere|].
      intros b1 c1 b2 Hb. destruct b1; discriminate Hb.
    + destruct (IH _ _ H) as [body [tail [Hs [Hc Hfirst]]]].
      exists (ch :: body), tail. simpl. rewrite Hs, Nat.add_succ_r.
      repeat split; [exact Hc|].
      intros b1 c1 b2 Hb. destruct b1 as [|x b1]; simpl in *.
      * injection Hb as <- <-. rewrite Nat.add_0_r, <- Hs. exact Hhere.
      * injection Hb as <- Hb. rewrite Nat.add_succ_r. exact (Hfirst _ _ _ Hb).
Qed.

Lemma no_heading_inside_intro (body tail : jsstring) :
  (forall b1 c1 b2, body = (b1 ++ c1 :: b2)%list ->
     starts_heading (c1 :: b2 ++ tail)%list = false) ->
  no_heading_inside body tail = true.
Proof.
  induction body as [|c body IH]; intros H; simpl; [reflexivity|].
  apply andb_true_iff. split.
  - apply negb_true_iff. exact (H [] c body eq_refl).
  - apply IH. intros b1 c1 b2 Hb. apply (H (c :: b1) c1 b2).
    rewrite Hb. reflexivity.
Qed.

(** The anatomy of a match of the section pattern: a heading line made of
    the keyword alone, the captured body after its line feed, and the end
    of the section. *)
Lemma exec_section (text : jsstring) (keyword : string) (r : MatchState) :
  exec_from true (section_pattern keyword) text 0 = Some r ->
  exists before m w mid body tail,
    text = (before ++ m ++ w ++ mid ++ 10%N :: body ++ tail)%list
    /\ line_start before /\ marker m /\ spells keyword w
    /\ Forall colon_or_space mid /\ section_end tail
    /\ no_heading_inside body tail = true
    /\ captured r = Some body.
Proof.
  intros H.
  destruct (exec_from_sound _ _ _ _ _ H) as [pre [s' [Htext Hmatch]]].
  clear H. simpl Nat.add in Hmatch.
  destruct (matcher_sound true line_begin eq_refl
              {| endIndex := List.length pre; rest := s'; captured := None |}
              (fun y => matcher true
                 (Then heading_marker (Then (literal keyword)
                 (Then (Many true ColonOrSpace) (Then (One (Char 10))
                 (Then (Capture (Many false Anything)) section_close))))) y Some)
              r Hmatch)
    as [uA [y1 [HA [Hrest1 [Hidx1 [Hcap1 H1]]]]]].
  clear Hmatch. simpl in Hrest1, Hidx1, Hcap1, HA.
  destruct (matcher_sound true heading_marker eq_refl y1
              (fun y => matcher true
                 (Then (literal keyword)
                 (Then (Many true ColonOrSpace) (Then (One (Char 10))
                 (Then (Capture (Many false Anything)) section_close)))) y Some)
              r H1)
    as [uB [y2 [HB [Hrest2 [Hidx2 [Hcap2 H2]]]]]].
  clear H1.
  destruct (matcher_sound true (literal keyword) (capture_free_literal keyword) y2
              (fun y => matcher true
                 (Then (Many true ColonOrSpace) (Then (One (Char 10))
                 (Then (Capture (Many false Anything)) section_close))) y Some)
              r H2)
    as [w [y3 [HK [Hrest3 [Hidx3 [Hcap3 H3]]]]]].
  clear H2.
  destruct (matcher_sound true (Many true ColonOrSpace) eq_refl y3
              (fun y => matcher true
                 (Then (One (Char 10))
                 (Then (Capture (Many false Anything)) section_close)) y Some)
              r H3)
    as [mid [y4 [HS [Hrest4 [Hidx4 [Hcap4 H4]]]]]].
  clear H3.
  destruct (matcher_sound true (One (Char 10)) eq_refl y4
              (fun y => matcher true
                 (Then (Capture (Many false Anything)) section_close) y Some)
              r H4)
    as [uN [y5 [HN [Hrest5 [Hidx5 [Hcap5 H5]]]]]].
  clear H4.
  destruct (repeat_set_lazy_sound true (captured y5)
              (fun y => matcher true section_close
                 {| endIndex := endIndex y; rest := rest y;
                    captured := Some (firstn (endIndex y - endIndex y5) (rest y5)) |}
                 Some)
              (rest y5) (endIndex y5) r H5)
    as [body [tail [Hrest6 [H6 Hfirst]]]].
  clear H5. cbv beta in H6. cbn [endIndex rest] in H6.
  rewrite Hrest6, firstn_length_app in H6.
  assert (Hno : no_heading_inside body tail = true).
  { apply no_heading_inside_intro. intros b1 c1 b2 Hbody.
    pose proof (Hfirst b1 c1 b2 Hbody) as Hnone. cbv beta in Hnone.
    cbn [endIndex rest] in Hnone.
    destruct (starts_heading (c1 :: b2 ++ tail)%list) eqn:Hhead; [|reflexivity].
    rewrite (close_heading _ _ _ _ Hhead) in Hnone. discriminate Hnone. }
  destruct (matcher_sound true section_close eq_refl _ Some r H6)
    as [uL [y7 [HL [Hrest7 [Hidx7 [Hcap7 H7]]]]]].
  cbn [endIndex rest captured] in Hrest7, Hidx7, Hcap7, HL.
  clear H6. simpl in Hrest7, Hidx7, Hcap7, HL. injection H7 as <-.
  unfold line_begin in HA. unfold heading_marker in HB. unfold section_close in HL.
  exists (pre ++ uA)%list, uB, w, mid, body, tail.
  assert (Hnl : uN = [10%N]).
  { inversion HN as [|k ch i' f' Hin| | | | | | | | | |]; subst.
    rewrite (in_set_line_feed _ Hin). reflexivity. }
  split; [|split; [|split; [|split; [|split; [|split; [|split]]]]]].
  - rewrite Htext, Hrest1, Hrest2, Hrest3, Hrest4, Hrest5, Hrest6, Hnl.
    rewrite <- !app_assoc. reflexivity.
  - inversion HA as [| | |p q i' w' f' Hl|p q i' w' f' Hr| | | | | | |]; subst.
    + inversion Hl as [| | | | | | | |f' Hzero| | |]; subst.
      left. destruct pre; [reflexivity|discriminate].
    + inversion Hr as [|k ch i' f' Hin| | | | | | | | | |]; subst.
      right. exists pre. rewrite (in_set_line_feed _ Hin). reflexivity.
  - inversion HB as [| | | | | |p i' f'|p i' w' f' Hsome| | | |]; subst.
    + left. reflexivity.
    + right.
      inversion Hsome as [| |p q i' u v f' Hu Hv| | | | | | | | |]; subst.
      destruct (accepts_hashes _ _ _ Hu) as [n Hn].
      inversion Hv as [| | | | |greedy k i' w' f' Hall| | | | | |]; subst.
      exists n, v. split; [reflexivity|exact Hall].
  - unfold spells, upper. unfold literal in HK.
    exact (accepts_literal _ _ _ _ _ HK).
  - inversion HS as [| | | | |greedy k i' w' f' Hall| | | | | |]; subst.
    exact Hall.
  - inversion HL as [| | | | | | | | | |p i' w' f' Hinner|]; subst.
    cbn [app].
    inversion Hinner as [| | |p q i' w'' f'' Hl|p q i' w'' f'' Hr| | | | | | |];
      subst.
    + right.
      inversion Hl as [| |p q i' u v f'' Hu Hv| | | | | | | | |]; subst.
      inversion Hu as [|k ch i' f'' Hin| | | | | | | | | |]; subst.
      destruct (accepts_hashes _ _ _ Hv) as [n Hn].
      rewrite (in_set_line_feed _ Hin), Hn in *.
      match goal with
      | Heq : _ = rest y7 |- _ => rewrite <- Heq
      end.
      reflexivity.
    + left.
      inversion Hr as [| | | | | | | | |i'| |]; subst.
      match goal with
      | Heq : _ = rest y7 |- _ => rewrite <- Heq
      end.
      reflexivity.
  - exact Hno.
  - exact Hcap7.
Qed.

(** ** Where the keyword can stand *)

Ltac arithmetic_of_bools :=
  unfold in_set, is_whitespace, alphanumeric in *;
  repeat rewrite ?orb_true_iff, ?andb_true_iff, ?N.leb_le, ?N.eqb_eq in *;
  lia.

Lemma alphanumeric_not_space (c : N) :
  alphanumeric c = true -> in_set true ColonOrSpace c = false.
Proof.
  intros H. destruct (in_set true ColonOrSpace c) eqn:E; [exfalso|reflexivity].
  arithmetic_of_bools.
Qed.

Lemma space_not_alphanumeric (c : N) :
  is_whitespace c = true -> alphanumeric c = false.
Proof.
  intros H. destruct (alphanumeric c) eqn:E; [exfalso|reflexivity].
  arithmetic_of_bools.
Qed.

Lemma alphanumeric_not_hash (c : N) :
  alphanumeric c = true -> in_set true (Char 35) c = false.
Proof.
  intros H. destruct (in_set true (Char 35) c) eqn:E; [|reflexivity].
  apply in_set_hash in E. subst c. discriminate H.
Qed.

Lemma upper_alphanumeric (a c : N) :
  upper c = upper a -> alphanumeric a = true -> alphanumeric c = true.
Proof.
  unfold upper, canonicalize. cbn [andb]. intros Heq Ha.
  destruct (alphanumeric c) eqn:Hc; [reflexivity|exfalso].
  assert (Hc' : ~ alphanumeric c = true) by congruence. clear Hc.
  destruct ((97 <=? c)%N && (c <=? 122)%N) eqn:Hlc;
    destruct ((97 <=? a)%N && (a <=? 122)%N) eqn:Hla;
    try (apply andb_true_iff in Hlc as [Hlc1 Hlc2];
         apply N.leb_le in Hlc1, Hlc2);
    try (apply andb_true_iff in Hla as [Hla1 Hla2];
         apply N.leb_le in Hla1, Hla2);
    try (apply andb_false_iff in Hlc as [Hlc|Hlc]; apply N.leb_gt in Hlc);
    try (apply andb_false_iff in Hla as [Hla|Hla]; apply N.leb_gt in Hla);
    apply Hc'; arithmetic_of_bools.
Qed.

Lemma spells_alphanumeric (keyword : string) (w : jsstring) :
  plain keyword = true -> spells keyword w ->
  w <> [] /\ Forall (fun c => alphanumeric c = true) w.
Proof.
  unfold plain, spells. intros Hplain Hw.
  apply andb_true_iff in Hplain as [Hne Hall]. split.
  - intros ->. destruct keyword; [discriminate Hne|discriminate Hw].
  - rewrite forallb_forall in Hall. revert w Hw.
    induction (cu keyword) as [|a l IH]; intros w Hw; destruct w as [|c w];
      try discriminate Hw; constructor.
    + injection Hw as Hc _. apply (upper_alphanumeric a c Hc).
      apply Hall. left. reflexivity.
    + injection Hw as _ Hw. apply IH; [|exact Hw].
      intros x Hx. apply Hall. right. exact Hx.
Qed.

Lemma marker_not_alphanumeric (m : jsstring) :
  marker m -> Forall (fun c => alphanumeric c = false) m.
Proof.
  intros [-> | [n [spaces [-> Hspaces]]]]; [constructor|].
  apply Forall_app. split.
  - apply Forall_forall. intros c Hc. apply repeat_spec in Hc. subst c. reflexivity.
  - revert Hspaces. apply Forall_impl. exact space_not_alphanumeric.
Qed.

Lemma accepts_line_begin (i : nat) (u f : jsstring) :
  Accepts true line_begin i u f -> (i = 0 /\ u = []) \/ u = [10%N].
Proof.
  unfold line_begin. intros H.
  inversion H as [| | |p q i' w' f' Hl|p q i' w' f' Hr| | | | | | |]; subst.
  - inversion Hl; subst. left. split; reflexivity.
  - inversion Hr as [|k ch i' f' Hin| | | | | | | | | |]; subst.
    right. rewrite (in_set_line_feed _ Hin). reflexivity.
Qed.

Lemma accepts_heading_marker (i : nat) (u f : jsstring) :
  Accepts true heading_marker i u f -> marker u.
Proof.
  unfold heading_marker. intros H.
  inversion H as [| | | | | |p i' f'|p i' w' f' Hsome| | | |]; subst.
  - left. reflexivity.
  - right.
    inversion Hsome as [| |p q i' u' v f' Hu Hv| | | | | | | | |]; subst.
    destruct (accepts_hashes _ _ _ Hu) as [n Hn].
    inversion Hv as [| | | | |greedy k i' w' f' Hall| | | | | |]; subst.
    exists n, v. split; [reflexivity|exact Hall].
Qed.

(** A match that starts at or before the keyword of a heading, in a text
    with no earlier occurrence of the keyword, reaches the keyword
    there. *)
Lemma keyword_position (keyword : string)
    (before m w R pre u w' Z : jsstring) :
  plain keyword = true ->
  line_start before ->
  ~ occurs keyword before ->
  Forall (fun c => alphanumeric c = false) m ->
  spells keyword w -> spells keyword w' ->
  Forall (fun c => alphanumeric c = false) u ->
  List.length pre <= List.length (before ++ m) ->
  (before ++ m ++ w ++ R = pre ++ u ++ w' ++ Z)%list ->
  (pre ++ u = before ++ m)%list.
Proof.
  intros Hplain Hline Hfirst Hm Hw Hw' Hu Hpre Htext.
  destruct (spells_alphanumeric _ _ Hplain Hw) as [Hwne Hwall].
  destruct (spells_alphanumeric _ _ Hplain Hw') as [Hwne' Hwall'].
  rewrite Forall_forall in Hm, Hu, Hwall, Hwall'.
  assert (Hclash : forall c, alphanumeric c = true -> alphanumeric c = false -> False)
    by (intros c H1 H2; congruence).
  rewrite !app_assoc in Htext. rewrite <- !(app_assoc _ _ R) in Htext.
  rewrite <- !(app_assoc _ _ Z) in Htext.
  apply app_eq_app in Htext as [l [[HQ Hrest] | [HP Hrest]]].
  - (* the match reaches its keyword before the heading's *)
    destruct l as [|c l]; [rewrite app_nil_r in HQ; symmetry; exact HQ|exfalso].
    destruct w' as [|a' w0']; [contradiction|].
    injection Hrest as -> Hrest.
    assert (Hc : alphanumeric c = true) by (apply Hwall'; left; reflexivity).
    apply app_eq_app in HQ as [l3 [[Hb Hl] | [Hb Hl]]].
    + destruct l3 as [|c3 l3].
      * simpl in Hl. apply (Hclash c Hc). apply Hm. rewrite <- Hl. left. reflexivity.
      * injection Hl as <- Hl.
        destruct Hline as [-> | [b Hbefore]];
          [destruct pre; destruct u; discriminate Hb|].
        assert (Hfeed : In 10%N (c :: l3)).
        { rewrite Hbefore in Hb.
          apply app_eq_app in Hb as [l5 [[_ Hl5] | [_ Hl5]]].
          - rewrite Hl5. apply in_or_app. right. left. reflexivity.
          - destruct l5 as [|x l5]; [injection Hl5 as <- _; left; reflexivity|].
            injection Hl5 as _ Hl5. destruct l5; discriminate Hl5. }
        rewrite Hl in Hrest.
        assert (Hsplit : ((c :: w0') ++ Z = (c :: l3) ++ (m ++ w ++ R))%list).
        { simpl. rewrite Hrest, <- !app_assoc. reflexivity. }
        apply app_eq_app in Hsplit as [l4 [[Hw4 _] | [Hw4 _]]].
        -- assert (Hbad : alphanumeric 10 = true).
           { apply Hwall'. rewrite Hw4. apply in_or_app. left. exact Hfeed. }
           discriminate Hbad.
        -- apply Hfirst. exists (pre ++ u)%list, (c :: w0'), l4.
           split; [|exact Hw']. rewrite Hb, Hw4. reflexivity.
    + apply (Hclash c Hc). apply Hm. rewrite Hl. apply in_or_app. right. left.
      reflexivity.
  - (* the match reaches its keyword after the heading's *)
    destruct l as [|c l]; [rewrite app_nil_r in HP; exact HP|exfalso].
    destruct w as [|a w0]; [contradiction|].
    injection Hrest as -> Hrest.
    assert (Hc : alphanumeric c = true) by (apply Hwall; left; reflexivity).
    apply app_eq_app in HP as [l2 [[Hp2 Hl2] | [Hp2 Hl2]]].
    + destruct l2 as [|x l2].
      * simpl in Hl2. apply (Hclash c Hc). apply Hu. rewrite <- Hl2. left. reflexivity.
      * rewrite Hp2, !length_app in Hpre. simpl in Hpre. lia.
    + apply (Hclash c Hc). apply Hu. rewrite Hl2. apply in_or_app. right. left.
      reflexivity.
Qed.

(** ** The first heading with the keyword *)

Lemma marker_none (a : N) (f : jsstring) (i : nat) (c : Continuation)
    (r : MatchState) :
  alphanumeric a = true ->
  c {| endIndex := i; rest := a :: f; captured := None |} = Some r ->
  matcher true heading_marker {| endIndex := i; rest := a :: f; captured := None |} c
  = Some r.
Proof.
  intros Ha Hc. unfold heading_marker, at_least_one.
  cbn [matcher rest endIndex captured].
  rewrite (alphanumeric_not_hash a Ha). exact Hc.
Qed.

Lemma space_not_hash (ch : N) :
  is_whitespace ch = true -> in_set true (Char 35) ch = false.
Proof.
  intros Hch. destruct (in_set true (Char 35) ch) eqn:Hh; [|reflexivity].
  apply in_set_hash in Hh. subst ch. discriminate Hch.
Qed.

Lemma alphanumeric_not_whitespace (a : N) :
  alphanumeric a = true -> is_whitespace a = false.
Proof.
  intros Ha. pose proof (alphanumeric_not_space _ Ha) as Hns. simpl in Hns.
  apply orb_false_iff in Hns as [_ Hns]. exact Hns.
Qed.

Lemma marker_some (n : nat) (spaces : jsstring) (a : N) (f : jsstring) (i : nat)
    (c : Continuation) (r : MatchState) :
  Forall (fun ch => is_whitespace ch = true) spaces ->
  alphanumeric a = true ->
  c {| endIndex := S (i + n + List.length spaces); rest := a :: f; captured := None |}
  = Some r ->
  matcher true heading_marker
    {| endIndex := i; rest := (35%N :: repeat 35%N n ++ spaces ++ a :: f)%list;
       captured := None |} c
  = Some r.
Proof.
  intros Hspaces Ha Hc.
  assert (Hinner :
    matcher true (Then (at_least_one (Char 35)) (Many true Space))
      {| endIndex := i; rest := (35%N :: repeat 35%N n ++ spaces ++ a :: f)%list;
         captured := None |}
      (fun y => if (endIndex y =? i)%nat then None else c y) = Some r).
  { unfold at_least_one. cbn [matcher rest endIndex captured].
    rewrite in_set_self.
    apply repeat_set_greedy.
    { apply Forall_forall. intros ch Hch. apply repeat_spec in Hch. subst ch.
      apply in_set_self. }
    rewrite repeat_set_stop.
    2:{ intros ch f' Hf. destruct Hspaces as [|sp spaces' Hsp _].
        - injection Hf as <- _. exact (alphanumeric_not_hash _ Ha).
        - injection Hf as <- _. exact (space_not_hash _ Hsp). }
    cbn [rest endIndex captured].
    apply repeat_set_greedy; [exact Hspaces|].
    rewrite repeat_set_stop.
    2:{ intros ch f' Hf. injection Hf as <- _.
        exact (alphanumeric_not_whitespace _ Ha). }
    rewrite repeat_length. cbv beta. cbn [endIndex].
    destruct (Nat.eqb_spec (S i + n + List.length spaces) i) as [Heq|_]; [lia|].
    exact Hc. }
  change (match
            matcher true (Then (at_least_one (Char 35)) (Many true Space))
              {| endIndex := i;
                 rest := (35%N :: repeat 35%N n ++ spaces ++ a :: f)%list;
                 captured := None |}
              (fun y => if (endIndex y =? i)%nat then None else c y)
          with
          | Some r' => Some r'
          | None =>
              c {| endIndex := i;
                   rest := (35%N :: repeat 35%N n ++ spaces ++ a :: f)%list;
                   captured := None |}
          end = Some r).
  rewrite Hinner. reflexivity.
Qed.

Lemma marker_then (m w R : jsstring) (i : nat) (c : Continuation) (r : MatchState) :
  marker m ->
  w <> [] -> Forall (fun ch => alphanumeric ch = true) w ->
  c {| endIndex := i + List.length m; rest := (w ++ R)%list; captured := None |}
  = Some r ->
  matcher true heading_marker
    {| endIndex := i; rest := (m ++ w ++ R)%list; captured := None |} c
  = Some r.
Proof.
  intros Hm Hne Hw Hc. destruct w as [|a w]; [contradiction|].
  inversion Hw as [|x l Ha _]; subst.
  destruct Hm as [-> | [n [spaces [-> Hspaces]]]].
  - simpl in *. rewrite Nat.add_0_r in Hc. exact (marker_none _ _ _ _ _ Ha Hc).
  - rewrite <- app_assoc. simpl.
    apply (marker_some _ _ _ _ _ _ _ Hspaces Ha).
    rewrite <- Hc. f_equal. f_equal.
    rewrite length_app, repeat_length. simpl. lia.
Qed.

Lemma line_begin_start (s : jsstring) (c : Continuation) (r : MatchState) :
  c {| endIndex := 0; rest := s; captured := None |} = Some r ->
  matcher true line_begin {| endIndex := 0; rest := s; captured := None |} c = Some r.
Proof.
  intros Hc. unfold line_begin. cbn [matcher endIndex Nat.eqb].
  rewrite Hc. reflexivity.
Qed.

Lemma line_begin_feed (i : nat) (s : jsstring) (c : Continuation) (r : MatchState) :
  c {| endIndex := S i; rest := s; captured := None |} = Some r ->
  exists r0,
    matcher true line_begin {| endIndex := i; rest := 10%N :: s; captured := None |} c
    = Some r0.
Proof.
  intros Hc. unfold line_begin. cbn [matcher rest endIndex captured].
  rewrite in_set_self, Hc.
  destruct (i =? 0)%nat; [|eexists; reflexivity].
  destruct (c {| endIndex := i; rest := 10%N :: s; captured := None |});
    eexists; reflexivity.
Qed.

Section FirstHeading.

Variable keyword : string.
Variables before m w mid body tail : jsstring.

Hypothesis keyword_plain : plain keyword = true.
Hypothesis before_line_start : line_start before.
Hypothesis before_without_keyword : ~ occurs keyword before.
Hypothesis m_marker : marker m.
Hypothesis w_spells : spells keyword w.
Hypothesis mid_blank : Forall colon_or_space mid.
Hypothesis body_starts_plain : starts_plain (body ++ tail)%list = true.
Hypothesis body_one_section : no_heading_inside body tail = true.
Hypothesis tail_section_end : section_end tail.

(** The matcher succeeds at the start of the heading line. *)
Lemma heading_matches :
  exists pre s r0,
    (before ++ m ++ w ++ mid ++ 10%N :: body ++ tail = pre ++ s)%list
    /\ List.length pre <= List.length before
    /\ matcher true (section_pattern keyword)
         {| endIndex := List.length pre; rest := s; captured := None |} Some
       = Some r0.
Proof.
  destruct (spells_alphanumeric _ _ keyword_plain w_spells) as [Hne Hall].
  assert (Hmarker : forall i,
    matcher true heading_marker
      {| endIndex := i; rest := (m ++ w ++ mid ++ 10%N :: body ++ tail)%list;
         captured := None |}
      (fun y => matcher true
         (Then (literal keyword)
         (Then (Many true ColonOrSpace)
         (Then (One (Char 10))
         (Then (Capture (Many false Anything)) section_close)))) y Some)
    = Some {| endIndex := S (i + List.length m + List.length w + List.length mid)
                          + List.length body;
              rest := tail; captured := Some body |}).
  { intros i. apply (marker_then m w _ i _ _ m_marker Hne Hall).
    exact (after_keyword keyword w mid body tail (i + List.length m) w_spells
             mid_blank body_starts_plain body_one_section tail_section_end). }
  pose (after_begin := fun y : MatchState =>
    matcher true heading_marker y
      (fun y' => matcher true
         (Then (literal keyword)
         (Then (Many true ColonOrSpace)
         (Then (One (Char 10))
         (Then (Capture (Many false Anything)) section_close)))) y' Some)).
  destruct before_line_start as [Hb | [b Hb]].
  - exists [], (before ++ m ++ w ++ mid ++ 10%N :: body ++ tail)%list.
    eexists. split; [reflexivity|]. split; [simpl; lia|].
    rewrite Hb. simpl app.
    exact (line_begin_start _ after_begin _ (Hmarker 0)).
  - destruct (line_begin_feed (List.length b) _ after_begin _
                (Hmarker (S (List.length b))))
      as [r0 Hr0].
    exists b, (10%N :: m ++ w ++ mid ++ 10%N :: body ++ tail)%list, r0.
    split; [rewrite Hb, <- app_assoc; reflexivity|].
    split; [rewrite Hb, length_app; simpl; lia|].
    exact Hr0.
Qed.

(** A match that starts at or before the heading is the match of that
    heading. *)
Lemma heading_unique (pre s : jsstring) (r : MatchState) :
  (before ++ m ++ w ++ mid ++ 10%N :: body ++ tail = pre ++ s)%list ->
  List.length pre <= List.length (before ++ m) ->
  matcher true (section_pattern keyword)
    {| endIndex := List.length pre; rest := s; captured := None |} Some = Some r ->
  captured r = Some body.
Proof.
  intros Htext Hpre Hmatch.
  destruct (matcher_sound true line_begin eq_refl
              {| endIndex := List.length pre; rest := s; captured := None |}
              (fun y => matcher true
                 (Then heading_marker (Then (literal keyword)
                 (Then (Many true ColonOrSpace) (Then (One (Char 10))
                 (Then (Capture (Many false Anything)) section_close))))) y Some)
              r Hmatch)
    as [uA [y1 [HA [Hrest1 [Hidx1 [Hcap1 H1]]]]]].
  clear Hmatch. simpl in Hrest1, Hidx1, Hcap1, HA.
  destruct (matcher_sound true heading_marker eq_refl y1
              (fun y => matcher true
                 (Then (literal keyword)
                 (Then (Many true ColonOrSpace) (Then (One (Char 10))
                 (Then (Capture (Many false Anything)) section_close)))) y Some)
              r H1)
    as [uB [y2 [HB [Hrest2 [Hidx2 [Hcap2 H2]]]]]].
  clear H1.
  destruct (matcher_sound true (literal keyword) (capture_free_literal keyword) y2
              (fun y => matcher true
                 (Then (Many true ColonOrSpace) (Then (One (Char 10))
                 (Then (Capture (Many false Anything)) section_close))) y Some)
              r H2)
    as [w' [y3 [HK [Hrest3 _]]]].
  assert (Hw' : spells keyword w').
  { unfold spells, upper. unfold literal in HK.
    exact (accepts_literal _ _ _ _ _ HK). }
  assert (HuA : Forall (fun c => alphanumeric c = false) uA).
  { destruct (accepts_line_begin _ _ _ HA) as [[_ ->] | ->]; repeat constructor. }
  assert (HuB : Forall (fun c => alphanumeric c = false) uB).
  { exact (marker_not_alphanumeric _ (accepts_heading_marker _ _ _ HB)). }
  assert (Hsame : (pre ++ uA ++ uB = before ++ m)%list).
  { apply (keyword_position keyword before m w (mid ++ 10%N :: body ++ tail)%list
             pre (uA ++ uB)%list w' (rest y3) keyword_plain before_line_start
             before_without_keyword (marker_not_alphanumeric _ m_marker)
             w_spells Hw').
    - apply Forall_app. split; assumption.
    - exact Hpre.
    - rewrite Htext, Hrest1, Hrest2, Hrest3, <- !app_assoc. reflexivity. }
  assert (Hrest : rest y2 = (w ++ mid ++ 10%N :: body ++ tail)%list).
  { apply (app_inv_head (before ++ m)%list).
    rewrite <- Hsame at 1. rewrite <- !app_assoc.
    rewrite <- Hrest2, <- Hrest1, <- Htext. reflexivity. }
  destruct y2 as [i2 s2 cap2]. cbn [rest endIndex captured] in Hrest, Hcap2, H2.
  subst s2.
  rewrite Hcap2, Hcap1 in H2.
  rewrite (after_keyword keyword w mid body tail i2 w_spells mid_blank
             body_starts_plain body_one_section tail_section_end) in H2.
  injection H2 as <-. reflexivity.
Qed.

End FirstHeading.

Lemma exec_from_first (ic : bool) (p : Pattern) (pre : jsstring) :
  forall s s' i r0,
  s = (pre ++ s')%list ->
  matcher ic p {| endIndex := i + List.length pre; rest := s'; captured := None |} Some
  = Some r0 ->
  exists pre' s'' r,
    s = (pre' ++ s'')%list
    /\ List.length pre' <= List.length pre
    /\ matcher ic p
         {| endIndex := i + List.length pre'; rest := s''; captured := None |} Some
       = Some r
    /\ exec_from ic p s i = Some r.
Proof.
  induction pre as [|a pre IH]; intros s s' i r0 Hs Hmatch; simpl in *.
  - subst s. exists [], s', r0. simpl. repeat split; try assumption; [lia|].
    rewrite Nat.add_0_r in Hmatch.
    destruct s'; simpl; rewrite Hmatch; reflexivity.
  - subst s. simpl.
    destruct (matcher ic p
                {| endIndex := i; rest := (a :: pre ++ s')%list; captured := None |}
                Some) as [r|] eqn:Hfirst.
    + exists [], (a :: pre ++ s')%list, r. simpl. rewrite Nat.add_0_r.
      repeat split; [lia|exact Hfirst].
    + rewrite Nat.add_succ_r in Hmatch.
      destruct (IH _ _ (S i) _ eq_refl Hmatch) as [pre' [s'' [r [Hs [Hlen [Hm Hexec]]]]]].
      exists (a :: pre'), s'', r. simpl.
      split; [f_equal; exact Hs|]. split; [lia|].
      split; [rewrite Nat.add_succ_r; exact Hm|exact Hexec].
Qed.

(** The first heading with the keyword gives the section. *)
Lemma reads_first_section (keyword : string)
    (before m w mid body tail : jsstring) :
  plain keyword = true ->
  line_start before ->
  ~ occurs keyword before ->
  marker m ->
  spells keyword w ->
  Forall colon_or_space mid ->
  starts_plain (body ++ tail)%list = true ->
  no_heading_inside body tail = true ->
  section_end tail ->
  extractSection (before ++ m ++ w ++ mid ++ 10%N :: body ++ tail)%list keyword
  = Normal (trim body).
Proof.
  intros Hplain Hline Hfirst Hm Hw Hmid Hstart Hno Hend.
  destruct (heading_matches keyword before m w mid body tail Hplain Hline Hm Hw Hmid
              Hstart Hno Hend) as [pre [s [r0 [Htext [Hlen Hmatch]]]]].
  destruct (exec_from_first true (section_pattern keyword) pre _ s 0 r0 Htext Hmatch)
    as [pre' [s'' [r [Htext' [Hlen' [Hmatch' Hexec]]]]]].
  unfold extractSection. rewrite Hexec.
  rewrite (heading_unique keyword before m w mid body tail Hplain Hline Hfirst Hm Hw
             Hmid Hstart Hno Hend pre' s'' r Htext').
  - reflexivity.
  - rewrite length_app. lia.
  - exact Hmatch'.
Qed.

(** ** Trimming *)

Lemma skip_whitespace_clean (s : jsstring) : starts_clean (skip_whitespace s) = true.
Proof.
  induction s as [|c s IH]; simpl; [reflexivity|].
  destruct (is_whitespace c) eqn:Hc; [exact IH|]. simpl. rewrite Hc. reflexivity.
Qed.

Lemma skip_whitespace_snoc (l : jsstring) (a : N) :
  is_whitespace a = false ->
  skip_whitespace (l ++ [a])%list = (skip_whitespace l ++ [a])%list.
Proof.
  intros Ha. induction l as [|c l IH]; simpl.
  - rewrite Ha. reflexivity.
  - destruct (is_whitespace c); [exact IH|reflexivity].
Qed.

(** A text that starts with a character other than white space keeps it
    when trimmed. *)
Lemma trim_cons (a : N) (l : jsstring) :
  is_whitespace a = false ->
  trim (a :: l) = a :: rev (skip_whitespace (rev l)).
Proof.
  intros Ha. unfold trim. simpl. rewrite Ha. simpl.
  rewrite (skip_whitespace_snoc _ _ Ha), rev_app_distr. reflexivity.
Qed.

Lemma trim_trimmed (s : jsstring) : trimmed (trim s).
Proof.
  unfold trimmed. split.
  - unfold trim. pose proof (skip_whitespace_clean s) as Hclean.
    destruct (skip_whitespace s) as [|a t]; [reflexivity|].
    simpl in Hclean. apply negb_true_iff in Hclean.
    simpl rev. rewrite (skip_whitespace_snoc _ _ Hclean), rev_app_distr.
    simpl. rewrite Hclean. reflexivity.
  - unfold trim. rewrite rev_involutive. apply skip_whitespace_clean.
Qed.

(** [extractSection] returns a trimmed text whatever the text is. *)
Lemma extract_normal (text : jsstring) (keyword : string) :
  exists s, extractSection text keyword = Normal s /\ trimmed s.
Proof.
  unfold extractSection.
  destruct (exec_from true (section_pattern keyword) text 0) as [r|] eqn:Hexec.
  - destruct (exec_section _ _ _ Hexec)
      as [before [m [w [mid [body [tail [_ [_ [_ [_ [_ [_ [_ Hcap]]]]]]]]]]]]].
    rewrite Hcap. exists (trim body). split; [reflexivity|apply trim_trimmed].
  - exists []. split; [reflexivity|split; reflexivity].
Qed.

(** A text without line feed has no section. *)
Lemma extract_one_line (text : jsstring) (keyword : string) :
  ~ In 10%N text -> extractSection text keyword = Normal [].
Proof.
  intros Hfeed. unfold extractSection.
  destruct (exec_from true (section_pattern keyword) text 0) as [r|] eqn:Hexec;
    [exfalso|reflexivity].
  destruct (exec_section _ _ _ Hexec)
    as [before [m [w [mid [body [tail [Htext _]]]]]]].
  apply Hfeed. rewrite Htext.
  repeat (apply in_or_app; right). left. reflexivity.
Qed.

(** ** What [extractSection] returns *)

(** X17. For a keyword of letters and digits and any text,
    [extractSection] returns without throwing, and what it returns has no
    white space at either end. *)
Theorem extractSection_returns_trimmed_text (text : jsstring) (keyword : string) :
  plain keyword = true ->
  exists s, extractSection text keyword = Normal s /\ trimmed s.
Proof.
  intros _. apply extract_normal.
Qed.

Lemma extractSection_returns_trimmed_text_witness :
  exists s,
    extractSection (cu "## Summary" ++ 10%N :: cu "  All good.  ")%list "summary"
    = Normal s /\ trimmed s.
Proof.
  apply (extractSection_returns_trimmed_text
           (cu "## Summary" ++ 10%N :: cu "  All good.  ")%list "summary").
  reflexivity.
Defined.

(** X18. A non-empty result comes from a heading line: the text holds, at
    its start or after a line feed, an optional run of [#] with white
    space, then the keyword in any letter case, then only colons and
    white space up to a line feed; the result is the trimmed text from
    there to the first line feed followed by [#], or to the end when
    there is none.  A line that holds more than the keyword, as in
    [## Fix scripts], is no heading. *)
Theorem extractSection_result_is_a_section
  (text : jsstring) (keyword : string) (s : jsstring) :
  plain keyword = true ->
  extractSection text keyword = Normal s ->
  s <> [] ->
  exists before m w mid body tail,
    text = (before ++ m ++ w ++ mid ++ 10%N :: body ++ tail)%list
    /\ line_start before /\ marker m /\ spells keyword w
    /\ Forall colon_or_space mid /\ section_end tail
    /\ no_heading_inside body tail = true
    /\ s = trim body.
Proof.
  intros _ Hs Hne. unfold extractSection in Hs.
  destruct (exec_from true (section_pattern keyword) text 0) as [r|] eqn:Hexec.
  - destruct (exec_section _ _ _ Hexec)
      as [before [m [w [mid [body [tail
           [Htext [Hline [Hm [Hw [Hmid [Hend [Hno Hcap]]]]]]]]]]]]].
    rewrite Hcap in Hs. injection Hs as <-.
    exists before, m, w, mid, body, tail. repeat split; assumption.
  - injection Hs as <-. contradiction.
Qed.

Lemma extractSection_result_is_a_section_witness :
  exists before m w mid body tail,
    (cu "Two problems." ++ 10%N :: cu "## Fix:" ++ 10%N :: cu "openclaw doctor"
       ++ 10%N :: cu "# Notes")%list
    = (before ++ m ++ w ++ mid ++ 10%N :: body ++ tail)%list
    /\ line_start before /\ marker m /\ spells "fix" w
    /\ Forall colon_or_space mid /\ section_end tail
    /\ no_heading_inside body tail = true
    /\ cu "openclaw doctor" = trim body.
Proof.
  apply (extractSection_result_is_a_section
           (cu "Two problems." ++ 10%N :: cu "## Fix:" ++ 10%N :: cu "openclaw doctor"
              ++ 10%N :: cu "# Notes")%list
           "fix" (cu "openclaw doctor")).
  - reflexivity.
  - vm_compute. reflexivity.
  - discriminate.
Defined.

(** X19. When the first occurrence of the keyword in the text is a heading
    line (at the start of the text or after a line feed, after an optional
    run of [#] with white space, followed only by colons and white space
    up to a line feed) and the text after it starts with a character other
    than a colon and white space, [extractSection] returns that text,
    trimmed, up to the first line feed followed by [#], or up to the end
    when there is none. *)
Theorem extractSection_reads_first_section (keyword : string)
    (before m w mid body tail : jsstring) :
  plain keyword = true ->
  line_start before ->
  ~ occurs keyword before ->
  marker m ->
  spells keyword w ->
  Forall colon_or_space mid ->
  starts_plain (body ++ tail)%list = true ->
  no_heading_inside body tail = true ->
  section_end tail ->
  extractSection (before ++ m ++ w ++ mid ++ 10%N :: body ++ tail)%list keyword
  = Normal (trim body).
Proof.
  apply reads_first_section.
Qed.

Lemma extractSection_reads_first_section_witness :
  extractSection
    ((cu "Two problems." ++ [10%N]) ++ cu "## " ++ cu "Summary" ++ cu ": "
       ++ 10%N :: (cu "The gateway is down. " ++ 10%N :: cu "Restart it." ++ [10%N])
       ++ (10%N :: cu "## Fix" ++ 10%N :: cu "openclaw gateway restart"))%list
    "summary"
  = Normal (trim (cu "The gateway is down. " ++ 10%N :: cu "Restart it." ++ [10%N])%list).
Proof.
  apply (extractSection_reads_first_section "summary"
           (cu "Two problems." ++ [10%N])%list (cu "## ") (cu "Summary") (cu ": ")
           (cu "The gateway is down. " ++ 10%N :: cu "Restart it." ++ [10%N])%list
           (10%N :: cu "## Fix" ++ 10%N :: cu "openclaw gateway restart")%list).
  - reflexivity.
  - right. exists (cu "Two problems."). reflexivity.
  - intros H. apply test_word in H. vm_compute in H. discriminate H.
  - right. exists 1, [32%N]. split; [reflexivity|repeat constructor].
  - reflexivity.
  - repeat constructor.
  - reflexivity.
  - reflexivity.
  - right. reflexivity.
Defined.

(** X20. A heading line with nothing under it takes the next heading: when
    the line after the keyword's heading starts with [#], the result
    starts with that [#] and runs over the following heading line and its
    text. *)
Theorem empty_section_takes_next_heading (keyword : string)
    (before m w mid next tail : jsstring) :
  plain keyword = true ->
  line_start before ->
  ~ occurs keyword before ->
  marker m ->
  spells keyword w ->
  Forall colon_or_space mid ->
  no_heading_inside (35%N :: next) tail = true ->
  section_end tail ->
  exists s,
    extractSection (before ++ m ++ w ++ mid ++ 10%N :: (35%N :: next) ++ tail)%list
      keyword
    = Normal (35%N :: s)
    /\ 35%N :: s = trim (35%N :: next).
Proof.
  intros Hplain Hline Hfirst Hm Hw Hmid Hno Hend.
  exists (rev (skip_whitespace (rev next))).
  rewrite (reads_first_section keyword before m w mid (35%N :: next) tail Hplain Hline
             Hfirst Hm Hw Hmid eq_refl Hno Hend).
  rewrite (trim_cons 35 next eq_refl). split; reflexivity.
Qed.

Lemma empty_section_takes_next_heading_witness :
  exists s,
    extractSection
      ([] ++ cu "## " ++ cu "Summary" ++ [] ++ 10%N
         :: (35%N :: cu "# Fix" ++ 10%N :: cu "openclaw gateway restart") ++ [])%list
      "summary"
    = Normal (35%N :: s)
    /\ 35%N :: s = trim (35%N :: cu "# Fix" ++ 10%N :: cu "openclaw gateway restart")%list.
Proof.
  apply (empty_section_takes_next_heading "summary"
           [] (cu "## ") (cu "Summary") []
           (cu "# Fix" ++ 10%N :: cu "openclaw gateway restart")%list []).
  - reflexivity.
  - left. reflexivity.
  - intros H. apply test_word in H. vm_compute in H. discriminate H.
  - right. exists 1, [32%N]. split; [reflexivity|repeat constructor].
  - reflexivity.
  - constructor.
  - reflexivity.
  - left. reflexivity.
Defined.

Lemma skip_whitespace_suffix (s : jsstring) :
  exists l, s = (l ++ skip_whitespace s)%list.
Proof.
  induction s as [|c s [l IH]]; simpl; [exists []; reflexivity|].
  destruct (is_whitespace c); [|exists []; reflexivity].
  exists (c :: l). simpl. rewrite <- IH. reflexivity.
Qed.

(** What [trim] returns is a part of its argument. *)
Lemma trim_substring (s : jsstring) :
  exists l r, s = (l ++ trim s ++ r)%list.
Proof.
  unfold trim. destruct (skip_whitespace_suffix s) as [l Hl].
  destruct (skip_whitespace_suffix (rev (skip_whitespace s))) as [r Hr].
  exists l, (rev r). rewrite <- rev_app_distr, <- Hr, rev_involutive. exact Hl.
Qed.

(** X21. What [extractSection] returns never holds a line feed followed
    by [#]: a section stops before the first one. *)
Theorem extractSection_result_has_no_heading
  (text : jsstring) (keyword : string) (s u v : jsstring) :
  plain keyword = true ->
  extractSection text keyword = Normal s ->
  s <> (u ++ 10%N :: 35%N :: v)%list.
Proof.
  intros _ Hs Hsplit. unfold extractSection in Hs.
  destruct (exec_from true (section_pattern keyword) text 0) as [r|] eqn:Hexec.
  - destruct (exec_section _ _ _ Hexec)
      as [before [m [w [mid [body [tail [_ [_ [_ [_ [_ [_ [Hno Hcap]]]]]]]]]]]]].
    rewrite Hcap in Hs. injection Hs as Hs.
    destruct (trim_substring body) as [l [r' Hbody]].
    rewrite Hs, Hsplit in Hbody.
    assert (Hhead : starts_heading (10%N :: (35%N :: v ++ r') ++ tail)%list = false).
    { apply (no_heading_split tail (l ++ u)%list body _ _ Hno).
      rewrite Hbody, <- !app_assoc. reflexivity. }
    discriminate Hhead.
  - injection Hs as <-. destruct u; discriminate Hsplit.
Qed.

Lemma extractSection_result_has_no_heading_witness :
  (cu "openclaw doctor" ++ 10%N :: cu "echo # done")%list
  <> (cu "openclaw doctor" ++ 10%N :: 35%N :: cu " done")%list.
Proof.
  apply (extractSection_result_has_no_heading
           (cu "## Fix" ++ 10%N :: cu "openclaw doctor" ++ 10%N :: cu "echo # done"
              ++ 10%N :: cu "# Notes" ++ 10%N :: cu "none")%list
           "fix"
           (cu "openclaw doctor" ++ 10%N :: cu "echo # done")%list
           (cu "openclaw doctor") (cu " done")).
  - reflexivity.
  - vm_compute. reflexivity.
Defined.

(** ** What [analyzeWithAI] reads from the provider's text *)

(** X22. From a provider text without line feed, [analyzeWithAI] reads no
    section: the summary is the first 500 code units of the text, and the
    insights and the additional fixes are empty. *)
Theorem read_response_without_line_feed (response : jsstring) :
  ~ In 10%N response ->
  read_response response
  = Normal {| Sections.summary := firstn 500 response;
              Sections.insights := [];
              Sections.additionalIssues := [];
              Sections.additionalFixes := [];
              Sections.raw := response |}.
Proof.
  intros Hfeed. unfold read_response.
  rewrite !(extract_one_line _ _ Hfeed). reflexivity.
Qed.

Lemma read_response_without_line_feed_witness :
  read_response (cu "Summary: all good. Fix: none needed.")
  = Normal {| Sections.summary := firstn 500 (cu "Summary: all good. Fix: none needed.");
              Sections.insights := [];
              Sections.additionalIssues := [];
              Sections.additionalFixes := [];
              Sections.raw := cu "Summary: all good. Fix: none needed." |}.
Proof.
  apply (read_response_without_line_feed (cu "Summary: all good. Fix: none needed.")).
  intros H. vm_compute in H. intuition discriminate.
Defined.

(** X23. For any provider text, reading the three sections does not throw;
    the summary is empty exactly when the text is empty; the insights and
    the additional fixes have no white space at either end; no additional
    issue is ever reported. *)
Theorem read_response_summary (response : jsstring) :
  exists analysis,
    read_response response = Normal analysis
    /\ (Sections.summary analysis = [] <-> response = [])
    /\ trimmed (Sections.insights analysis)
    /\ trimmed (Sections.additionalFixes analysis)
    /\ Sections.additionalIssues analysis = [].
Proof.
  unfold read_response.
  destruct (extract_normal response "summary") as [s [Hs _]].
  destruct (extract_normal response "optimization") as [o [Ho Htrim_o]].
  destruct (extract_normal response "fix") as [f [Hf Htrim_f]].
  rewrite Hs, Ho, Hf. simpl. eexists. split; [reflexivity|]. simpl.
  split; [|split; [|split]].
  - split.
    + intros Hempty. destruct s; [|discriminate Hempty].
      destruct response; [reflexivity|discriminate Hempty].
    + intros ->. vm_compute in Hs. injection Hs as <-. reflexivity.
  - destruct o; assumption.
  - destruct f; assumption.
  - reflexivity.
Qed.

(** * Quiet payloads *)

Lemma or_else_falsy (v d : JsVal) : truthy v = false -> or_else v d = d.
Proof.
  intros H. unfold or_else. rewrite H. reflexivity.
Qed.

(** X24. A payload with no log text and no gateway status (each missing or
    falsy) is reported by none of the five rules that read them; this
    covers the payloads [null] and [undefined], on which the reads
    throw. *)
Theorem quiet_payload_matches_no_log_rule (diagnostic : JsVal) :
  truthy (diagnostic ?. "logs" ?. "errors") = false ->
  truthy (diagnostic ?. "logs" ?. "stderr") = false ->
  truthy (diagnostic ?. "openclaw" ?. "gatewayStatus") = false ->
  matched diagnostic gateway_not_running = false
  /\ matched diagnostic port_conflict = false
  /\ matched diagnostic browser_port_binding = false
  /\ matched diagnostic ggml_metal_crash = false
  /\ matched diagnostic orphan_tool_calls = false.
Proof.
  intros Herrors Hstderr Hstatus. unfold matched. simpl detect.
  destruct (is_nullish diagnostic) eqn:Hnull.
  - destruct (get_prop_nullish diagnostic "logs" Hnull) as [m1 ->].
    destruct (get_prop_nullish diagnostic "openclaw" Hnull) as [m2 ->].
    repeat split; reflexivity.
  - rewrite !(get_prop_not_nullish _ _ Hnull). simpl Js.bind.
    rewrite !(or_else_falsy _ _ Herrors), !(or_else_falsy _ _ Hstderr),
      !(or_else_falsy _ _ Hstatus).
    repeat split; reflexivity.
Qed.

Lemma quiet_payload_matches_no_log_rule_witness :
  matched minimal_payload gateway_not_running = false
  /\ matched minimal_payload port_conflict = false
  /\ matched minimal_payload browser_port_binding = false
  /\ matched minimal_payload ggml_metal_crash = false
  /\ matched minimal_payload orphan_tool_calls = false.
Proof.
  apply (quiet_payload_matches_no_log_rule minimal_payload); reflexivity.
Defined.
